(** * Cannoli graph kernel: object status engine, group geometry, hydration

    A shallow embedding of the classes [CannoliGraph], [CannoliObject] and
    [CannoliVertex] and the properties their specification states.

    Conventions of the embedding.

    - The shared record [graph : Record<string, CannoliObject>] is the store
      of all objects.  It is kept as an association list whose order is the
      order in which [for (const k in graph)] enumerates the keys; an object
      reference is the key under which the object is stored, and a method
      call [graph[k].m(...)] is [m k ...].
    - Canvas coordinates ([x], [y], [width], [height]) are the integers the
      canvas file format stores, so sums and products are exact.
    - The closures handed to [on("update", ...)] are kept as data
      ([Listener]): what a closure captures is what the constructor holds.
    - [emit] calls listeners, listeners call [tryReject], [tryReject] calls
      [emit]: the recursion is bounded by a fuel argument, and running out of
      fuel is an outcome of its own ([Exhausted]), never confused with a
      normal return or with a thrown error.
    - [async]/[await] in [execute] is sequenced in program order; what other
      tasks do while [execute] is suspended is outside the model. *)

From Stdlib Require Import String List ZArith Lia Bool Permutation Sorted.
From Stdlib Require Import QArith Lqa.
Import ListNotations.

Local Open Scope string_scope.
Local Open Scope list_scope.

(* ===================================================================== *)
(** * Part I. Definitions                                                 *)
(* ===================================================================== *)

(** ** Data model *)

(** [enum CannoliObjectStatus] of the object module. *)
Inductive CannoliObjectStatus : Type :=
| Pending
| Executing
| Complete
| Rejected.

Definition status_eqb (a b : CannoliObjectStatus) : bool :=
  match a, b with
  | Pending, Pending | Executing, Executing
  | Complete, Complete | Rejected, Rejected => true
  | _, _ => false
  end.

(** A dependency term, [string | string[]]. *)
Inductive Dependency : Type :=
| Single (dep : string)
| AnyOf (deps : list string).

(** The ids a term refers to. *)
Definition term_ids (d : Dependency) : list string :=
  match d with
  | Single i => [i]
  | AnyOf l => l
  end.

(** The two closures [setupListeners] registers.  [OnSingle this] is
    [(obj, status, run) => this.dependencyUpdated(obj, status, run)];
    [OnAlternative this dependency element] is the closure of the inner
    loop, which captures the whole array and the current element. *)
Inductive Listener : Type :=
| OnSingle (subscriber : string)
| OnAlternative (subscriber : string) (dependency : list string)
                (element : string).

(** [canvasData.type] of [AllCanvasNodeData]. *)
Inductive CanvasNodeType : Type :=
| CanvasFile
| CanvasText
| CanvasLink
| CanvasGroup.

Module Canvas.
Record AllCanvasNodeData : Type := mk {
  type : CanvasNodeType;
  x : Z;
  y : Z;
  width : Z;
  height : Z
}.
End Canvas.

Module Rect.
(** The object literal [createRectangle] returns. *)
Record Rectangle : Type := mk {
  x : Z;
  y : Z;
  width : Z;
  height : Z;
  x_right : Z;
  y_bottom : Z
}.
End Rect.

(** The fields [CannoliVertex] adds to [CannoliObject]. *)
Record VertexFields : Type := mkVertex {
  canvasData : Canvas.AllCanvasNodeData;
  outgoingEdges : list (string * bool);
  incomingEdges : list (string * bool);
  groups : list string
}.

(** A [CannoliObject]; [listeners] is the "update" listener array of the
    [EventEmitter] it extends, [vertex] is [Some] exactly for instances of
    [CannoliVertex]. *)
Record CannoliObject : Type := mkObject {
  id : string;
  text : string;
  status : CannoliObjectStatus;
  dependencies : list Dependency;
  isClone : bool;
  listeners : list Listener;
  vertex : option VertexFields
}.

Definition Graph : Type := list (string * CannoliObject).

Record Run : Type := mkRun { isMock : bool }.

(** ** Geometry of [CannoliVertex] *)

Local Open Scope Z_scope.

Definition createRectangle (x y width height : Z) : Rect.Rectangle :=
  {| Rect.x := x;
     Rect.y := y;
     Rect.width := width;
     Rect.height := height;
     Rect.x_right := x + width;
     Rect.y_bottom := y + height |}.

Definition encloses (a b : Rect.Rectangle) : bool :=
  (Rect.x a <=? Rect.x b) &&
  (Rect.y a <=? Rect.y b) &&
  (Rect.x_right a >=? Rect.x_right b) &&
  (Rect.y_bottom a >=? Rect.y_bottom b).

Definition overlaps (a b : Rect.Rectangle) : bool :=
  let horizontalOverlap :=
    (Rect.x a <? Rect.x_right b) && (Rect.x_right a >? Rect.x b) in
  let verticalOverlap :=
    (Rect.y a <? Rect.y_bottom b) && (Rect.y_bottom a >? Rect.y b) in
  let overlap := horizontalOverlap && verticalOverlap in
  overlap && negb (encloses a b) && negb (encloses b a).

(** The specification's reading of "the rectangles intersect": the
    horizontal extents overlap and the vertical extents overlap.  Two
    extents overlap when each one starts before the other one ends. *)
Definition extents_overlap (lo1 hi1 lo2 hi2 : Z) : Prop :=
  lo1 < hi2 /\ lo2 < hi1.

Definition spec_intersect (a b : Rect.Rectangle) : Prop :=
  extents_overlap (Rect.x a) (Rect.x_right a) (Rect.x b) (Rect.x_right b) /\
  extents_overlap (Rect.y a) (Rect.y_bottom a) (Rect.y b) (Rect.y_bottom b).

(** A point strictly inside the extent [(lo, hi)]. *)
Definition inside (lo hi : Z) (p : Q) : Prop :=
  (inject_Z lo < p)%Q /\ (p < inject_Z hi)%Q.

Local Close Scope Z_scope.

(** ** Effects: the object store, the event trace, exceptions *)

(** The overridable units of work whose calls are worth observing. *)
Inductive Method : Type :=
| RunMethod
| MockRunMethod.

(** What a method does that another party can observe, in program order:
    an assignment to [status], a call of [emit("update", o, s, run)], a call
    of [run()] or [mockRun()]. *)
Inductive Action : Type :=
| StatusWrite (o : string) (s : CannoliObjectStatus)
| EmitUpdate (o : string) (s : CannoliObjectStatus) (ctx : Run)
| Call (m : Method) (o : string).

Record World : Type := mkWorld {
  graph : Graph;
  trace : list Action
}.

Inductive Error : Type :=
| DuplicateAlternativeError (o : string)
| ConflictingAlternativesError (o : string)
| TypeError.

(** A computation returns, throws (the effects made before the throw stay),
    or exceeds the recursion bound. *)
Inductive Outcome (A : Type) : Type :=
| Returned (a : A) (w : World)
| Thrown (e : Error) (w : World)
| Exhausted.

Arguments Returned {A} a w.
Arguments Thrown {A} e w.
Arguments Exhausted {A}.

Definition M (A : Type) : Type := World -> Outcome A.

Definition ret {A : Type} (a : A) : M A := fun w => Returned a w.

Definition bind {A B : Type} (c : M A) (k : A -> M B) : M B :=
  fun w =>
    match c w with
    | Returned a w' => k a w'
    | Thrown e w' => Thrown e w'
    | Exhausted => Exhausted
    end.

Definition throw {A : Type} (e : Error) : M A := fun w => Thrown e w.

Declare Scope js_scope.
Delimit Scope js_scope with js.
Notation "x <- c ;; k" := (bind c (fun x => k))
  (at level 61, c at next level, right associativity) : js_scope.
Notation "c ;; k" := (bind c (fun _ => k))
  (at level 61, right associativity) : js_scope.
Local Open Scope js_scope.

(** [graph[k]]: [None] is [undefined]. *)
Fixpoint lookup (k : string) (g : Graph) : option CannoliObject :=
  match g with
  | [] => None
  | (k', o) :: rest => if String.eqb k k' then Some o else lookup k rest
  end.

(** Mutation of the object stored under [k]; its place in the enumeration
    order does not change. *)
Fixpoint update (k : string) (f : CannoliObject -> CannoliObject)
         (g : Graph) : Graph :=
  match g with
  | [] => []
  | (k', o) :: rest =>
      if String.eqb k k' then (k', f o) :: rest
      else (k', o) :: update k f rest
  end.

(** Reading a property of [graph[k]] throws when [graph[k]] is undefined. *)
Definition getObject (k : string) : M CannoliObject :=
  fun w =>
    match lookup k (graph w) with
    | Some o => Returned o w
    | None => Thrown TypeError w
    end.

Definition getGraph : M Graph := fun w => Returned (graph w) w.

Definition modifyObject (k : string) (f : CannoliObject -> CannoliObject)
  : M unit :=
  fun w => Returned tt {| graph := update k f (graph w); trace := trace w |}.

Definition record (a : Action) : M unit :=
  fun w => Returned tt {| graph := graph w; trace := trace w ++ [a] |}.

Definition with_status (s : CannoliObjectStatus) (o : CannoliObject)
  : CannoliObject :=
  {| id := id o; text := text o; status := s;
     dependencies := dependencies o; isClone := isClone o;
     listeners := listeners o; vertex := vertex o |}.

Definition with_dependencies (ds : list Dependency) (o : CannoliObject)
  : CannoliObject :=
  {| id := id o; text := text o; status := status o;
     dependencies := ds; isClone := isClone o;
     listeners := listeners o; vertex := vertex o |}.

Definition with_listeners (ls : list Listener) (o : CannoliObject)
  : CannoliObject :=
  {| id := id o; text := text o; status := status o;
     dependencies := dependencies o; isClone := isClone o;
     listeners := ls; vertex := vertex o |}.

Definition with_groups (gs : list string) (o : CannoliObject)
  : CannoliObject :=
  {| id := id o; text := text o; status := status o;
     dependencies := dependencies o; isClone := isClone o;
     listeners := listeners o;
     vertex :=
       match vertex o with
       | Some v => Some {| canvasData := canvasData v;
                           outgoingEdges := outgoingEdges v;
                           incomingEdges := incomingEdges v;
                           groups := gs |}
       | None => None
       end |}.

(** [this.status = s]. *)
Definition setStatus (self : string) (s : CannoliObjectStatus) : M unit :=
  modifyObject self (with_status s) ;;
  record (StatusWrite self s).

(** ** Array helpers with effectful callbacks *)

(** [for (const a of l) body(a)] and [l.forEach(body)]. *)
Fixpoint forEach {A : Type} (body : A -> M unit) (l : list A) : M unit :=
  match l with
  | [] => ret tt
  | a :: rest => body a ;; forEach body rest
  end.

(** [l.every(cb)]: stops at the first falsy answer.  A callback that falls
    off its end returns [undefined], which is falsy: [false] here. *)
Fixpoint every {A : Type} (cb : A -> M bool) (l : list A) : M bool :=
  match l with
  | [] => ret true
  | a :: rest => b <- cb a ;; if b then every cb rest else ret false
  end.

(** [l.some(cb)]: stops at the first truthy answer. *)
Fixpoint some {A : Type} (cb : A -> M bool) (l : list A) : M bool :=
  match l with
  | [] => ret false
  | a :: rest => b <- cb a ;; if b then ret true else some cb rest
  end.

(** [l.filter(cb)]. *)
Fixpoint filterM {A : Type} (cb : A -> M bool) (l : list A) : M (list A) :=
  match l with
  | [] => ret []
  | a :: rest =>
      b <- cb a ;;
      kept <- filterM cb rest ;;
      ret (if b then a :: kept else kept)
  end.

(** [this.graph[k].status === s] and its negation. *)
Definition statusIs (s : CannoliObjectStatus) (k : string) : M bool :=
  o <- getObject k ;; ret (status_eqb (status o) s).

Definition statusIsNot (s : CannoliObjectStatus) (k : string) : M bool :=
  o <- getObject k ;; ret (negb (status_eqb (status o) s)).

(** ** [CannoliObject]: dependencies *)

(** [isDependency(potentialDependency)].  The argument is first wrapped into
    an array ([term_ids]); then [some] over [some], with [includes] for an
    array term and [===] for a single id. *)
Definition isDependency (this : CannoliObject)
           (potentialDependency : Dependency) : bool :=
  let potentialDependencies := term_ids potentialDependency in
  existsb
    (fun pd =>
       existsb
         (fun dependency =>
            match dependency with
            | AnyOf l => existsb (String.eqb pd) l
            | Single d => String.eqb d pd
            end)
         (dependencies this))
    potentialDependencies.

Definition addDependency (self : string) (dependency : Dependency)
  : M unit :=
  this <- getObject self ;;
  if isDependency this dependency
  then throw (DuplicateAlternativeError self)
  else modifyObject self
         (fun o => with_dependencies (dependencies o ++ [dependency]) o).

(** [allDependenciesComplete()]: the loop returns [false] from inside at
    the first term that has a member which is not Complete. *)
Fixpoint allDependenciesComplete_loop (ds : list Dependency) : M bool :=
  match ds with
  | [] => ret true
  | AnyOf l :: rest =>
      notComplete <- some (statusIsNot Complete) l ;;
      if notComplete then ret false else allDependenciesComplete_loop rest
  | Single d :: rest =>
      notComplete <- statusIsNot Complete d ;;
      if notComplete then ret false else allDependenciesComplete_loop rest
  end.

Definition allDependenciesComplete (self : string) : M bool :=
  this <- getObject self ;;
  allDependenciesComplete_loop (dependencies this).

(** ** [CannoliObject]: events and status transitions *)

(** [async run() {}] and [async mockRun() {}]: empty bodies; the call is
    recorded. *)
Definition run (self : string) : M unit := record (Call RunMethod self).

Definition mockRun (self : string) : M unit :=
  record (Call MockRunMethod self).

(** [dependencyCompleted(dependency, run) {}]. *)
Definition dependencyCompleted (self dependency : string) (ctx : Run)
  : M unit := ret tt.

(** The methods below are written against the [emit] they call, so that
    the recursion through [emit] can be closed by [emit] itself. *)
Section Methods.

Variable emit : string -> CannoliObjectStatus -> Run -> M unit.

(** The callback [tryReject] hands to [every]: it returns [true] after
    rejecting and falls off its end otherwise. *)
Definition tryReject_callback (self : string) (ctx : Run)
           (dependency : Dependency) : M bool :=
  match dependency with
  | AnyOf l =>
      allRejected <- every (statusIs Rejected) l ;;
      if allRejected
      then setStatus self Rejected ;;
           emit self Rejected ctx ;;
           ret true
      else ret false
  | Single d =>
      rejected <- statusIs Rejected d ;;
      if rejected
      then setStatus self Rejected ;;
           emit self Rejected ctx ;;
           ret true
      else ret false
  end.

(** [tryReject(run)]: the answer of [every] is dropped and the method
    always returns [false]. *)
Definition tryReject (self : string) (ctx : Run) : M bool :=
  this <- getObject self ;;
  _ <- every (tryReject_callback self ctx) (dependencies this) ;;
  ret false.

Definition dependencyRejected (self dependency : string) (ctx : Run)
  : M unit :=
  _ <- tryReject self ctx ;; ret tt.

Definition dependencyUpdated (self dependency : string)
           (s : CannoliObjectStatus) (ctx : Run) : M unit :=
  match s with
  | Complete => dependencyCompleted self dependency ctx
  | Rejected => dependencyRejected self dependency ctx
  | _ => ret tt
  end.

(** Calling a listener with the arguments [(obj, status, run)] of the
    event. *)
Definition listener (l : Listener) (obj : string)
           (s : CannoliObjectStatus) (ctx : Run) : M unit :=
  match l with
  | OnSingle this => dependencyUpdated this obj s ctx
  | OnAlternative this dependency element =>
      (if status_eqb s Complete
       then completeDependencies <- filterM (statusIs Complete) dependency ;;
            if (1 <? length completeDependencies)%nat
            then throw (ConflictingAlternativesError this)
            else ret tt
       else ret tt) ;;
      dependencyUpdated this element s ctx
  end.

End Methods.

(** [this.emit("update", this, s, run)]: the listeners registered at the
    time of the call are called in order of registration; a listener that
    throws ends the emission. *)
Fixpoint emit (fuel : nat) (self : string) (s : CannoliObjectStatus)
         (ctx : Run) : M unit :=
  match fuel with
  | O => fun _ => Exhausted
  | S n =>
      this <- getObject self ;;
      record (EmitUpdate self s ctx) ;;
      forEach (fun l => listener (emit n) l self s ctx) (listeners this)
  end.

(** [graph[k].on("update", l)]. *)
Definition on (k : string) (l : Listener) : M unit :=
  _ <- getObject k ;;
  modifyObject k (fun o => with_listeners (listeners o ++ [l]) o).

Definition setupListeners (self : string) : M unit :=
  this <- getObject self ;;
  forEach
    (fun dependency =>
       match dependency with
       | AnyOf l =>
           forEach (fun element => on element (OnAlternative self l element)) l
       | Single d => on d (OnSingle self)
       end)
    (dependencies this).

Definition execute (fuel : nat) (self : string) (ctx : Run) : M unit :=
  _ <- getObject self ;;
  setStatus self Executing ;;
  emit fuel self Executing ctx ;;
  (if isMock ctx then mockRun self else run self) ;;
  setStatus self Complete ;;
  emit fuel self Complete ctx.

Definition reset (fuel : nat) (self : string) (ctx : Run) : M unit :=
  _ <- getObject self ;;
  setStatus self Pending ;;
  emit fuel self Pending ctx.

(** ** [CannoliVertex.setGroups] *)

Definition rectangleOf (c : Canvas.AllCanvasNodeData) : Rect.Rectangle :=
  createRectangle (Canvas.x c) (Canvas.y c) (Canvas.width c) (Canvas.height c).

(** The test of the scan: [vertex instanceof CannoliVertex], then
    [vertex.canvasData.type === "group"], then [encloses]. *)
Definition isEnclosingGroup (currentVertexRectangle : Rect.Rectangle)
           (vertex_ : CannoliObject) : bool :=
  match vertex vertex_ with
  | None => false
  | Some v =>
      match Canvas.type (canvasData v) with
      | CanvasGroup =>
          encloses (rectangleOf (canvasData v)) currentVertexRectangle
      | _ => false
      end
  end.

(** [canvasData.width * canvasData.height]; only read on vertices. *)
Definition area (o : CannoliObject) : Z :=
  match vertex o with
  | Some v => (Canvas.width (canvasData v) * Canvas.height (canvasData v))%Z
  | None => 0%Z
  end.

(** [Array.prototype.sort(compareFn)] is stable; for a comparator that is a
    consistent order the result is the stable ordering, which insertion
    from the right computes: an element goes before the first element to
    its right that it does not compare greater than. *)
Fixpoint insertSorted {A : Type} (compareFn : A -> A -> Z) (a : A)
         (l : list A) : list A :=
  match l with
  | [] => [a]
  | b :: rest =>
      if (compareFn a b <=? 0)%Z then a :: b :: rest
      else b :: insertSorted compareFn a rest
  end.

Definition sort {A : Type} (compareFn : A -> A -> Z) (l : list A) : list A :=
  fold_right (insertSorted compareFn) [] l.

Definition byArea (a b : CannoliObject) : Z := (area a - area b)%Z.

Definition setGroups (self : string) : M unit :=
  this <- getObject self ;;
  match vertex this with
  | None => throw TypeError
  | Some v =>
      let currentVertexRectangle := rectangleOf (canvasData v) in
      g <- getGraph ;;
      let groups_ :=
        filter (isEnclosingGroup currentVertexRectangle) (map snd g) in
      let sorted := sort byArea groups_ in
      modifyObject self (with_groups (map id sorted))
  end.

(** ** [CannoliGraph.hydrateGraph] *)

Module Hydration.

(** What [hydrateGraph] reads of a canvas node or edge: [id] and
    [cannoliData?.type], which is [None] when [cannoliData] or its [type] is
    undefined.  Type tags are the strings the enums stand for at run time. *)
Record CanvasElement : Type := mkElement {
  element_id : string;
  cannoliType : option string
}.

Record VerifiedCannoliCanvasData : Type := mkCanvas {
  nodes : list CanvasElement;
  edges : list CanvasElement
}.

(** The classes of the group, node and edge modules. *)
Inductive ObjectClass : Type :=
| ForEachGroup
| RepeatGroup
| CannoliGroup
| InputNode
| DisplayNode
| ReferenceNode
| FormatterNode
| CallNode
| ChooseNode
| DistributeNode
| LoggingEdge
| SystemMessageEdge
| CannoliEdge.

(** [new C(element)]: the constructors belong to modules that are not part
    of the sources at hand; an instance is the class and the data it was
    built from. *)
Record Instance : Type := new {
  classOf : ObjectClass;
  source : CanvasElement
}.

Definition HydratedGraph : Type := list (string * Instance).

(** [graph[k]]. *)
Fixpoint entry (k : string) (g : HydratedGraph) : option Instance :=
  match g with
  | [] => None
  | (k', v) :: rest => if String.eqb k k' then Some v else entry k rest
  end.

(** [graph[k] = v]: overwrites the entry of an existing key, adds a key
    otherwise. *)
Fixpoint assign (k : string) (v : Instance) (g : HydratedGraph)
  : HydratedGraph :=
  match g with
  | [] => [(k, v)]
  | (k', v') :: rest =>
      if String.eqb k k' then (k', v) :: rest
      else (k', v') :: assign k v rest
  end.

(** What one arm of the node [switch] does. *)
Inductive Arm : Type :=
| Construct (c : ObjectClass)
| ConsoleError (message : string)
| ThrowError (message : string).

Definition show (t : option string) : string :=
  match t with
  | Some s => s
  | None => "undefined"
  end.

(** The node [switch], arm by arm in source order. *)
Definition nodeSwitch (t : option string) : Arm :=
  match t with
  | None => ThrowError ("Unknown node type: " ++ show t)
  | Some s =>
      if String.eqb s "for-each" then Construct ForEachGroup
      else if String.eqb s "repeat" then Construct RepeatGroup
      else if String.eqb s "basic" then Construct CannoliGroup
      else if String.eqb s "input" then Construct InputNode
      else if String.eqb s "display" then Construct DisplayNode
      else if String.eqb s "static-reference" then Construct ReferenceNode
      else if String.eqb s "dynamic-reference"
           then ConsoleError "Dynamic references not yet implemented"
      else if String.eqb s "formatter" then Construct FormatterNode
      else if String.eqb s "standard-call" then Construct CallNode
      else if String.eqb s "choose" then Construct ChooseNode
      else if String.eqb s "distribute" then Construct DistributeNode
      else if String.eqb s "categorize"
           then ConsoleError "Categorize node not implemented"
      else if String.eqb s "select"
           then ConsoleError "Select node not implemented"
      else ThrowError ("Unknown node type: " ++ show t)
  end.

(** The edge [switch]. *)
Definition edgeSwitch (t : option string) : ObjectClass :=
  match t with
  | None => CannoliEdge
  | Some s =>
      if String.eqb s "logging" then LoggingEdge
      else if String.eqb s "system-message" then SystemMessageEdge
      else CannoliEdge
  end.

Inductive Hydration : Type :=
| Hydrated (g : HydratedGraph) (console : list string)
| Failed (message : string) (g : HydratedGraph) (console : list string).

Fixpoint hydrateNodes (ns : list CanvasElement) (g : HydratedGraph)
         (console : list string) : Hydration :=
  match ns with
  | [] => Hydrated g console
  | node :: rest =>
      match nodeSwitch (cannoliType node) with
      | Construct c =>
          hydrateNodes rest (assign (element_id node) (new c node) g) console
      | ConsoleError message =>
          hydrateNodes rest g (console ++ [message])
      | ThrowError message => Failed message g console
      end
  end.

Fixpoint hydrateEdges (es : list CanvasElement) (g : HydratedGraph)
  : HydratedGraph :=
  match es with
  | [] => g
  | edge :: rest =>
      hydrateEdges rest
        (assign (element_id edge)
                (new (edgeSwitch (cannoliType edge)) edge) g)
  end.

(** [hydrateGraph()] on the graph [g].  The closing loop calls [setGraph]
    on every object; that method belongs, like the constructors, to the
    object modules the graph module is written against: it hands the
    finished mapping to the object and leaves the mapping as it is. *)
Definition hydrateGraph (data : VerifiedCannoliCanvasData)
           (g : HydratedGraph) : Hydration :=
  match hydrateNodes (nodes data) g [] with
  | Failed message g' console => Failed message g' console
  | Hydrated g' console => Hydrated (hydrateEdges (edges data) g') console
  end.

(** [new CannoliGraph(data)]: [graph = {}], then [hydrateGraph()]. *)
Definition constructor (data : VerifiedCannoliCanvasData) : Hydration :=
  hydrateGraph data [].

(** The type tags the node [switch] has a [case] for. *)
Definition recognizedNodeTypes : list string :=
  [ "for-each"; "repeat"; "basic";
    "input"; "display"; "static-reference"; "dynamic-reference";
    "formatter";
    "standard-call"; "choose"; "distribute"; "categorize"; "select" ].

Definition recognized (t : option string) : bool :=
  match t with
  | Some s => existsb (String.eqb s) recognizedNodeTypes
  | None => false
  end.

(** The recognized types for which no class exists yet. *)
Definition unimplementedNodeTypes : list (string * string) :=
  [ ("dynamic-reference", "Dynamic references not yet implemented");
    ("categorize", "Categorize node not implemented");
    ("select", "Select node not implemented") ].

End Hydration.


(** ** Vocabulary of the specification *)

(** The object stored under [i] exists and has status [s]. *)
Definition hasStatus (g : Graph) (s : CannoliObjectStatus) (i : string)
  : Prop :=
  exists o, lookup i g = Some o /\ status o = s.

(** A term is fully rejected: a single id whose object is Rejected, or an
    alternative set whose every member is Rejected. *)
Definition fullyRejected (g : Graph) (d : Dependency) : Prop :=
  Forall (hasStatus g Rejected) (term_ids d).

(** The id [i] already appears in a dependency term of [ds], as a single
    id or as a member of an alternative set. *)
Definition appearsIn (i : string) (ds : list Dependency) : Prop :=
  exists d, In d ds /\ In i (term_ids d).

(** The term, or an id inside it, already appears in [ds]. *)
Definition alreadyDependedOn (term : Dependency) (ds : list Dependency)
  : Prop :=
  exists i, In i (term_ids term) /\ appearsIn i ds.

(** How many members of an alternative set are Complete in [g]. *)
Definition completeCount (g : Graph) (l : list string) : nat :=
  length
    (filter
       (fun d =>
          match lookup d g with
          | Some o => status_eqb (status o) Complete
          | None => false
          end)
       l).

(** The world an outcome leaves behind, if it leaves one. *)
Definition endsIn {A : Type} (o : Outcome A) (w' : World) : Prop :=
  match o with
  | Returned _ w1 => w1 = w'
  | Thrown _ w1 => w1 = w'
  | Exhausted => False
  end.

(** A stretch of trace in which every status write is immediately followed
    by the emission of that object and that status, and every emission
    immediately follows such a write. *)
Inductive Paired : list Action -> Prop :=
| Paired_nil : Paired []
| Paired_call (m : Method) (o : string) (t : list Action) :
    Paired t -> Paired (Call m o :: t)
| Paired_write_emit (o : string) (s : CannoliObjectStatus) (ctx : Run)
                    (t : list Action) :
    Paired t -> Paired (StatusWrite o s :: EmitUpdate o s ctx :: t).

Definition isCall (a : Action) : bool :=
  match a with
  | Call _ _ => true
  | _ => false
  end.

(** A group (an object whose canvas data has type "group") whose rectangle
    contains the rectangle of [c], edges included. *)
Definition EnclosingGroup (c : Canvas.AllCanvasNodeData) (o : CannoliObject)
  : Prop :=
  exists v,
    vertex o = Some v /\
    Canvas.type (canvasData v) = CanvasGroup /\
    (Canvas.x (canvasData v) <= Canvas.x c)%Z /\
    (Canvas.y (canvasData v) <= Canvas.y c)%Z /\
    (Canvas.x c + Canvas.width c
     <= Canvas.x (canvasData v) + Canvas.width (canvasData v))%Z /\
    (Canvas.y c + Canvas.height c
     <= Canvas.y (canvasData v) + Canvas.height (canvasData v))%Z.

(** Ascending area. *)
Definition smallerFirst (a b : CannoliObject) : Prop :=
  (area a <= area b)%Z.

(** The [groups] field of the object stored under [k]. *)
Definition groupsOf (g : Graph) (k : string) : option (list string) :=
  match lookup k g with
  | Some o => option_map groups (vertex o)
  | None => None
  end.

(** ** Reasoning about outcomes *)

(** [Q] holds of the world an outcome leaves behind. *)
Definition leaves {A : Type} (o : Outcome A) (Q : World -> Prop) : Prop :=
  match o with
  | Returned _ w' => Q w'
  | Thrown _ w' => Q w'
  | Exhausted => True
  end.

(** The object [k] is in the graph of [w]. *)
Definition present (k : string) (w : World) : Prop :=
  lookup k (graph w) <> None.

(** From [w] to [w']: no key was added or removed, and the trace grew by
    paired writes and emissions, with no call of a unit of work. *)
Definition Steps (w w' : World) : Prop :=
  map fst (graph w') = map fst (graph w) /\
  exists t,
    trace w' = trace w ++ t /\
    Paired t /\
    Forall (fun a => isCall a = false) t.

(** From any world that satisfies [P], the computation leaves a world
    related to it by [R]. *)
Definition keeps (P : World -> Prop) (R : World -> World -> Prop)
           {A : Type} (c : M A) : Prop :=
  forall w, P w -> leaves (c w) (R w).

(** From [w] to [w']: no key was added or removed, and the trace grew by
    paired writes and emissions and by calls of units of work. *)
Definition Grows (w w' : World) : Prop :=
  map fst (graph w') = map fst (graph w) /\
  exists t, trace w' = trace w ++ t /\ Paired t.

(** The listener [l] is registered on the object stored under [k]. *)
Definition hears (g : Graph) (k : string) (l : Listener) : Prop :=
  exists o, lookup k g = Some o /\ In l (listeners o).

(** A listener that cannot throw on a Complete notification in [g]: a
    single-id listener, or an alternative-set listener whose members are
    all in the graph with at most one of them Complete. *)
Definition quietOnComplete (g : Graph) (l : Listener) : Prop :=
  match l with
  | OnSingle _ => True
  | OnAlternative _ dependency _ =>
      Forall (fun d => lookup d g <> None) dependency /\
      (completeCount g dependency <= 1)%nat
  end.

(** ** Sample graphs *)

(** An object that is not a vertex, without listeners. *)
Definition plain (i : string) (s : CannoliObjectStatus)
           (ds : list Dependency) : CannoliObject :=
  {| id := i; text := ""; status := s; dependencies := ds;
     isClone := false; listeners := []; vertex := None |}.

Definition worldOf (g : Graph) : World := {| graph := g; trace := [] |}.

(** [c] depends on [a] and on [b]; only [b], the second term, is
    Rejected. *)
Definition laterTermRejected : World :=
  worldOf [ ("a", plain "a" Pending []);
            ("b", plain "b" Rejected []);
            ("c", plain "c" Pending [Single "a"; Single "b"]) ].

(** The chain A -> B -> C with A Rejected, before any listener is set up. *)
Definition chain : World :=
  worldOf [ ("A", plain "A" Rejected []);
            ("B", plain "B" Pending [Single "A"]);
            ("C", plain "C" Pending [Single "B"]) ].

(** [D] depends on exactly one of [A], [B], [C]. *)
Definition choice : World :=
  worldOf [ ("A", plain "A" Pending []);
            ("B", plain "B" Pending []);
            ("C", plain "C" Pending []);
            ("D", plain "D" Pending [AnyOf ["A"; "B"; "C"]]) ].

Definition live : Run := {| isMock := false |}.
Definition mock : Run := {| isMock := true |}.

(** A vertex with the given canvas data and no edges. *)
Definition vertexAt (i : string) (t : CanvasNodeType) (x y width height : Z)
  : CannoliObject :=
  {| id := i; text := ""; status := Pending; dependencies := [];
     isClone := false; listeners := [];
     vertex := Some {| canvasData := Canvas.mk t x y width height;
                       outgoingEdges := []; incomingEdges := [];
                       groups := [] |} |}.

(** A node inside the group G1 (10 by 10, area 100), itself inside the
    group G2 (25 by 20, area 500); the graph enumerates G2 first. *)
Definition nested : World :=
  worldOf [ ("G2", vertexAt "G2" CanvasGroup 0 0 25 20);
            ("G1", vertexAt "G1" CanvasGroup 10 10 10 10);
            ("n", vertexAt "n" CanvasText 12 12 5 5) ].

(** Two groups drawn with the same rectangle. *)
Definition twins : World :=
  worldOf [ ("g1", vertexAt "g1" CanvasGroup 0 0 10 10);
            ("g2", vertexAt "g2" CanvasGroup 0 0 10 10) ].

(** The reading of the self-membership property under which the own id of
    a group is always the first entry of its [groups]. *)
Definition ownIdRecordedFirst : Prop :=
  forall (self : string) (this : CannoliObject) (v : VertexFields)
         (w : World),
    lookup self (graph w) = Some this ->
    vertex this = Some v ->
    Canvas.type (canvasData v) = CanvasGroup ->
    exists w' gs,
      setGroups self w = Returned tt w' /\
      groupsOf (graph w') self = Some gs /\
      In (id this) gs /\
      hd_error gs = Some (id this).

(** The arm of the node [switch] constructs an object. *)
Definition constructs (n : Hydration.CanvasElement) : bool :=
  match Hydration.nodeSwitch (Hydration.cannoliType n) with
  | Hydration.Construct _ => true
  | _ => false
  end.

(** The class the edge [switch] is specified to choose. *)
Definition specifiedEdgeClass (t : option string) : Hydration.ObjectClass :=
  match t with
  | Some "logging" => Hydration.LoggingEdge
  | Some "system-message" => Hydration.SystemMessageEdge
  | _ => Hydration.CannoliEdge
  end.

(** The world a computation leaves when run from [w]. *)
Definition worldAfter {A : Type} (c : M A) (w : World) : World :=
  match c w with
  | Returned _ w' => w'
  | Thrown _ w' => w'
  | Exhausted => w
  end.

(** [chain] with the listeners of B and C set up, and what one
    [tryReject] on B makes of it. *)
Definition chainListening : World :=
  Eval vm_compute in
    worldAfter (setupListeners "B" ;; setupListeners "C") chain.

Definition chainRejected : World :=
  Eval vm_compute in
    worldAfter (tryReject (emit 2) "B" live) chainListening.

(** [choice] with the listeners of D set up. *)
Definition choiceListening : World :=
  Eval vm_compute in worldAfter (setupListeners "D") choice.

(** [c] depends on [a] and on one of [b]; both are Complete. *)
Definition allComplete : World :=
  worldOf [ ("a", plain "a" Complete []);
            ("b", plain "b" Complete []);
            ("c", plain "c" Pending [Single "a"; AnyOf ["b"]]) ].

(** A canvas with an input node, a select node, a logging edge and a chat
    edge. *)
Definition sampleCanvas : Hydration.VerifiedCannoliCanvasData :=
  {| Hydration.nodes :=
       [ Hydration.mkElement "n1" (Some "input");
         Hydration.mkElement "n2" (Some "select") ];
     Hydration.edges :=
       [ Hydration.mkElement "e1" (Some "logging");
         Hydration.mkElement "e2" (Some "chat") ] |}.


(* ===================================================================== *)
(** * Part I, continued. The rest of the object, vertex and graph code     *)
(* ===================================================================== *)

(** ** Constructors *)

(** [new CannoliObject(id, text, graph, isClone, vault)]: the object starts
    Pending, without dependencies and, as every fresh [EventEmitter],
    without listeners.  [graph] and [vault] are references to the shared
    store and to the host; the constructor does not store the object in the
    graph. *)
Definition newCannoliObject (id_ text_ : string) (isClone_ : bool)
  : CannoliObject :=
  {| id := id_; text := text_; status := Pending; dependencies := [];
     isClone := isClone_; listeners := []; vertex := None |}.

(** [new CannoliVertex(id, text, graph, isClone, vault, canvasData)]. *)
Definition newCannoliVertex (id_ text_ : string) (isClone_ : bool)
           (canvasData_ : Canvas.AllCanvasNodeData) : CannoliObject :=
  {| id := id_; text := text_; status := Pending; dependencies := [];
     isClone := isClone_; listeners := [];
     vertex := Some {| canvasData := canvasData_;
                       outgoingEdges := []; incomingEdges := [];
                       groups := [] |} |}.

(** ** [CannoliVertex]: edge references *)








(** ** [ensureStringLength] *)

(** [str.substring(0, end)] for an integer [end]: a negative [end] counts
    as 0, an [end] past the string as its length.  A string is its sequence
    of code units. *)
Definition substring0 (str : string) (end_ : Z) : string :=
  String.substring 0 (Z.to_nat end_) str.

Definition ensureStringLength (str : string) (maxLength : Z) : string :=
  if (Z.of_nat (String.length str) >? maxLength)%Z
  then (substring0 str (maxLength - 3) ++ "...")%string
  else str.

(** ** Vocabulary of the further properties *)

(** A point of the plane strictly inside a rectangle. *)
Definition strictlyInside (r : Rect.Rectangle) (px py : Q) : Prop :=
  inside (Rect.x r) (Rect.x_right r) px /\
  inside (Rect.y r) (Rect.y_bottom r) py.

(** What an object is apart from its [groups] field. *)
Definition sameButGroups (o o' : CannoliObject) : Prop :=
  id o' = id o /\ text o' = text o /\ status o' = status o /\
  dependencies o' = dependencies o /\ isClone o' = isClone o /\
  listeners o' = listeners o /\
  option_map canvasData (vertex o') = option_map canvasData (vertex o) /\
  option_map outgoingEdges (vertex o')
    = option_map outgoingEdges (vertex o) /\
  option_map incomingEdges (vertex o')
    = option_map incomingEdges (vertex o).

(** Every id the dependency terms of an object refer to, in the order in
    which the loops over [dependencies] meet them. *)
Definition referencedIds (this : CannoliObject) : list string :=
  flat_map term_ids (dependencies this).

(** [graph[i]] exists and its status is [s]. *)
Definition hasStatusb (g : Graph) (s : CannoliObjectStatus) (i : string)
  : bool :=
  match lookup i g with
  | Some o => status_eqb (status o) s
  | None => false
  end.

(** Two terms have no id in common. *)
Definition sharesNoId (t1 t2 : Dependency) : Prop :=
  forall i, In i (term_ids t1) -> ~ In i (term_ids t2).

(** The "update" listeners of the object stored under [k]. *)
Definition listenersOf (g : Graph) (k : string) : list Listener :=
  match lookup k g with
  | Some o => listeners o
  | None => []
  end.

(** The closures [setupListeners] of [self] registers on the object [k],
    in the order of registration: one per occurrence of [k] in the
    dependency terms. *)
Definition listenersFor (self : string) (ds : list Dependency) (k : string)
  : list Listener :=
  flat_map
    (fun d =>
       match d with
       | Single i => if String.eqb i k then [OnSingle self] else []
       | AnyOf l =>
           flat_map
             (fun element =>
                if String.eqb element k
                then [OnAlternative self l element] else [])
             l
       end)
    ds.

(** How many terms at the head of [ds] are fully rejected in [g]. *)
Fixpoint leadingRejected (g : Graph) (ds : list Dependency) : nat :=
  match ds with
  | [] => 0
  | d :: rest =>
      if forallb (hasStatusb g Rejected) (term_ids d)
      then S (leadingRejected g rest)
      else 0
  end.

(** The write of Rejected and its event, [k] times over. *)
Definition rejections (self : string) (ctx : Run) (k : nat) : list Action :=
  concat (repeat [StatusWrite self Rejected; EmitUpdate self Rejected ctx] k).

(** What an object is apart from its listeners. *)
Definition sameButListeners (o o' : CannoliObject) : Prop :=
  id o' = id o /\ text o' = text o /\ status o' = status o /\
  dependencies o' = dependencies o /\ isClone o' = isClone o /\
  vertex o' = vertex o.

(** From [w] to [w'] nothing happened but the registration of the
    listeners [added k] on each object [k], after those it had. *)
Definition ListenersAdded (added : string -> list Listener) (w w' : World)
  : Prop :=
  trace w' = trace w /\
  map fst (graph w') = map fst (graph w) /\
  (forall k,
     listenersOf (graph w') k = listenersOf (graph w) k ++ added k) /\
  (forall k o,
     lookup k (graph w) = Some o ->
     exists o', lookup k (graph w') = Some o' /\ sameButListeners o o').

(** A chain in the graph: the first object of [os] depends solely on
    [prev], each further one solely on the one before it, and each is
    listened to by its successor only. *)
Fixpoint isChain (g : Graph) (prev : string) (os : list string) : Prop :=
  match os with
  | [] => True
  | o :: rest =>
      (exists obj,
         lookup o g = Some obj /\
         dependencies obj = [Single prev] /\
         listeners obj = match rest with
                         | [] => []
                         | next :: _ => [OnSingle next]
                         end) /\
      isChain g o rest
  end.

(** The graph with every object of [os] Rejected. *)
Definition rejectAll (os : list string) (g : Graph) : Graph :=
  fold_left (fun g' o => update o (with_status Rejected) g') os g.

(** ** The type tags the graph module declares *)

(** [enum GroupType], [enum CallNodeType], [enum ContentNodeType] and
    [enum FloatingNodeType]: the values a node's [cannoliData.type] is
    declared to range over ([NodeType | GroupType]). *)
Definition GroupType_values : list string :=
  [ "for-each"; "repeat"; "basic"; "while"; "non-logic" ].

Definition CallNodeType_values : list string :=
  [ "standard-call"; "select"; "categorize"; "choose"; "distribute" ].

Definition ContentNodeType_values : list string :=
  [ "input"; "display"; "static-reference"; "dynamic-reference";
    "formatter" ].

Definition FloatingNodeType_values : list string := [ "variable" ].

Definition declaredNodeTypes : list string :=
  GroupType_values ++ CallNodeType_values ++ ContentNodeType_values ++
  FloatingNodeType_values.

(** The message a node leaves on the console, if any. *)
Definition consoleOf (n : Hydration.CanvasElement) : list string :=
  match Hydration.nodeSwitch (Hydration.cannoliType n) with
  | Hydration.ConsoleError message => [message]
  | _ => []
  end.

(** The object the node [switch] builds for [n], if it builds one. *)
Definition builtFrom (n : Hydration.CanvasElement)
  : option Hydration.Instance :=
  match Hydration.nodeSwitch (Hydration.cannoliType n) with
  | Hydration.Construct c => Some (Hydration.new c n)
  | _ => None
  end.

(** A cycle of two: [a] depends solely on [b] and listens to it, and the
    other way round. *)
Definition dependsAndListens (g : Graph) (a b : string) : Prop :=
  exists o,
    lookup a g = Some o /\
    dependencies o = [Single b] /\
    listeners o = [OnSingle b].

Definition inCycle (g : Graph) (a b : string) : Prop :=
  dependsAndListens g a b /\ dependsAndListens g b a.

(** ** The plugin: names shown for a canvas file *)

(** [s.endsWith(suffix)]. *)
Definition endsWith (s suffix : string) : bool :=
  (String.length suffix <=? String.length s)%nat &&
  String.eqb
    (String.substring (String.length s - String.length suffix)
                      (String.length suffix) s)
    suffix.

(** [s.slice(0, -4)]: all but the last four code units, the empty string
    when there are no more than four. *)
Definition sliceOffFour (s : string) : string :=
  String.substring 0 (String.length s - 4) s.

(** The name [startCannoli] puts into its notices, from [file.basename]. *)
Definition noticeName (basename : string) : string :=
  if endsWith basename ".cno" then sliceOffFour basename else basename.

(** The [name] of the command [createCannoliCommands] adds for a file,
    from [file.basename]. *)
Definition commandName (basename : string) : string :=
  ("Run " ++ sliceOffFour basename)%string.

(** ** More sample graphs *)

(** A freshly constructed object, alone in its graph. *)
Definition lonely : World :=
  worldOf [ ("x", newCannoliObject "x" "hello" false) ].


(** Four fresh objects. *)
Definition fresh4 : World :=
  worldOf [ ("A", newCannoliObject "A" "" false);
            ("B", newCannoliObject "B" "" false);
            ("C", newCannoliObject "C" "" false);
            ("D", newCannoliObject "D" "" false) ].

(** [c] depends on [a] and on [b], both Rejected. *)
Definition bothRejected : World :=
  worldOf [ ("a", plain "a" Rejected []);
            ("b", plain "b" Rejected []);
            ("c", plain "c" Pending [Single "a"; Single "b"]) ].

(** [p] and [q] depend on and listen to each other; [q] is Rejected. *)
Definition cycle : World :=
  worldOf [ ("p", with_listeners [OnSingle "q"]
                    (plain "p" Pending [Single "q"]));
            ("q", with_listeners [OnSingle "p"]
                    (plain "q" Rejected [Single "p"])) ].

(** A canvas whose second node is a while group. *)
Definition whileCanvas : Hydration.VerifiedCannoliCanvasData :=
  {| Hydration.nodes :=
       [ Hydration.mkElement "n1" (Some "input");
         Hydration.mkElement "n2" (Some "while");
         Hydration.mkElement "n3" (Some "display") ];
     Hydration.edges :=
       [ Hydration.mkElement "e1" (Some "chat") ] |}.
(* ===================================================================== *)
(** * Part II. Properties                                                 *)
(* ===================================================================== *)

Create HintDb cannoli.
Create HintDb emitter.

(** ** Rectangles *)

Section Rectangles.

Local Open Scope Z_scope.

Lemma encloses_true_iff (a b : Rect.Rectangle) :
  encloses a b = true <->
  Rect.x a <= Rect.x b /\ Rect.y a <= Rect.y b /\
  Rect.x_right b <= Rect.x_right a /\ Rect.y_bottom b <= Rect.y_bottom a.
Proof.
  unfold encloses.
  rewrite !andb_true_iff, !Z.leb_le, !Z.geb_le.
  tauto.
Qed.

Lemma encloses_refl (a : Rect.Rectangle) : encloses a a = true.
Proof. apply encloses_true_iff. lia. Qed.

Lemma encloses_trans (a b c : Rect.Rectangle) :
  encloses a b = true -> encloses b c = true -> encloses a c = true.
Proof. rewrite !encloses_true_iff. lia. Qed.

Lemma spec_intersect_sym (a b : Rect.Rectangle) :
  spec_intersect a b <-> spec_intersect b a.
Proof. unfold spec_intersect, extents_overlap. tauto. Qed.

Lemma overlaps_true_iff (a b : Rect.Rectangle) :
  overlaps a b = true <->
  spec_intersect a b /\ encloses a b = false /\ encloses b a = false.
Proof.
  unfold overlaps, spec_intersect, extents_overlap.
  cbv zeta.
  rewrite !andb_true_iff, !negb_true_iff, !Z.ltb_lt, !Z.gtb_lt.
  tauto.
Qed.

(** Extents that are not empty overlap exactly when some point lies
    strictly inside both. *)
Lemma extents_overlap_common_point (lo1 hi1 lo2 hi2 : Z) :
  lo1 < hi1 -> lo2 < hi2 ->
  (extents_overlap lo1 hi1 lo2 hi2 <->
   exists p : Q, inside lo1 hi1 p /\ inside lo2 hi2 p).
Proof.
  intros H1 H2. unfold extents_overlap, inside. split.
  - intros [Ha Hb].
    exists (Qmake (Z.max lo1 lo2 + Z.min hi1 hi2) 2).
    unfold Qlt, inject_Z; simpl. lia.
  - intros [p [[Ha Hb] [Hc Hd]]]. split.
    + rewrite Zlt_Qlt. eapply Qlt_trans; eauto.
    + rewrite Zlt_Qlt. eapply Qlt_trans; eauto.
Qed.

(** C8. [overlaps(a, b)] is true exactly when the horizontal extents and
    the vertical extents of [a] and [b] both overlap and neither rectangle
    encloses the other, and [overlaps] gives the same answer when its
    arguments are exchanged. *)
Theorem overlaps_iff_intersect_without_enclosure (a b : Rect.Rectangle) :
  (overlaps a b = true <->
   spec_intersect a b /\ encloses a b = false /\ encloses b a = false) /\
  overlaps a b = overlaps b a.
Proof.
  split.
  - apply overlaps_true_iff.
  - apply eq_true_iff_eq.
    rewrite !overlaps_true_iff, (spec_intersect_sym a b).
    tauto.
Qed.

End Rectangles.

(** ** The object store *)

Section Store.

Lemma lookup_update_same (k : string) (f : CannoliObject -> CannoliObject)
      (g : Graph) :
  lookup k (update k f g) = option_map f (lookup k g).
Proof.
  induction g as [|[k' o] g IH]; simpl; [reflexivity|].
  destruct (String.eqb k k') eqn:E; simpl; rewrite E; auto.
Qed.

Lemma lookup_update_other (k k' : string)
      (f : CannoliObject -> CannoliObject) (g : Graph) :
  k <> k' -> lookup k' (update k f g) = lookup k' g.
Proof.
  intros Hne.
  induction g as [|[k0 o] g IH]; simpl; [reflexivity|].
  destruct (String.eqb k k0) eqn:E; simpl.
  - apply String.eqb_eq in E; subst k0.
    destruct (String.eqb k' k) eqn:E'; [|reflexivity].
    apply String.eqb_eq in E'; congruence.
  - destruct (String.eqb k' k0); auto.
Qed.

Lemma update_keys (k : string) (f : CannoliObject -> CannoliObject)
      (g : Graph) :
  map fst (update k f g) = map fst g.
Proof.
  induction g as [|[k' o] g IH]; simpl; [reflexivity|].
  destruct (String.eqb k k'); simpl; congruence.
Qed.

Lemma update_update (k : string) (f h : CannoliObject -> CannoliObject)
      (g : Graph) :
  update k f (update k h g) = update k (fun o => f (h o)) g.
Proof.
  induction g as [|[k' o] g IH]; simpl; [reflexivity|].
  destruct (String.eqb k k') eqn:E; simpl; rewrite E; congruence.
Qed.

Lemma lookup_keys (k : string) (g g' : Graph) :
  map fst g' = map fst g -> lookup k g <> None -> lookup k g' <> None.
Proof.
  revert g'.
  induction g as [|[k0 o] g IH]; intros [|[k1 o1] g'] Hk; simpl in *;
    try discriminate; auto.
  injection Hk as -> Hk.
  destruct (String.eqb k k0); [discriminate|]. auto.
Qed.

Lemma lookup_In (k : string) (o : CannoliObject) (g : Graph) :
  lookup k g = Some o -> In (k, o) g.
Proof.
  induction g as [|[k' o'] g IH]; simpl; [discriminate|].
  destruct (String.eqb k k') eqn:E.
  - apply String.eqb_eq in E. intros [= ->]. left. congruence.
  - auto.
Qed.

End Store.

(** ** Polling and declaring dependencies *)

Section Dependencies.

Lemma status_eqb_eq (a b : CannoliObjectStatus) :
  status_eqb a b = true <-> a = b.
Proof. destruct a, b; simpl; split; congruence. Qed.

Lemma status_eqb_refl (a : CannoliObjectStatus) : status_eqb a a = true.
Proof. now apply status_eqb_eq. Qed.

Lemma statusIs_unfold (s : CannoliObjectStatus) (k : string) (w : World) :
  statusIs s k w =
  match lookup k (graph w) with
  | Some o => Returned (status_eqb (status o) s) w
  | None => Thrown TypeError w
  end.
Proof.
  unfold statusIs, bind, getObject, ret.
  destruct (lookup k (graph w)); reflexivity.
Qed.

Lemma statusIsNot_unfold (s : CannoliObjectStatus) (k : string) (w : World) :
  statusIsNot s k w =
  match lookup k (graph w) with
  | Some o => Returned (negb (status_eqb (status o) s)) w
  | None => Thrown TypeError w
  end.
Proof.
  unfold statusIsNot, bind, getObject, ret.
  destruct (lookup k (graph w)); reflexivity.
Qed.

(** [statusIsNot] answers [false] exactly on an object that has the
    status. *)
Lemma statusIsNot_false_iff (s : CannoliObjectStatus) (k : string)
      (w : World) :
  statusIsNot s k w = Returned false w <-> hasStatus (graph w) s k.
Proof.
  rewrite statusIsNot_unfold. unfold hasStatus.
  destruct (lookup k (graph w)) as [o|]; split.
  - intros [= H]. apply negb_false_iff, status_eqb_eq in H. eauto.
  - intros [o' [[= <-] H]]. subst s. now rewrite status_eqb_refl.
  - discriminate.
  - intros [o' [H _]]. discriminate.
Qed.

Lemma some_cons {A : Type} (cb : A -> M bool) (a : A) (rest : list A)
      (w : World) :
  some cb (a :: rest) w =
  match cb a w with
  | Returned true w' => Returned true w'
  | Returned false w' => some cb rest w'
  | Thrown e w' => Thrown e w'
  | Exhausted => Exhausted
  end.
Proof.
  simpl. unfold bind. destruct (cb a w) as [[|] w'| |]; reflexivity.
Qed.

(** The inner [some] of the poll either answers without touching the
    world or throws on a missing object. *)
Lemma some_statusIsNot_cases (s : CannoliObjectStatus) (l : list string)
      (w : World) :
  (some (statusIsNot s) l w = Returned false w /\
   Forall (hasStatus (graph w) s) l) \/
  ((some (statusIsNot s) l w = Returned true w \/
    some (statusIsNot s) l w = Thrown TypeError w) /\
   ~ Forall (hasStatus (graph w) s) l).
Proof.
  induction l as [|k l IH].
  - left. split; [reflexivity | constructor].
  - rewrite some_cons, statusIsNot_unfold.
    destruct (lookup k (graph w)) as [o|] eqn:Hk.
    + destruct (status_eqb (status o) s) eqn:Hs; simpl.
      * assert (Hh : hasStatus (graph w) s k)
          by (exists o; split; [assumption | now apply status_eqb_eq]).
        destruct IH as [[-> HF] | [Hc HF]].
        -- left. split; [reflexivity | now constructor].
        -- right. split; [exact Hc|]. intros HF'. inversion HF'; auto.
      * right. split; [now left|].
        intros HF'. inversion HF' as [|? ? [o' [Ho' Hst]] _]; subst.
        rewrite Hk in Ho'. injection Ho' as <-.
        rewrite status_eqb_refl in Hs. discriminate.
    + right. split; [now right|].
      intros HF'. inversion HF' as [|? ? [o' [Ho' _]] _]; subst.
      congruence.
Qed.

Lemma allDependenciesComplete_loop_true_iff (ds : list Dependency)
      (w : World) :
  allDependenciesComplete_loop ds w = Returned true w <->
  Forall (fun d => Forall (hasStatus (graph w) Complete) (term_ids d)) ds.
Proof.
  induction ds as [|d ds IH].
  - simpl. split; [constructor | reflexivity].
  - destruct d as [k | l]; simpl.
    + unfold bind at 1. rewrite statusIsNot_unfold.
      destruct (lookup k (graph w)) as [o|] eqn:Hk.
      * destruct (status_eqb (status o) Complete) eqn:Hs; simpl.
        -- rewrite IH. split.
           ++ intros HF. constructor; [|exact HF].
              constructor; [|constructor].
              exists o. split; [assumption | now apply status_eqb_eq].
           ++ intros HF. now inversion HF.
        -- split; [discriminate|].
           intros HF. inversion HF as [|? ? Hd _]; subst.
           inversion Hd as [|? ? [o' [Ho' Hst]] _]; subst.
           rewrite Hk in Ho'. injection Ho' as <-.
           rewrite Hst in Hs. discriminate.
      * split; [discriminate|].
        intros HF. inversion HF as [|? ? Hd _]; subst.
        inversion Hd as [|? ? [o' [Ho' _]] _]; subst. congruence.
    + unfold bind at 1.
      destruct (some_statusIsNot_cases Complete l w)
        as [[-> HF] | [[-> | ->] HF]].
      * rewrite IH. split.
        -- intros H. now constructor.
        -- intros H. now inversion H.
      * split; [discriminate|]. intros H. inversion H; subst. contradiction.
      * split; [discriminate|]. intros H. inversion H; subst. contradiction.
Qed.

(** C2. [allDependenciesComplete()] returns [true] if and only if every id
    that any dependency term refers to (each member of an alternative set,
    not just one of them) is the id of an object whose status is Complete. *)
Theorem allDependenciesComplete_iff_every_member_complete
        (self : string) (this : CannoliObject) (w : World) :
  lookup self (graph w) = Some this ->
  (allDependenciesComplete self w = Returned true w <->
   forall d, In d (dependencies this) ->
   forall i, In i (term_ids d) -> hasStatus (graph w) Complete i).
Proof.
  intros Hself.
  unfold allDependenciesComplete, bind, getObject. rewrite Hself.
  rewrite allDependenciesComplete_loop_true_iff.
  rewrite Forall_forall.
  split.
  - intros H d Hd i Hi. specialize (H d Hd).
    rewrite Forall_forall in H. auto.
  - intros H d Hd. rewrite Forall_forall. exact (H d Hd).
Qed.

End Dependencies.

Section AddDependency.

Lemma existsb_eqb_In (i : string) (l : list string) :
  existsb (String.eqb i) l = true <-> In i l.
Proof.
  rewrite existsb_exists. split.
  - intros [j [Hj E]]. apply String.eqb_eq in E. now subst.
  - intros H. exists i. split; [assumption | apply String.eqb_refl].
Qed.

Lemma isDependency_true_iff (this : CannoliObject) (term : Dependency) :
  isDependency this term = true <->
  alreadyDependedOn term (dependencies this).
Proof.
  unfold isDependency, alreadyDependedOn, appearsIn.
  rewrite existsb_exists. split.
  - intros [pd [Hpd H]]. exists pd. split; [assumption|].
    apply existsb_exists in H as [d [Hd H]]. exists d. split; [assumption|].
    destruct d as [k | l]; simpl.
    + apply String.eqb_eq in H. now left.
    + now apply existsb_eqb_In.
  - intros [i [Hi [d [Hd H]]]]. exists i. split; [assumption|].
    apply existsb_exists. exists d. split; [assumption|].
    destruct d as [k | l]; simpl in *.
    + destruct H as [-> | []]. apply String.eqb_refl.
    + now apply existsb_eqb_In.
Qed.

Lemma addDependency_unfold (self : string) (term : Dependency) (w : World) :
  addDependency self term w =
  match lookup self (graph w) with
  | None => Thrown TypeError w
  | Some this =>
      if isDependency this term
      then Thrown (DuplicateAlternativeError self) w
      else Returned tt
             {| graph :=
                  update self
                    (fun o =>
                       with_dependencies (dependencies o ++ [term]) o)
                    (graph w);
                trace := trace w |}
  end.
Proof.
  unfold addDependency, bind, getObject.
  destruct (lookup self (graph w)) as [this|]; [|reflexivity].
  destruct (isDependency this term); reflexivity.
Qed.

(** C4. [addDependency(term)] throws the duplicate-alternative error if and
    only if the term, or an id inside it when it is an alternative set,
    already appears in a dependency term added before, as a single id or
    as a member of an alternative set, and then changes nothing; otherwise
    it returns, and the dependency sequence of the object is the old one
    with the term, as given, at its end.  In particular, after a call with
    an alternative set has returned, a call with an alternative set that
    shares a member with it throws. *)
Theorem addDependency_throws_iff_already_depended_on
        (self : string) (this : CannoliObject) (term : Dependency)
        (w : World) :
  lookup self (graph w) = Some this ->
  (addDependency self term w = Thrown (DuplicateAlternativeError self) w <->
   alreadyDependedOn term (dependencies this)) /\
  (~ alreadyDependedOn term (dependencies this) ->
   exists w',
     addDependency self term w = Returned tt w' /\
     lookup self (graph w') =
       Some (with_dependencies (dependencies this ++ [term]) this) /\
     (forall k, k <> self -> lookup k (graph w') = lookup k (graph w)) /\
     trace w' = trace w) /\
  (forall l1 l2 i w1,
     In i l1 -> In i l2 ->
     addDependency self (AnyOf l1) w = Returned tt w1 ->
     addDependency self (AnyOf l2) w1 =
       Thrown (DuplicateAlternativeError self) w1).
Proof.
  intros Hself.
  rewrite addDependency_unfold, Hself.
  rewrite <- isDependency_true_iff.
  split; [|split].
  - destruct (isDependency this term); split; congruence.
  - intros Hn. destruct (isDependency this term) eqn:E; [contradiction|].
    eexists. split; [reflexivity|]. simpl. split; [|split].
    + now rewrite lookup_update_same, Hself.
    + intros k Hk. apply lookup_update_other. congruence.
    + reflexivity.
  - intros l1 l2 i w1 Hi1 Hi2.
    rewrite addDependency_unfold, Hself.
    destruct (isDependency this (AnyOf l1)); [discriminate|].
    intros [= <-].
    rewrite addDependency_unfold. simpl.
    rewrite lookup_update_same, Hself. simpl.
    replace (isDependency _ (AnyOf l2)) with true; [reflexivity|].
    symmetry. apply isDependency_true_iff.
    exists i. split; [exact Hi2|].
    exists (AnyOf l1). split; [|exact Hi1].
    simpl. apply in_or_app. right. now left.
Qed.

End AddDependency.

(** ** Invariants of computations *)

Section Keeps.

Variable P : World -> Prop.
Variable R : World -> World -> Prop.
Hypothesis R_refl : forall w, R w w.
Hypothesis R_trans : forall w1 w2 w3, R w1 w2 -> R w2 w3 -> R w1 w3.
Hypothesis P_stable : forall w w', P w -> R w w' -> P w'.

Lemma keeps_ret {A : Type} (a : A) : keeps P R (ret a).
Proof. intros w _. apply R_refl. Qed.

Lemma keeps_throw {A : Type} (e : Error) : keeps P R (@throw A e).
Proof. intros w _. apply R_refl. Qed.

Lemma keeps_bind {A B : Type} (c : M A) (k : A -> M B) :
  keeps P R c -> (forall a, keeps P R (k a)) -> keeps P R (bind c k).
Proof.
  intros Hc Hk w Hw. unfold bind.
  specialize (Hc w Hw).
  destruct (c w) as [a w1 | e w1 |]; simpl in *; auto.
  specialize (Hk a w1 (P_stable _ _ Hw Hc)).
  destruct (k a w1) as [b w2 | e w2 |]; simpl in *; eauto.
Qed.

Lemma keeps_getObject (k : string) : keeps P R (getObject k).
Proof.
  intros w _. unfold getObject.
  destruct (lookup k (graph w)); simpl; apply R_refl.
Qed.

Lemma keeps_statusIs (s : CannoliObjectStatus) (k : string) :
  keeps P R (statusIs s k).
Proof.
  apply keeps_bind; [apply keeps_getObject | intros; apply keeps_ret].
Qed.

Lemma keeps_forEach {A : Type} (body : A -> M unit) (l : list A) :
  (forall a, keeps P R (body a)) -> keeps P R (forEach body l).
Proof.
  intros Hb. induction l as [|a l IH]; simpl.
  - apply keeps_ret.
  - apply keeps_bind; auto.
Qed.

Lemma keeps_every {A : Type} (cb : A -> M bool) (l : list A) :
  (forall a, keeps P R (cb a)) -> keeps P R (every cb l).
Proof.
  intros Hb. induction l as [|a l IH]; simpl.
  - apply keeps_ret.
  - apply keeps_bind; auto. intros [|]; auto. apply keeps_ret.
Qed.

Lemma keeps_filterM {A : Type} (cb : A -> M bool) (l : list A) :
  (forall a, keeps P R (cb a)) -> keeps P R (filterM cb l).
Proof.
  intros Hb. induction l as [|a l IH]; simpl.
  - apply keeps_ret.
  - apply keeps_bind; auto. intros b.
    apply keeps_bind; auto. intros kept. apply keeps_ret.
Qed.

End Keeps.

Lemma keeps_ext (P : World -> Prop) (R : World -> World -> Prop)
      {A : Type} (c c' : M A) :
  (forall w, c w = c' w) -> keeps P R c -> keeps P R c'.
Proof. intros E H w Hw. rewrite <- E. now apply H. Qed.

Lemma keeps_weaken (P P' : World -> Prop) (R : World -> World -> Prop)
      {A : Type} (c : M A) :
  (forall w, P' w -> P w) -> keeps P R c -> keeps P' R c.
Proof. intros HP H w Hw. apply H. auto. Qed.

Lemma leaves_weaken {A : Type} (o : Outcome A) (Q Q' : World -> Prop) :
  (forall w, Q w -> Q' w) -> leaves o Q -> leaves o Q'.
Proof. intros H. destruct o; simpl; auto. Qed.

Lemma bind_assoc {A B C : Type} (c : M A) (k1 : A -> M B) (k2 : B -> M C)
      (w : World) :
  bind (bind c k1) k2 w = bind c (fun a => bind (k1 a) k2) w.
Proof.
  unfold bind. destruct (c w) as [a w1 | |]; reflexivity.
Qed.

(** ** Statuses and events *)

Section Traces.

Lemma Paired_app (t1 t2 : list Action) :
  Paired t1 -> Paired t2 -> Paired (t1 ++ t2).
Proof.
  intros H1 H2. induction H1; simpl; auto using Paired.
Qed.

Lemma Steps_refl (w : World) : Steps w w.
Proof.
  split; [reflexivity|]. exists []. rewrite app_nil_r.
  repeat split; constructor.
Qed.

Lemma Steps_trans (w1 w2 w3 : World) :
  Steps w1 w2 -> Steps w2 w3 -> Steps w1 w3.
Proof.
  intros [K1 [t1 [E1 [P1 C1]]]] [K2 [t2 [E2 [P2 C2]]]].
  split; [congruence|].
  exists (t1 ++ t2). rewrite E2, E1, app_assoc.
  repeat split; [now apply Paired_app | now apply Forall_app].
Qed.

Lemma present_stable (k : string) (w w' : World) :
  present k w -> Steps w w' -> present k w'.
Proof.
  unfold present. intros Hk [K _]. eapply lookup_keys; eauto.
Qed.

Lemma setStatus_unfold (self : string) (s : CannoliObjectStatus)
      (w : World) :
  setStatus self s w =
  Returned tt {| graph := update self (with_status s) (graph w);
                 trace := trace w ++ [StatusWrite self s] |}.
Proof. reflexivity. Qed.

Lemma emit_S_unfold (n : nat) (self : string) (s : CannoliObjectStatus)
      (ctx : Run) (w : World) :
  emit (S n) self s ctx w =
  match lookup self (graph w) with
  | None => Thrown TypeError w
  | Some this =>
      forEach (fun l => listener (emit n) l self s ctx) (listeners this)
              {| graph := graph w;
                 trace := trace w ++ [EmitUpdate self s ctx] |}
  end.
Proof.
  simpl. unfold bind, getObject.
  destruct (lookup self (graph w)); reflexivity.
Qed.

#[local] Hint Resolve Steps_refl Steps_trans present_stable : cannoli.

(** What the methods keep invariant when the [emit] they call is one
    that, right after the write of Rejected, is already known to keep it.
    The methods reach [emit] through [tryReject] only, hence with Rejected
    only. *)
Section Emitter.

Variable R : World -> World -> Prop.
Hypothesis R_refl : forall w, R w w.
Hypothesis R_trans : forall w1 w2 w3, R w1 w2 -> R w2 w3 -> R w1 w3.
Hypothesis R_present :
  forall k w w', present k w -> R w w' -> present k w'.

Variable emit_ : string -> CannoliObjectStatus -> Run -> M unit.

Hypothesis announce_rejected :
  forall self ctx,
    keeps (present self) R
          (setStatus self Rejected ;; emit_ self Rejected ctx).

#[local] Hint Resolve R_refl R_trans R_present : emitter.

Lemma reject_and_emit_keeps (self : string) (ctx : Run) :
  keeps (present self) R
        (setStatus self Rejected ;; emit_ self Rejected ctx ;; ret true).
Proof.
  eapply keeps_ext.
  - intros w. apply bind_assoc.
  - eapply keeps_bind; eauto with emitter.
    intros _. apply keeps_ret. eauto with emitter.
Qed.

Lemma tryReject_callback_keeps (self : string) (ctx : Run)
      (dependency : Dependency) :
  keeps (present self) R (tryReject_callback emit_ self ctx dependency).
Proof.
  pose proof (reject_and_emit_keeps self ctx) as Hr.
  destruct dependency as [d | l]; simpl.
  - eapply keeps_bind; eauto with emitter.
    + apply keeps_statusIs; eauto with emitter.
    + intros [|]; [exact Hr | apply keeps_ret; eauto with emitter].
  - eapply keeps_bind; eauto with emitter.
    + apply keeps_every; eauto with emitter.
      intros a. apply keeps_statusIs; eauto with emitter.
    + intros [|]; [exact Hr | apply keeps_ret; eauto with emitter].
Qed.

Lemma tryReject_unfold (self : string) (ctx : Run) (w : World) :
  tryReject emit_ self ctx w =
  match lookup self (graph w) with
  | None => Thrown TypeError w
  | Some this =>
      (_ <- every (tryReject_callback emit_ self ctx) (dependencies this) ;;
       ret false) w
  end.
Proof.
  unfold tryReject. unfold bind at 1. unfold getObject.
  destruct (lookup self (graph w)); reflexivity.
Qed.

Lemma tryReject_keeps (self : string) (ctx : Run) :
  keeps (fun _ => True) R (tryReject emit_ self ctx).
Proof.
  intros w _. rewrite tryReject_unfold.
  destruct (lookup self (graph w)) as [this|] eqn:Hself;
    [|apply R_refl].
  assert (Hp : present self w) by (unfold present; congruence).
  revert w Hp Hself. intros w Hp _. revert w Hp.
  change (keeps (present self) R
            (_ <- every (tryReject_callback emit_ self ctx)
                        (dependencies this) ;; ret false)).
  eapply keeps_bind; eauto with emitter.
  - apply keeps_every; eauto with emitter.
    apply tryReject_callback_keeps.
  - intros _. apply keeps_ret. eauto with emitter.
Qed.

Lemma dependencyUpdated_keeps (self dependency : string)
      (s : CannoliObjectStatus) (ctx : Run) :
  keeps (fun _ => True) R (dependencyUpdated emit_ self dependency s ctx).
Proof.
  destruct s; simpl; try (apply keeps_ret; eauto with emitter).
  unfold dependencyRejected.
  eapply keeps_bind; eauto with emitter.
  - apply tryReject_keeps.
  - intros _. apply keeps_ret. eauto with emitter.
Qed.

Lemma listener_keeps (l : Listener) (obj : string)
      (s : CannoliObjectStatus) (ctx : Run) :
  keeps (fun _ => True) R (listener emit_ l obj s ctx).
Proof.
  destruct l as [this | this dependency element]; simpl.
  - apply dependencyUpdated_keeps.
  - eapply keeps_bind; eauto with emitter.
    + destruct (status_eqb s Complete); [|apply keeps_ret; eauto with emitter].
      eapply keeps_bind; eauto with emitter.
      * apply keeps_filterM; eauto with emitter.
        intros a. apply keeps_statusIs; eauto with emitter.
      * intros kept. destruct (1 <? length kept)%nat.
        -- apply keeps_throw. eauto with emitter.
        -- apply keeps_ret. eauto with emitter.
    + intros _. apply dependencyUpdated_keeps.
Qed.

End Emitter.

(** Every emission that follows the write of its status keeps the trace
    paired, whatever the listeners do in between. *)
Lemma announce_keeps (n : nat) :
  forall self s ctx,
    keeps (present self) Steps (setStatus self s ;; emit n self s ctx).
Proof.
  induction n as [|n IH]; intros self s ctx w Hp.
  - exact I.
  - unfold bind. rewrite setStatus_unfold, emit_S_unfold. simpl.
    rewrite lookup_update_same.
    destruct (lookup self (graph w)) as [this|] eqn:Hself;
      [|contradiction Hp]. simpl.
    eapply leaves_weaken;
      [|apply (keeps_forEach (fun _ => True) Steps); eauto with cannoli].
    + intros w' [K [t [E [Pt Ct]]]]. simpl in *. split.
      * rewrite K. apply update_keys.
      * exists (StatusWrite self s :: EmitUpdate self s ctx :: t).
        rewrite E, <- !app_assoc. simpl.
        repeat split; [now constructor | repeat constructor; assumption].
    + intros l.
      apply (listener_keeps Steps Steps_refl Steps_trans present_stable).
      intros self' ctx'. apply IH.
Qed.

End Traces.

(** ** Rejection *)

Section Rejection.

Variable emit_ : string -> CannoliObjectStatus -> Run -> M unit.

Lemma every_cons {A : Type} (cb : A -> M bool) (a : A) (rest : list A)
      (w : World) :
  every cb (a :: rest) w =
  match cb a w with
  | Returned true w' => every cb rest w'
  | Returned false w' => Returned false w'
  | Thrown e w' => Thrown e w'
  | Exhausted => Exhausted
  end.
Proof.
  simpl. unfold bind. destruct (cb a w) as [[|] w'| |]; reflexivity.
Qed.

(** With every member in the graph, the inner [every] answers whether all
    of them are Rejected and leaves the world alone. *)
Lemma every_statusIs_present (s : CannoliObjectStatus) (l : list string)
      (w : World) :
  Forall (fun d => present d w) l ->
  exists b,
    every (statusIs s) l w = Returned b w /\
    (b = true <-> Forall (hasStatus (graph w) s) l).
Proof.
  induction l as [|k l IH]; intros HF.
  - exists true. repeat split; auto.
  - inversion HF as [|? ? Hk HF']; subst.
    rewrite every_cons, statusIs_unfold.
    unfold present in Hk.
    destruct (lookup k (graph w)) as [o|] eqn:Ho; [|congruence].
    destruct (status_eqb (status o) s) eqn:Hs.
    + destruct (IH HF') as [b [E Hb]]. exists b. split; [exact E|].
      rewrite Hb. split.
      * intros H. constructor; [|exact H].
        exists o. split; [exact Ho | now apply status_eqb_eq].
      * intros H. now inversion H.
    + exists false. split; [reflexivity|]. split; [discriminate|].
      intros H. inversion H as [|? ? [o' [Ho' Hst]] _]; subst.
      rewrite Ho in Ho'. injection Ho' as <-.
      rewrite status_eqb_refl in Hs. discriminate.
Qed.

(** The callback answers [false] without doing anything on a term that is
    not fully rejected. *)
Lemma tryReject_callback_live_term (self : string) (ctx : Run)
      (d : Dependency) (w : World) :
  Forall (fun i => present i w) (term_ids d) ->
  ~ fullyRejected (graph w) d ->
  tryReject_callback emit_ self ctx d w = Returned false w.
Proof.
  intros Hp Hn. unfold fullyRejected in Hn.
  destruct d as [k | l]; simpl in *.
  - destruct (every_statusIs_present Rejected [k] w Hp) as [b [E Hb]].
    rewrite every_cons in E. unfold bind.
    destruct (statusIs Rejected k w) as [[|] w1 | |] eqn:Ek;
      try discriminate.
    + simpl in E. injection E as <- <-. destruct Hn. now apply Hb.
    + injection E as <- <-. reflexivity.
  - destruct (every_statusIs_present Rejected l w Hp) as [b [E Hb]].
    unfold bind. rewrite E.
    destruct b; [|reflexivity]. destruct Hn. now apply Hb.
Qed.

(** [every] stops at the first term that is not fully rejected: when that
    is the first term, [tryReject] does nothing at all, whatever the
    status of the terms that follow. *)
Lemma tryReject_stops_at_live_first_term (self : string)
      (this : CannoliObject) (ctx : Run) (d : Dependency)
      (rest : list Dependency) (w : World) :
  lookup self (graph w) = Some this ->
  dependencies this = d :: rest ->
  Forall (fun i => present i w) (term_ids d) ->
  ~ fullyRejected (graph w) d ->
  tryReject emit_ self ctx w = Returned false w.
Proof.
  intros Hself Hd Hp Hn.
  rewrite tryReject_unfold, Hself, Hd.
  unfold bind. rewrite every_cons.
  now rewrite (tryReject_callback_live_term self ctx d w Hp Hn).
Qed.

End Rejection.

(** *** What [tryReject] does achieve *)







(** On a fully rejected term the callback rejects. *)
Lemma tryReject_callback_rejected_term
      (emit_ : string -> CannoliObjectStatus -> Run -> M unit)
      (self : string) (ctx : Run) (d : Dependency) (w : World) :
  fullyRejected (graph w) d ->
  tryReject_callback emit_ self ctx d w =
  (setStatus self Rejected ;; emit_ self Rejected ctx ;; ret true) w.
Proof.
  intros Hd. unfold fullyRejected in Hd.
  assert (Hp : Forall (fun i => present i w) (term_ids d)).
  { eapply Forall_impl; [|exact Hd].
    intros i [o [Ho _]]. unfold present. congruence. }
  destruct (every_statusIs_present Rejected (term_ids d) w Hp)
    as [b [E Hb]].
  assert (b = true) as -> by now apply Hb.
  destruct d as [k | l]; unfold tryReject_callback.
  - change (term_ids (Single k)) with [k] in E.
    rewrite every_cons in E. unfold bind at 1.
    destruct (statusIs Rejected k w) as [[|] w1 | |] eqn:Ek;
      try discriminate.
    simpl in E. injection E as <-. reflexivity.
  - change (term_ids (AnyOf l)) with l in E.
    unfold bind at 1. now rewrite E.
Qed.


(** C1, on the input where it fails.  The object [c] depends on [a] and
    on [b]; its second term, [b], is fully rejected, its first term is
    not.  [tryReject] returns with the status of [c] still Pending and with
    no event emitted: the world is the one it started from. *)
Theorem tryReject_ignores_rejected_later_term (fuel : nat) (ctx : Run) :
  In (Single "b") [Single "a"; Single "b"] /\
  fullyRejected (graph laterTermRejected) (Single "b") /\
  lookup "c" (graph laterTermRejected)
    = Some (plain "c" Pending [Single "a"; Single "b"]) /\
  tryReject (emit fuel) "c" ctx laterTermRejected
    = Returned false laterTermRejected.
Proof.
  split; [right; left; reflexivity|].
  split.
  - constructor; [|constructor].
    exists (plain "b" Rejected []). split; reflexivity.
  - split; reflexivity.
Qed.

(** On a chain, where every object has one dependency term, rejection does
    travel: with A Rejected and the listeners of B and C set up, one
    [tryReject] on B rejects B and then C, each write followed by its
    event, and nothing is executed. *)
Example rejection_travels_along_a_chain :
  exists w1 w2 w3,
    setupListeners "B" chain = Returned tt w1 /\
    setupListeners "C" w1 = Returned tt w2 /\
    tryReject (emit 2) "B" live w2 = Returned false w3 /\
    option_map status (lookup "B" (graph w3)) = Some Rejected /\
    option_map status (lookup "C" (graph w3)) = Some Rejected /\
    trace w3 = [ StatusWrite "B" Rejected; EmitUpdate "B" Rejected live;
                 StatusWrite "C" Rejected; EmitUpdate "C" Rejected live ].
Proof.
  do 3 eexists. repeat split; vm_compute; reflexivity.
Qed.

(** ** Listeners *)

Section Listeners.

Lemma on_unfold (k : string) (l : Listener) (w : World) :
  on k l w =
  match lookup k (graph w) with
  | None => Thrown TypeError w
  | Some _ =>
      Returned tt
        {| graph := update k (fun o => with_listeners (listeners o ++ [l]) o)
                      (graph w);
           trace := trace w |}
  end.
Proof.
  unfold on, bind, getObject. destruct (lookup k (graph w)); reflexivity.
Qed.

Lemma on_hears (k : string) (l : Listener) (w w' : World) :
  on k l w = Returned tt w' -> hears (graph w') k l.
Proof.
  rewrite on_unfold.
  destruct (lookup k (graph w)) as [o|] eqn:Ho; [|discriminate].
  intros [= <-]. simpl. exists (with_listeners (listeners o ++ [l]) o).
  split.
  - now rewrite lookup_update_same, Ho.
  - simpl. apply in_or_app. right. now left.
Qed.

Lemma on_keeps_hearing (k k' : string) (l l' : Listener) (w w' : World) :
  on k l w = Returned tt w' ->
  hears (graph w) k' l' -> hears (graph w') k' l'.
Proof.
  rewrite on_unfold.
  destruct (lookup k (graph w)) as [o|] eqn:Ho; [|discriminate].
  intros [= <-] [o' [Ho' Hl']]. simpl.
  destruct (String.eqb k k') eqn:E.
  - apply String.eqb_eq in E. subst k'.
    rewrite Ho in Ho'. injection Ho' as <-.
    exists (with_listeners (listeners o ++ [l]) o). split.
    + now rewrite lookup_update_same, Ho.
    + simpl. apply in_or_app. now left.
  - apply String.eqb_neq in E. exists o'. split; [|exact Hl'].
    now rewrite lookup_update_other.
Qed.

Lemma forEach_cons_Returned {A : Type} (body : A -> M unit) (a : A)
      (rest : list A) (w w' : World) :
  forEach body (a :: rest) w = Returned tt w' ->
  exists w1, body a w = Returned tt w1 /\ forEach body rest w1 = Returned tt w'.
Proof.
  simpl. unfold bind.
  destruct (body a w) as [[] w1 | |]; try discriminate. eauto.
Qed.

(** The inner loop of [setupListeners] over (a suffix of) an alternative
    set [l0]. *)
Lemma subscribe_members (self : string) (l0 l : list string) (w w' : World) :
  forEach (fun element => on element (OnAlternative self l0 element)) l w
    = Returned tt w' ->
  (forall element, In element l ->
     hears (graph w') element (OnAlternative self l0 element)) /\
  (forall k' l', hears (graph w) k' l' -> hears (graph w') k' l').
Proof.
  revert w. induction l as [|a l IH]; intros w H.
  - injection H as <-. split; [intros ? []|auto].
  - apply forEach_cons_Returned in H as [w1 [Ha Hrest]].
    destruct (IH _ Hrest) as [IH1 IH2]. split.
    + intros element [<- | Hin]; auto.
      apply IH2. eapply on_hears; eauto.
    + intros k' l' Hh. apply IH2. eapply on_keeps_hearing; eauto.
Qed.

(** The outer loop of [setupListeners]. *)
Lemma subscribe_terms (self : string) (ds : list Dependency) (w w' : World) :
  forEach
    (fun dependency =>
       match dependency with
       | AnyOf l =>
           forEach (fun element => on element (OnAlternative self l element)) l
       | Single d => on d (OnSingle self)
       end) ds w = Returned tt w' ->
  (forall l element, In (AnyOf l) ds -> In element l ->
     hears (graph w') element (OnAlternative self l element)) /\
  (forall d, In (Single d) ds -> hears (graph w') d (OnSingle self)) /\
  (forall k' l', hears (graph w) k' l' -> hears (graph w') k' l').
Proof.
  revert w. induction ds as [|d ds IH]; intros w H.
  - injection H as <-. repeat split; auto; intros; contradiction.
  - apply forEach_cons_Returned in H as [w1 [Hd Hrest]].
    destruct (IH _ Hrest) as [IH1 [IH2 IH3]].
    destruct d as [k | l0].
    + repeat split.
      * intros l element [Hin | Hin] He; [discriminate | auto].
      * intros d' [[= <-] | Hin]; auto. apply IH3. eapply on_hears; eauto.
      * intros k' l' Hh. apply IH3. eapply on_keeps_hearing; eauto.
    + apply subscribe_members in Hd as [Hm1 Hm2]. repeat split.
      * intros l element [[= <-] | Hin] He; auto.
      * intros d' [Hin | Hin]; [discriminate | auto].
      * intros k' l' Hh. auto.
Qed.

Lemma filterM_cons {A : Type} (cb : A -> M bool) (a : A) (rest : list A)
      (w : World) :
  filterM cb (a :: rest) w =
  match cb a w with
  | Returned b w1 =>
      match filterM cb rest w1 with
      | Returned kept w2 => Returned (if b then a :: kept else kept) w2
      | Thrown e w2 => Thrown e w2
      | Exhausted => Exhausted
      end
  | Thrown e w1 => Thrown e w1
  | Exhausted => Exhausted
  end.
Proof.
  simpl. unfold bind. destruct (cb a w) as [b w1 | |]; reflexivity.
Qed.

(** With every member in the graph, the [filter] of the conflict check
    returns the members that are Complete. *)
Lemma filterM_statusIs_present (s : CannoliObjectStatus) (l : list string)
      (w : World) :
  Forall (fun d => lookup d (graph w) <> None) l ->
  filterM (statusIs s) l w =
  Returned
    (filter
       (fun d =>
          match lookup d (graph w) with
          | Some o => status_eqb (status o) s
          | None => false
          end) l) w.
Proof.
  induction l as [|k l IH]; intros HF; [reflexivity|].
  inversion HF as [|? ? Hk HF']; subst.
  rewrite filterM_cons, statusIs_unfold. simpl.
  destruct (lookup k (graph w)) as [o|]; [|congruence].
  rewrite (IH HF'). reflexivity.
Qed.

(** The closure registered for a member of an alternative set. *)
Lemma alternative_listener_cases
      (emit_ : string -> CannoliObjectStatus -> Run -> M unit)
      (self : string) (l : list string) (element obj : string)
      (s : CannoliObjectStatus) (ctx : Run) (w : World) :
  Forall (fun d => lookup d (graph w) <> None) l ->
  listener emit_ (OnAlternative self l element) obj s ctx w =
  if status_eqb s Complete && (1 <? completeCount (graph w) l)%nat
  then Thrown (ConflictingAlternativesError self) w
  else dependencyUpdated emit_ self element s ctx w.
Proof.
  intros HF. unfold listener. unfold bind at 1.
  destruct (status_eqb s Complete); simpl; [|reflexivity].
  unfold bind. rewrite (filterM_statusIs_present Complete l w HF).
  fold (completeCount (graph w) l).
  destruct (1 <? completeCount (graph w) l)%nat; reflexivity.
Qed.

(** C3. After [setupListeners()] has returned, each member of each
    alternative set of the object carries the listener closed over that
    set.  Called with a Complete notification while more than one member
    of the set is Complete, that listener throws the conflicting
    alternatives error and leaves the world as it found it, so nothing
    further happens on the object; called with any other notification, or
    while at most one member is Complete, it throws nothing of its own and
    is the call of [dependencyUpdated] with the notification's status, which
    for a Complete notification returns.  Members are counted the way the
    [filter] of the listener counts them, entry by entry of the array. *)
Theorem conflicting_alternatives_detected
        (self : string) (this : CannoliObject) (l : list string)
        (element : string) (w w1 : World) :
  lookup self (graph w) = Some this ->
  In (AnyOf l) (dependencies this) ->
  In element l ->
  setupListeners self w = Returned tt w1 ->
  hears (graph w1) element (OnAlternative self l element) /\
  forall emit_ s ctx w2,
    Forall (fun d => lookup d (graph w2) <> None) l ->
    (s = Complete -> (1 < completeCount (graph w2) l)%nat ->
     listener emit_ (OnAlternative self l element) element s ctx w2
       = Thrown (ConflictingAlternativesError self) w2) /\
    (s <> Complete \/ (completeCount (graph w2) l <= 1)%nat ->
     listener emit_ (OnAlternative self l element) element s ctx w2
       = dependencyUpdated emit_ self element s ctx w2) /\
    (s = Complete -> (completeCount (graph w2) l <= 1)%nat ->
     listener emit_ (OnAlternative self l element) element s ctx w2
       = Returned tt w2).
Proof.
  intros Hself Hterm Helem Hsetup. split.
  - unfold setupListeners in Hsetup. unfold bind at 1 in Hsetup.
    unfold getObject in Hsetup. rewrite Hself in Hsetup.
    apply subscribe_terms in Hsetup as [H _]. now apply H.
  - intros emit_ s ctx w2 HF.
    rewrite (alternative_listener_cases emit_ self l element element s ctx
               w2 HF).
    repeat split.
    + intros -> Hc. apply Nat.ltb_lt in Hc. now rewrite Hc.
    + intros [Hs | Hc].
      * destruct s; try reflexivity. congruence.
      * apply Nat.ltb_ge in Hc. rewrite Hc, andb_false_r. reflexivity.
    + intros -> Hc. apply Nat.ltb_ge in Hc. rewrite Hc. reflexivity.
Qed.

(** Members A and B of the set of D complete one after the other: the
    first completion passes, the second one throws out of [execute], with
    D still Pending. *)
Example second_alternative_completing_throws :
  exists w1 w2 w3,
    setupListeners "D" choice = Returned tt w1 /\
    execute 1 "A" live w1 = Returned tt w2 /\
    execute 1 "B" live w2 = Thrown (ConflictingAlternativesError "D") w3 /\
    option_map status (lookup "D" (graph w3)) = Some Pending.
Proof.
  do 3 eexists. repeat split; vm_compute; reflexivity.
Qed.

End Listeners.

(** ** [execute] and [reset] *)

Section Execution.

Lemma forEach_idle {A : Type} (body : A -> M unit) (l : list A) (w : World) :
  (forall a, In a l -> body a w = Returned tt w) ->
  forEach body l w = Returned tt w.
Proof.
  induction l as [|a l IH]; intros H; [reflexivity|].
  simpl. unfold bind. rewrite (H a (or_introl eq_refl)).
  apply IH. intros b Hb. apply H. now right.
Qed.

(** A listener ignores a notification that is neither Complete nor
    Rejected. *)
Lemma listener_idle
      (emit_ : string -> CannoliObjectStatus -> Run -> M unit)
      (l : Listener) (obj : string) (s : CannoliObjectStatus) (ctx : Run)
      (w : World) :
  s = Pending \/ s = Executing ->
  listener emit_ l obj s ctx w = Returned tt w.
Proof.
  intros [-> | ->]; destruct l; reflexivity.
Qed.

Lemma emit_idle (n : nat) (self : string) (this : CannoliObject)
      (s : CannoliObjectStatus) (ctx : Run) (w : World) :
  s = Pending \/ s = Executing ->
  lookup self (graph w) = Some this ->
  emit (S n) self s ctx w =
  Returned tt {| graph := graph w;
                 trace := trace w ++ [EmitUpdate self s ctx] |}.
Proof.
  intros Hs Hself. rewrite emit_S_unfold, Hself.
  apply forEach_idle. intros l _. now apply listener_idle.
Qed.

Lemma update_ext (k : string) (f h : CannoliObject -> CannoliObject)
      (g : Graph) :
  (forall o, f o = h o) -> update k f g = update k h g.
Proof.
  intros E. induction g as [|[k' o] g IH]; simpl; [reflexivity|].
  destruct (String.eqb k k'); congruence.
Qed.

(** A listener called with a Complete notification either returns or
    throws; it changes nothing. *)
Lemma listener_on_complete
      (emit_ : string -> CannoliObjectStatus -> Run -> M unit)
      (l : Listener) (obj : string) (ctx : Run) (w : World) :
  endsIn (listener emit_ l obj Complete ctx w) w /\
  (quietOnComplete (graph w) l ->
   listener emit_ l obj Complete ctx w = Returned tt w).
Proof.
  destruct l as [this | this dependency element]; simpl.
  - split; reflexivity.
  - unfold bind.
    assert (Hf : forall l,
               filterM (statusIs Complete) l w =
               Thrown TypeError w \/
               (Forall (fun d => lookup d (graph w) <> None) l /\
                filterM (statusIs Complete) l w =
                Returned
                  (filter
                     (fun d =>
                        match lookup d (graph w) with
                        | Some o => status_eqb (status o) Complete
                        | None => false
                        end) l) w)).
    { induction l as [|k l IH]; [right; split; [constructor|reflexivity]|].
      rewrite filterM_cons, statusIs_unfold.
      destruct (lookup k (graph w)) as [o|] eqn:Ho; [|now left].
      destruct IH as [-> | [HF ->]]; [now left|].
      right. split; [constructor; [congruence|exact HF]|].
      simpl. rewrite Ho. reflexivity. }
    destruct (Hf dependency) as [Ht | [HF ->]].
    + rewrite Ht. split; [reflexivity|]. intros [HF _].
      rewrite (filterM_statusIs_present Complete dependency w HF) in Ht.
      discriminate.
    + fold (completeCount (graph w) dependency).
      destruct (1 <? completeCount (graph w) dependency)%nat eqn:Hc;
        simpl; split; try reflexivity.
      intros [_ Hle]. apply Nat.ltb_lt in Hc. lia.
Qed.

Lemma notify_complete
      (emit_ : string -> CannoliObjectStatus -> Run -> M unit)
      (ls : list Listener) (obj : string) (ctx : Run) (w : World) :
  endsIn (forEach (fun l => listener emit_ l obj Complete ctx) ls w) w /\
  (Forall (quietOnComplete (graph w)) ls ->
   forEach (fun l => listener emit_ l obj Complete ctx) ls w
     = Returned tt w).
Proof.
  induction ls as [|l ls [IH1 IH2]]; [split; reflexivity|].
  destruct (listener_on_complete emit_ l obj ctx w) as [H1 H2].
  simpl. unfold bind. split.
  - destruct (listener emit_ l obj Complete ctx w) as [[] w1 | e w1 |];
      simpl in *; subst; auto.
  - intros HF. inversion HF; subst. rewrite H2; auto.
Qed.

(** C5. [execute(run)] on an object of the graph does exactly this, in
    this order: it writes status Executing, emits the update event with
    status Executing, calls [mockRun()] when [run.isMock] is true and
    [run()] otherwise, writes status Complete and emits the update event
    with status Complete.  The world it ends in is the one it started from
    with the status of the object Complete and these five actions added to
    the trace, so under a mock run [run()] is not called; it ends by
    returning when no listener of the object detects conflicting
    alternatives. *)
Theorem execute_performs_exact_sequence
        (fuel : nat) (self : string) (this : CannoliObject) (ctx : Run)
        (w : World) :
  lookup self (graph w) = Some this ->
  let unitOfWork := if isMock ctx then MockRunMethod else RunMethod in
  let done :=
    {| graph := update self (with_status Complete) (graph w);
       trace := trace w ++
                [ StatusWrite self Executing;
                  EmitUpdate self Executing ctx;
                  Call unitOfWork self;
                  StatusWrite self Complete;
                  EmitUpdate self Complete ctx ] |} in
  endsIn (execute (S fuel) self ctx w) done /\
  (Forall (quietOnComplete (graph done)) (listeners this) ->
   execute (S fuel) self ctx w = Returned tt done).
Proof.
  intros Hself unitOfWork done.
  assert (E : execute (S fuel) self ctx w =
              forEach (fun l => listener (emit fuel) l self Complete ctx)
                      (listeners this) done).
  { unfold execute, bind, getObject. rewrite Hself.
    rewrite setStatus_unfold.
    erewrite emit_idle;
      [|now right|simpl; rewrite lookup_update_same, Hself; reflexivity].
    assert (Hu : (if isMock ctx then mockRun self else run self)
                   {| graph := update self (with_status Executing) (graph w);
                      trace := (trace w ++ [StatusWrite self Executing]) ++
                               [EmitUpdate self Executing ctx] |}
                 = Returned tt
                     {| graph := update self (with_status Executing) (graph w);
                        trace := ((trace w ++ [StatusWrite self Executing]) ++
                                  [EmitUpdate self Executing ctx]) ++
                                 [Call unitOfWork self] |}).
    { unfold unitOfWork. destruct (isMock ctx); reflexivity. }
    simpl. simpl in Hu. rewrite Hu.
    unfold bind, getObject, record. simpl.
    rewrite lookup_update_same, lookup_update_same, Hself. simpl.
    unfold done. rewrite update_update.
    rewrite (update_ext self _ (with_status Complete)) by reflexivity.
    rewrite <- !app_assoc. reflexivity. }
  rewrite E. apply notify_complete.
Qed.

End Execution.

(** ** Every status write is paired with its event *)

Section Pairing.

Lemma Steps_Grows (w w' : World) : Steps w w' -> Grows w w'.
Proof. intros [K [t [E [Pt _]]]]. split; eauto. Qed.

Lemma Grows_refl (w : World) : Grows w w.
Proof. apply Steps_Grows, Steps_refl. Qed.

Lemma Grows_trans (w1 w2 w3 : World) :
  Grows w1 w2 -> Grows w2 w3 -> Grows w1 w3.
Proof.
  intros [K1 [t1 [E1 P1]]] [K2 [t2 [E2 P2]]].
  split; [congruence|].
  exists (t1 ++ t2). rewrite E2, E1, app_assoc.
  split; [reflexivity | now apply Paired_app].
Qed.

Lemma present_Grows (k : string) (w w' : World) :
  present k w -> Grows w w' -> present k w'.
Proof.
  unfold present. intros Hk [K _]. eapply lookup_keys; eauto.
Qed.

#[local] Hint Resolve Grows_refl Grows_trans present_Grows : cannoli.

Lemma keeps_mono (P : World -> Prop) (R R' : World -> World -> Prop)
      {A : Type} (c : M A) :
  (forall w w', R w w' -> R' w w') -> keeps P R c -> keeps P R' c.
Proof.
  intros HR H w Hw. eapply leaves_weaken; [|apply H; exact Hw].
  intros w'. apply HR.
Qed.

Lemma leaves_endsIn {A : Type} (o : Outcome A) (Q : World -> Prop)
      (w' : World) :
  leaves o Q -> endsIn o w' -> Q w'.
Proof. destruct o; simpl; intros H E; subst; auto. contradiction. Qed.

Lemma announce_grows (n : nat) (self : string) (s : CannoliObjectStatus)
      (ctx : Run) :
  keeps (present self) Grows (setStatus self s ;; emit n self s ctx).
Proof.
  eapply keeps_mono; [apply Steps_Grows | apply announce_keeps].
Qed.

Lemma unit_of_work_grows (P : World -> Prop) (self : string) (ctx : Run) :
  keeps P Grows (if isMock ctx then mockRun self else run self).
Proof.
  intros w _. destruct (isMock ctx); simpl; (split; [reflexivity|]);
    eexists; (split; [reflexivity | repeat constructor]).
Qed.

(** Entering a method on [self]: either [self] is not in the graph and the
    call throws at once, or the body runs with [self] present. *)
Lemma method_entry {A : Type} (R : World -> World -> Prop) (self : string)
      (body : M A) :
  (forall w, R w w) ->
  keeps (present self) R body ->
  keeps (fun _ => True) R (_ <- getObject self ;; body).
Proof.
  intros Hrefl Hb w _. unfold bind, getObject.
  destruct (lookup self (graph w)) as [this|] eqn:Hself; simpl; auto.
  apply Hb. unfold present. congruence.
Qed.

Lemma execute_grows (fuel : nat) (self : string) (ctx : Run) :
  keeps (fun _ => True) Grows (execute fuel self ctx).
Proof.
  unfold execute. apply method_entry; [apply Grows_refl|].
  eapply keeps_ext; [intros w; apply bind_assoc|].
  eapply keeps_bind; eauto with cannoli.
  - apply announce_grows.
  - intros _. eapply keeps_bind; eauto with cannoli.
    + apply unit_of_work_grows.
    + intros _. apply announce_grows.
Qed.

Lemma reset_grows (fuel : nat) (self : string) (ctx : Run) :
  keeps (fun _ => True) Grows (reset fuel self ctx).
Proof.
  unfold reset. apply method_entry; [apply Grows_refl|].
  apply announce_grows.
Qed.

Lemma tryReject_grows (fuel : nat) (self : string) (ctx : Run) :
  keeps (fun _ => True) Grows (tryReject (emit fuel) self ctx).
Proof.
  eapply keeps_mono; [apply Steps_Grows|].
  apply (tryReject_keeps Steps Steps_refl Steps_trans present_stable).
  intros self' ctx'. apply announce_keeps.
Qed.

(** C7. Whatever [execute], [tryReject] or [reset] wrote and emitted by
    the time it returns or throws, in the trace every status write is
    immediately followed by the emission of the update event of the same
    object with the status just written, and every emission immediately
    follows the write of the status it carries. *)
Theorem status_writes_paired_with_events
        (fuel : nat) (self : string) (ctx : Run) (w w' : World) :
  endsIn (execute fuel self ctx w) w' \/
  endsIn (tryReject (emit fuel) self ctx w) w' \/
  endsIn (reset fuel self ctx w) w' ->
  exists t, trace w' = trace w ++ t /\ Paired t.
Proof.
  intros H.
  assert (G : Grows w w').
  { destruct H as [H | [H | H]];
      (eapply leaves_endsIn; [|exact H]).
    - now apply execute_grows.
    - now apply tryReject_grows.
    - now apply reset_grows. }
  exact (proj2 G).
Qed.

End Pairing.

(** ** Group assignment *)

Section Groups.

Local Open Scope Z_scope.

Lemma insertSorted_perm {A : Type} (compareFn : A -> A -> Z) (a : A)
      (l : list A) :
  Permutation (insertSorted compareFn a l) (a :: l).
Proof.
  induction l as [|b l IH]; simpl; [reflexivity|].
  destruct (compareFn a b <=? 0); [reflexivity|].
  rewrite IH. apply perm_swap.
Qed.

Lemma sort_perm {A : Type} (compareFn : A -> A -> Z) (l : list A) :
  Permutation (sort compareFn l) l.
Proof.
  induction l as [|a l IH]; simpl; [reflexivity|].
  rewrite insertSorted_perm. now constructor.
Qed.

Lemma insertSorted_byArea_sorted (a : CannoliObject)
      (l : list CannoliObject) :
  StronglySorted smallerFirst l ->
  StronglySorted smallerFirst (insertSorted byArea a l).
Proof.
  induction l as [|b l IH]; intros Hs; simpl.
  - repeat constructor.
  - inversion Hs as [|? ? Hl Hb]; subst.
    unfold byArea at 1.
    destruct (area a - area b <=? 0) eqn:E.
    + apply Z.leb_le in E. constructor; [exact Hs|].
      constructor; [unfold smallerFirst; lia|].
      eapply Forall_impl; [|exact Hb].
      unfold smallerFirst. intros c Hc. lia.
    + apply Z.leb_gt in E. constructor; [now apply IH|].
      rewrite (insertSorted_perm byArea a l).
      constructor; [unfold smallerFirst; lia | exact Hb].
Qed.

Lemma sort_byArea_sorted (l : list CannoliObject) :
  StronglySorted smallerFirst (sort byArea l).
Proof.
  induction l as [|a l IH]; simpl; [constructor|].
  now apply insertSorted_byArea_sorted.
Qed.

(** The sort is stable: the first entry of the result is the first entry
    of the input that has the least area. *)
Lemma sort_byArea_head (l : list CannoliObject) (x : CannoliObject) :
  In x l ->
  (forall y, In y l -> area x <= area y) ->
  hd_error (sort byArea l) = find (fun o => area o =? area x) l.
Proof.
  induction l as [|a l IH]; intros Hin Hmin; [contradiction|].
  simpl. destruct (area a =? area x) eqn:E.
  - apply Z.eqb_eq in E.
    destruct (sort byArea l) as [|b rest] eqn:Hs; [reflexivity|].
    simpl. unfold byArea at 1.
    assert (Hb : In b l).
    { apply (Permutation_in b (sort_perm byArea l)). rewrite Hs. now left. }
    specialize (Hmin b (or_intror Hb)).
    destruct (area a - area b <=? 0) eqn:E'; [reflexivity|].
    apply Z.leb_gt in E'. lia.
  - apply Z.eqb_neq in E.
    assert (Hx : In x l) by (destruct Hin as [-> | H]; [congruence | exact H]).
    assert (IH' := IH Hx (fun y Hy => Hmin y (or_intror Hy))).
    destruct (find (fun o => area o =? area x) l) as [b|] eqn:Hf.
    + apply find_some in Hf as [Hb Eb]. apply Z.eqb_eq in Eb.
      destruct (sort byArea l) as [|c rest]; [discriminate|].
      injection IH' as ->. simpl. unfold byArea at 1.
      specialize (Hmin a (or_introl eq_refl)).
      destruct (area a - area b <=? 0) eqn:E'; [|reflexivity].
      apply Z.leb_le in E'. lia.
    + exfalso. apply (find_none _ _ Hf) in Hx.
      rewrite Z.eqb_refl in Hx. discriminate.
Qed.

Lemma isEnclosingGroup_iff (c : Canvas.AllCanvasNodeData)
      (o : CannoliObject) :
  isEnclosingGroup (rectangleOf c) o = true <-> EnclosingGroup c o.
Proof.
  unfold isEnclosingGroup, EnclosingGroup.
  destruct (vertex o) as [v|]; split.
  - destruct (Canvas.type (canvasData v)) eqn:T; try discriminate.
    intros H. apply encloses_true_iff in H. simpl in H.
    exists v. repeat split; try assumption; lia.
  - intros [v' [[= <-] [T H]]]. rewrite T.
    apply encloses_true_iff. simpl. lia.
  - discriminate.
  - intros [v' [H _]]. discriminate.
Qed.

Lemma setGroups_unfold (self : string) (w : World) :
  setGroups self w =
  match lookup self (graph w) with
  | None => Thrown TypeError w
  | Some this =>
      match vertex this with
      | None => Thrown TypeError w
      | Some v =>
          Returned tt
            {| graph :=
                 update self
                   (with_groups
                      (map id
                         (sort byArea
                            (filter
                               (isEnclosingGroup
                                  (rectangleOf (canvasData v)))
                               (map snd (graph w))))))
                   (graph w);
               trace := trace w |}
      end
  end.
Proof.
  unfold setGroups, bind, getObject.
  destruct (lookup self (graph w)) as [this|]; [|reflexivity].
  destruct (vertex this); reflexivity.
Qed.

Lemma groupsOf_update (self : string) (this : CannoliObject)
      (v : VertexFields) (gs : list string) (g : Graph) :
  lookup self g = Some this ->
  vertex this = Some v ->
  groupsOf (update self (with_groups gs) g) self = Some gs.
Proof.
  intros Hself Hv. unfold groupsOf.
  rewrite lookup_update_same, Hself. simpl. now rewrite Hv.
Qed.

(** C6. [setGroups()] on a vertex returns, and the [groups] field it
    leaves is the list of ids of a list of objects that holds exactly the
    groups of the graph whose rectangle encloses the rectangle of the
    vertex, edges included, each as often as the graph holds it, in order
    of ascending area.  In particular, when the enclosing groups are G1 and
    G2 and the area of G1 is less than the area of G2 (100 and 500, say), the
    field is [G1, G2]. *)
Theorem setGroups_records_enclosing_groups_by_area
        (self : string) (this : CannoliObject) (v : VertexFields)
        (w : World) :
  lookup self (graph w) = Some this ->
  vertex this = Some v ->
  exists w' sorted,
    setGroups self w = Returned tt w' /\
    groupsOf (graph w') self = Some (map id sorted) /\
    (forall o, In o sorted <->
               In o (map snd (graph w)) /\ EnclosingGroup (canvasData v) o) /\
    Permutation sorted
      (filter (isEnclosingGroup (rectangleOf (canvasData v)))
              (map snd (graph w))) /\
    StronglySorted smallerFirst sorted /\
    (forall G1 G2,
       Permutation [G1; G2]
         (filter (isEnclosingGroup (rectangleOf (canvasData v)))
                 (map snd (graph w))) ->
       area G1 < area G2 ->
       map id sorted = [id G1; id G2]).
Proof.
  intros Hself Hv.
  rewrite setGroups_unfold, Hself, Hv.
  set (matches := filter (isEnclosingGroup (rectangleOf (canvasData v)))
                         (map snd (graph w))).
  eexists. exists (sort byArea matches).
  split; [reflexivity|]. simpl.
  split; [eapply groupsOf_update; eauto|].
  pose proof (sort_perm byArea matches) as Hp.
  pose proof (sort_byArea_sorted matches) as Hs.
  split; [|split; [exact Hp|split; [exact Hs|]]].
  - intros o. split.
    + intros Ho. apply (Permutation_in o Hp) in Ho.
      apply filter_In in Ho as [Ho Ht].
      split; [exact Ho | now apply isEnclosingGroup_iff].
    + intros [Ho Ht]. apply (Permutation_in o (Permutation_sym Hp)).
      apply filter_In. split; [exact Ho | now apply isEnclosingGroup_iff].
  - intros G1 G2 Hm Hlt.
    assert (Hp2 : Permutation [G1; G2] (sort byArea matches)).
    { rewrite Hm. now apply Permutation_sym. }
    apply Permutation_length_2_inv in Hp2 as [E | E]; rewrite E in *.
    + reflexivity.
    + exfalso. inversion Hs as [|? ? _ HF]; subst.
      inversion HF as [|? ? Hle _]; subst.
      unfold smallerFirst in Hle. lia.
Qed.

(** The layout of the specification: a node inside G1 (area 100) inside
    G2 (area 500).  The graph enumerates G2 first; the field lists G1
    first. *)
Example setGroups_innermost_first :
  area (vertexAt "G1" CanvasGroup 10 10 10 10) = 100 /\
  area (vertexAt "G2" CanvasGroup 0 0 25 20) = 500 /\
  exists w',
    setGroups "n" nested = Returned tt w' /\
    groupsOf (graph w') "n" = Some ["G1"; "G2"]%string.
Proof.
  repeat split. eexists. split; vm_compute; reflexivity.
Qed.

Lemma filter_app_cons_find (l1 l2 : list CannoliObject)
      (x : CannoliObject) (keep : CannoliObject -> bool) :
  keep x = true ->
  (forall o, In o l1 -> keep o = true -> area o <> area x) ->
  find (fun o => area o =? area x) (filter keep (l1 ++ x :: l2)) = Some x.
Proof.
  intros Hx. induction l1 as [|a l1 IH]; intros Hne; simpl.
  - rewrite Hx. simpl. now rewrite Z.eqb_refl.
  - destruct (keep a) eqn:Ka; simpl.
    + assert (E : (area a =? area x) = false)
        by (apply Z.eqb_neq, Hne; [now left | exact Ka]).
      rewrite E. apply IH. intros o Ho. apply Hne. now right.
    + apply IH. intros o Ho. apply Hne. now right.
Qed.

(** A group that encloses a rectangle of non-negative width and height is
    at least as large as it. *)
Lemma enclosing_group_area (this : CannoliObject) (v : VertexFields)
      (o : CannoliObject) :
  vertex this = Some v ->
  0 <= Canvas.width (canvasData v) ->
  0 <= Canvas.height (canvasData v) ->
  EnclosingGroup (canvasData v) o ->
  area this <= area o.
Proof.
  intros Hv Hw Hh [vo [Hvo [_ [Hx [Hy [Hr Hb]]]]]].
  unfold area. rewrite Hv, Hvo.
  apply Z.mul_le_mono_nonneg; lia.
Qed.

(** C9, amended.  [setGroups()] on a group stored in the graph returns and
    leaves the own id of the group in its [groups] field.  When the width
    and the height of the group are not negative, no group that encloses it
    has a smaller area, and the own id is the first entry of the field
    provided that no enclosing group of the same area is enumerated before
    the group in the graph. *)
Theorem group_is_recorded_in_its_own_groups
        (self : string) (this : CannoliObject) (v : VertexFields)
        (w : World) :
  lookup self (graph w) = Some this ->
  vertex this = Some v ->
  Canvas.type (canvasData v) = CanvasGroup ->
  exists w' gs,
    setGroups self w = Returned tt w' /\
    groupsOf (graph w') self = Some gs /\
    In (id this) gs /\
    (0 <= Canvas.width (canvasData v) ->
     0 <= Canvas.height (canvasData v) ->
     (forall o, In o (map snd (graph w)) ->
                EnclosingGroup (canvasData v) o -> area this <= area o) /\
     (forall g1 g2,
        graph w = g1 ++ (self, this) :: g2 ->
        (forall o, In o (map snd g1) ->
                   EnclosingGroup (canvasData v) o -> area o <> area this) ->
        hd_error gs = Some (id this))).
Proof.
  intros Hself Hv Ht.
  rewrite setGroups_unfold, Hself, Hv.
  set (keep := isEnclosingGroup (rectangleOf (canvasData v))).
  set (matches := filter keep (map snd (graph w))).
  assert (Hkeep : keep this = true).
  { apply isEnclosingGroup_iff. exists v. repeat split; auto; lia. }
  assert (Hin : In this matches).
  { apply filter_In. split; [|exact Hkeep].
    apply in_map_iff. exists (self, this). split; [reflexivity|].
    now apply lookup_In. }
  eexists. exists (map id (sort byArea matches)).
  split; [reflexivity|]. simpl.
  split; [eapply groupsOf_update; eauto|].
  split.
  - apply in_map.
    apply (Permutation_in this (Permutation_sym (sort_perm byArea matches))).
    exact Hin.
  - intros Hw Hh.
    assert (Hmin : forall o, In o matches -> area this <= area o).
    { intros o Ho. apply filter_In in Ho as [_ Ho].
      apply isEnclosingGroup_iff in Ho.
      eapply enclosing_group_area; eauto. }
    split.
    + intros o _ Ho. eapply enclosing_group_area; eauto.
    + intros g1 g2 Hg Hne.
      pose proof (sort_byArea_head matches this Hin Hmin) as Hhd.
      unfold matches at 2 in Hhd. rewrite Hg, map_app in Hhd. simpl in Hhd.
      rewrite filter_app_cons_find in Hhd; [| exact Hkeep |].
      * destruct (sort byArea matches); [discriminate|].
        injection Hhd as ->. reflexivity.
      * intros o Ho Ko. apply Hne; [exact Ho|].
        now apply isEnclosingGroup_iff.
Qed.

(** C9 as stated fails on two groups drawn with the same rectangle: the
    one the graph enumerates second is recorded second in its own
    [groups], after its twin. *)
Lemma own_id_second_among_twins :
  lookup "g2" (graph twins) = Some (vertexAt "g2" CanvasGroup 0 0 10 10) /\
  (exists w',
     setGroups "g2" twins = Returned tt w' /\
     groupsOf (graph w') "g2" = Some ["g1"; "g2"]%string) /\
  ~ ownIdRecordedFirst.
Proof.
  split; [reflexivity|]. split.
  - eexists. split; vm_compute; reflexivity.
  - intros H.
    destruct (H "g2"%string (vertexAt "g2" CanvasGroup 0 0 10 10)
                {| canvasData := Canvas.mk CanvasGroup 0 0 10 10;
                   outgoingEdges := []; incomingEdges := [];
                   groups := [] |}
                twins eq_refl eq_refl eq_refl)
      as [w' [gs [Hrun [Hgs [_ Hhd]]]]].
    vm_compute in Hrun. injection Hrun as <-.
    vm_compute in Hgs. injection Hgs as <-.
    vm_compute in Hhd. discriminate.
Qed.

End Groups.

(** ** Hydration *)

Section HydrationFacts.

Import Hydration.

Ltac split_tag s :=
  repeat match goal with
         | |- context [String.eqb s ?c] =>
             let E := fresh "E" in
             destruct (String.eqb s c) eqn:E;
             [apply String.eqb_eq in E; subst s|]
         end.

Lemma nodeSwitch_throws_iff (t : option string) :
  (exists m, nodeSwitch t = ThrowError m) <-> recognized t = false.
Proof.
  destruct t as [s|]; simpl.
  - unfold nodeSwitch.
    split_tag s; simpl; split; intros H;
      try reflexivity; try discriminate;
      try (destruct H; discriminate); eauto.
  - split; eauto.
Qed.

Lemma nodeSwitch_message (t : option string) (m : string) :
  nodeSwitch t = ThrowError m -> m = ("Unknown node type: " ++ show t)%string.
Proof.
  destruct t as [s|]; simpl.
  - split_tag s; intros [= <-]; reflexivity.
  - intros [= <-]. reflexivity.
Qed.

Lemma nodeSwitch_unimplemented (s m : string) :
  In (s, m) unimplementedNodeTypes ->
  nodeSwitch (Some s) = ConsoleError m.
Proof.
  simpl. intros [[= <- <-] | [[= <- <-] | [[= <- <-] | []]]]; reflexivity.
Qed.

Lemma entry_assign (k k' : string) (v : Instance) (g : HydratedGraph) :
  entry k (assign k' v g) =
  if String.eqb k k' then Some v else entry k g.
Proof.
  induction g as [|[k0 v0] g IH]; simpl.
  - destruct (String.eqb k k'); reflexivity.
  - destruct (String.eqb k' k0) eqn:E0; simpl.
    + apply String.eqb_eq in E0. subst k0.
      destruct (String.eqb k k'); reflexivity.
    + destruct (String.eqb k k0) eqn:E1.
      * apply String.eqb_eq in E1. subst k0.
        rewrite String.eqb_sym in E0. now rewrite E0.
      * exact IH.
Qed.

Lemma hydrateNodes_fails_iff (ns : list CanvasElement) (g : HydratedGraph)
      (c : list string) :
  (exists m g' c', hydrateNodes ns g c = Failed m g' c') <->
  (exists n, In n ns /\ recognized (cannoliType n) = false).
Proof.
  revert g c. induction ns as [|n ns IH]; intros g c; simpl.
  - split; [intros [m [g' [c' H]]]; discriminate | intros [n [[] _]]].
  - pose proof (nodeSwitch_throws_iff (cannoliType n)) as Hn.
    destruct (nodeSwitch (cannoliType n)) as [cl | msg | msg] eqn:Sw.
    + rewrite IH. split.
      * intros [n' [Hin Hr]]. eauto.
      * intros [n' [[<- | Hin] Hr]]; [|eauto].
        apply Hn in Hr as [m Hm]. discriminate.
    + rewrite IH. split.
      * intros [n' [Hin Hr]]. eauto.
      * intros [n' [[<- | Hin] Hr]]; [|eauto].
        apply Hn in Hr as [m Hm]. discriminate.
    + split; [|eauto].
      intros _. exists n. split; [now left|]. apply Hn. eauto.
Qed.

Lemma hydrateNodes_failure_message (ns : list CanvasElement)
      (g : HydratedGraph) (c : list string) (m : string)
      (g' : HydratedGraph) (c' : list string) :
  hydrateNodes ns g c = Failed m g' c' ->
  exists n, In n ns /\ recognized (cannoliType n) = false /\
            m = ("Unknown node type: " ++ show (cannoliType n))%string.
Proof.
  revert g c. induction ns as [|n ns IH]; intros g c; simpl; [discriminate|].
  destruct (nodeSwitch (cannoliType n)) as [cl | msg | msg] eqn:Sw.
  - intros H. destruct (IH _ _ H) as [n' [Hin Hr]]. eauto.
  - intros H. destruct (IH _ _ H) as [n' [Hin Hr]]. eauto.
  - intros [= <- <- <-]. exists n. split; [now left|]. split.
    + apply nodeSwitch_throws_iff. eauto.
    + now apply nodeSwitch_message.
Qed.

Lemma hydrateNodes_console_grows (ns : list CanvasElement)
      (g : HydratedGraph) (c : list string)
      (g' : HydratedGraph) (c' : list string) :
  hydrateNodes ns g c = Hydrated g' c' -> incl c c'.
Proof.
  revert g c. induction ns as [|n ns IH]; intros g c; simpl.
  - intros [= <- <-]. apply incl_refl.
  - destruct (nodeSwitch (cannoliType n)); intros H; try discriminate.
    + eapply IH; eauto.
    + intros x Hx. eapply IH; eauto. apply in_or_app. now left.
Qed.

Lemma hydrateNodes_console (ns : list CanvasElement)
      (g : HydratedGraph) (c : list string)
      (g' : HydratedGraph) (c' : list string) (n : CanvasElement)
      (m : string) :
  hydrateNodes ns g c = Hydrated g' c' ->
  In n ns -> nodeSwitch (cannoliType n) = ConsoleError m -> In m c'.
Proof.
  revert g c. induction ns as [|a ns IH]; intros g c; simpl; [tauto|].
  intros H [<- | Hin] Hn.
  - rewrite Hn in H. eapply hydrateNodes_console_grows; eauto.
    apply in_or_app. right. now left.
  - destruct (nodeSwitch (cannoliType a)); try discriminate; eauto.
Qed.

Lemma hydrateNodes_entry_none (ns : list CanvasElement)
      (g : HydratedGraph) (c : list string)
      (g' : HydratedGraph) (c' : list string) (k : string) :
  hydrateNodes ns g c = Hydrated g' c' ->
  entry k g = None ->
  (forall n, In n ns -> element_id n = k -> constructs n = false) ->
  entry k g' = None.
Proof.
  revert g c. induction ns as [|a ns IH]; intros g c; simpl.
  - intros [= <- <-]. auto.
  - intros H Hk Hn.
    pose proof (Hn a (or_introl eq_refl)) as Ha. unfold constructs in Ha.
    destruct (nodeSwitch (cannoliType a)) as [cl | msg | msg];
      try discriminate.
    + eapply IH; eauto. rewrite entry_assign.
      destruct (String.eqb k (element_id a)) eqn:E; [|exact Hk].
      apply String.eqb_eq in E. symmetry in E.
      specialize (Ha E). discriminate.
    + eapply IH; eauto.
Qed.

Lemma hydrateEdges_entry_other (es : list CanvasElement)
      (g : HydratedGraph) (k : string) :
  ~ In k (map element_id es) ->
  entry k (hydrateEdges es g) = entry k g.
Proof.
  revert g. induction es as [|e es IH]; intros g Hk; simpl; [reflexivity|].
  simpl in Hk. rewrite IH by tauto. rewrite entry_assign.
  destruct (String.eqb k (element_id e)) eqn:E; [|reflexivity].
  apply String.eqb_eq in E. subst k. tauto.
Qed.

Lemma hydrateEdges_entry_some (es : list CanvasElement)
      (g : HydratedGraph) (k : string) :
  In k (map element_id es) \/ entry k g <> None ->
  entry k (hydrateEdges es g) <> None.
Proof.
  revert g. induction es as [|e es IH]; intros g H; simpl.
  - destruct H as [[] | H]; exact H.
  - apply IH. rewrite entry_assign.
    destruct (String.eqb k (element_id e)) eqn:E.
    + right. discriminate.
    + destruct H as [[H | H] | H]; auto.
      subst k. rewrite String.eqb_refl in E. discriminate.
Qed.

Lemma hydrateEdges_entry (es : list CanvasElement) (g : HydratedGraph)
      (e : CanvasElement) :
  NoDup (map element_id es) -> In e es ->
  entry (element_id e) (hydrateEdges es g)
    = Some (new (edgeSwitch (cannoliType e)) e).
Proof.
  revert g. induction es as [|a es IH]; intros g Hnd Hin; [contradiction|].
  simpl in *. inversion Hnd as [|? ? Ha Hnd']; subst.
  destruct Hin as [<- | Hin].
  - rewrite hydrateEdges_entry_other by exact Ha.
    now rewrite entry_assign, String.eqb_refl.
  - now apply IH.
Qed.

Lemma edgeSwitch_specified (t : option string) :
  edgeSwitch t = specifiedEdgeClass t.
Proof.
  destruct t as [s|]; [|reflexivity].
  unfold edgeSwitch.
  destruct (String.eqb s "logging") eqn:E1.
  { apply String.eqb_eq in E1. now subst. }
  destruct (String.eqb s "system-message") eqn:E2.
  { apply String.eqb_eq in E2. now subst. }
  apply String.eqb_neq in E1, E2.
  unfold specifiedEdgeClass.
  repeat match goal with
         | |- context [match ?x with _ => _ end] => destruct x; try reflexivity
         end; congruence.
Qed.

Lemma NoDup_app_apart {A : Type} (l1 l2 : list A) (x : A) :
  NoDup (l1 ++ l2) -> In x l1 -> In x l2 -> False.
Proof.
  induction l1 as [|a l1 IH]; simpl; intros Hnd H1 H2; [contradiction|].
  inversion Hnd as [|? ? Ha Hnd']; subst.
  destruct H1 as [-> | H1]; [|auto].
  apply Ha. apply in_or_app. now right.
Qed.

Lemma NoDup_map_same {A B : Type} (f : A -> B) (l : list A) (a b : A) :
  NoDup (map f l) -> In a l -> In b l -> f a = f b -> a = b.
Proof.
  induction l as [|c l IH]; simpl; intros Hnd Ha Hb E; [contradiction|].
  inversion Hnd as [|? ? Hc Hnd']; subst.
  destruct Ha as [-> | Ha], Hb as [-> | Hb]; auto.
  - exfalso. apply Hc. rewrite E. now apply in_map.
  - exfalso. apply Hc. rewrite <- E. now apply in_map.
Qed.

(** C10.  Building the graph throws exactly when some node has a type tag
    outside the recognized set, and the message names the tag as unknown.
    A node tagged dynamic-reference, categorize or select does not throw:
    its step logs the console error and leaves the mapping untouched, so
    that (ids being distinct) the finished graph has no entry under its id.
    No edge throws or is left out: once the nodes are through, the graph
    has an entry under the id of every edge, and (edge ids being distinct)
    that entry is a logging edge for the tag logging, a system-message edge
    for the tag system-message and a generic edge for every other tag or
    none. *)
Theorem hydrateGraph_unknown_unimplemented_and_edges
        (data : VerifiedCannoliCanvasData) :
  ((exists m g c, constructor data = Failed m g c) <->
   (exists n, In n (nodes data) /\ recognized (cannoliType n) = false)) /\
  (forall m g c,
     constructor data = Failed m g c ->
     exists n, In n (nodes data) /\ recognized (cannoliType n) = false /\
               m = ("Unknown node type: " ++ show (cannoliType n))%string) /\
  (forall n s m,
     cannoliType n = Some s -> In (s, m) unimplementedNodeTypes ->
     recognized (cannoliType n) = true /\
     forall rest g c,
       hydrateNodes (n :: rest) g c = hydrateNodes rest g (c ++ [m])) /\
  (forall g c,
     constructor data = Hydrated g c ->
     (forall n s m,
        In n (nodes data) ->
        cannoliType n = Some s -> In (s, m) unimplementedNodeTypes ->
        In m c /\
        (NoDup (map element_id (nodes data ++ edges data)) ->
         entry (element_id n) g = None)) /\
     (forall e,
        In e (edges data) ->
        entry (element_id e) g <> None /\
        (NoDup (map element_id (edges data)) ->
         entry (element_id e) g
           = Some (new (specifiedEdgeClass (cannoliType e)) e)))).
Proof.
  unfold constructor, hydrateGraph.
  split; [|split; [|split; [|]]].
  - split.
    + intros [m [g [c H]]].
      apply (hydrateNodes_fails_iff (nodes data) [] []).
      destruct (hydrateNodes (nodes data) [] []) as [g' c' | m' g' c'];
        [discriminate | eauto].
    + intros H.
      apply (hydrateNodes_fails_iff (nodes data) [] []) in H
        as [m [g [c H]]].
      rewrite H. eauto.
  - intros m g c H.
    destruct (hydrateNodes (nodes data) [] []) as [g' c' | m' g' c'] eqn:E;
      [discriminate|].
    injection H as <- <- <-.
    eapply hydrateNodes_failure_message; eauto.
  - intros n s m Hs Hm. split.
    + destruct (recognized (cannoliType n)) eqn:R; [reflexivity|].
      apply nodeSwitch_throws_iff in R as [m' R].
      rewrite Hs, (nodeSwitch_unimplemented s m Hm) in R. discriminate.
    + intros rest g c. simpl.
      now rewrite Hs, (nodeSwitch_unimplemented s m Hm).
  - intros g c H.
    destruct (hydrateNodes (nodes data) [] []) as [g' c' | m' g' c'] eqn:E;
      [|discriminate].
    injection H as <- <-.
    split.
    + intros n s m Hn Hs Hm.
      assert (Sw : nodeSwitch (cannoliType n) = ConsoleError m)
        by (rewrite Hs; now apply nodeSwitch_unimplemented).
      split; [eapply hydrateNodes_console; eauto|].
      intros Hnd. rewrite map_app in Hnd.
      rewrite hydrateEdges_entry_other.
      * eapply hydrateNodes_entry_none; eauto.
        intros n' Hn' Hid. unfold constructs.
        assert (n' = n) as ->; [|now rewrite Sw].
        eapply NoDup_map_same; eauto.
        eapply NoDup_app_remove_r; eauto.
      * intros Hin.
        eapply NoDup_app_apart; [exact Hnd | | exact Hin].
        now apply in_map.
    + intros e He. split.
      * apply hydrateEdges_entry_some. left. now apply in_map.
      * intros Hnd. rewrite <- edgeSwitch_specified.
        now apply hydrateEdges_entry.
Qed.

End HydrationFacts.

(* ===================================================================== *)
(** * Part III. The properties at work on the sample graphs               *)
(* ===================================================================== *)

(** The poll on [c] of [allComplete]. *)
Lemma allDependenciesComplete_on_allComplete :
  lookup "c" (graph allComplete)
    = Some (plain "c" Pending [Single "a"; AnyOf ["b"]]) /\
  allDependenciesComplete "c" allComplete = Returned true allComplete.
Proof.
  assert (Hc : lookup "c" (graph allComplete)
               = Some (plain "c" Pending [Single "a"; AnyOf ["b"]]))
    by reflexivity.
  split; [exact Hc|].
  apply (allDependenciesComplete_iff_every_member_complete
           "c" _ allComplete Hc).
  intros d Hd i Hi.
  destruct Hd as [<- | [<- | []]]; destruct Hi as [<- | []].
  - exists (plain "a" Complete []). split; reflexivity.
  - exists (plain "b" Complete []). split; reflexivity.
Defined.

(** D of [choice] already depends on C: a second alternative set that
    holds C is refused. *)
Lemma addDependency_on_choice :
  lookup "D" (graph choice)
    = Some (plain "D" Pending [AnyOf ["A"; "B"; "C"]]) /\
  addDependency "D" (AnyOf ["C"; "E"]) choice
    = Thrown (DuplicateAlternativeError "D") choice.
Proof.
  assert (Hd : lookup "D" (graph choice)
               = Some (plain "D" Pending [AnyOf ["A"; "B"; "C"]]))
    by reflexivity.
  split; [exact Hd|].
  apply (proj1 (addDependency_throws_iff_already_depended_on
                  "D" _ (AnyOf ["C"; "E"]) choice Hd)).
  exists "C". split; [now left|].
  exists (AnyOf ["A"; "B"; "C"]). split; [now left|].
  simpl. tauto.
Defined.

(** The listener of D on B, with A and B both Complete. *)
Lemma conflicting_alternatives_on_choice :
  lookup "D" (graph choice)
    = Some (plain "D" Pending [AnyOf ["A"; "B"; "C"]]) /\
  setupListeners "D" choice = Returned tt choiceListening /\
  hears (graph choiceListening) "B" (OnAlternative "D" ["A"; "B"; "C"] "B") /\
  forall w2,
    w2 = worldAfter (execute 1 "B" live)
           (worldAfter (execute 1 "A" live) choiceListening) ->
    listener (emit 0) (OnAlternative "D" ["A"; "B"; "C"] "B") "B" Complete
             live w2
      = Thrown (ConflictingAlternativesError "D") w2.
Proof.
  assert (Hd : lookup "D" (graph choice)
               = Some (plain "D" Pending [AnyOf ["A"; "B"; "C"]]))
    by reflexivity.
  assert (Hs : setupListeners "D" choice = Returned tt choiceListening)
    by reflexivity.
  pose proof (conflicting_alternatives_detected
                "D" _ ["A"; "B"; "C"] "B" choice choiceListening Hd
                (or_introl eq_refl) (or_intror (or_introl eq_refl)) Hs)
    as [Hh Hl].
  split; [exact Hd|]. split; [exact Hs|]. split; [exact Hh|].
  intros w2 ->.
  apply (Hl (emit 0) Complete live).
  - repeat constructor; vm_compute; discriminate.
  - reflexivity.
  - vm_compute. lia.
Defined.

(** A mock [execute] of A in [choiceListening]. *)
Lemma execute_on_choice :
  lookup "A" (graph choiceListening)
    = Some (with_listeners [OnAlternative "D" ["A"; "B"; "C"] "A"]
              (plain "A" Pending [])) /\
  exists w',
    execute 1 "A" mock choiceListening = Returned tt w' /\
    option_map status (lookup "A" (graph w')) = Some Complete /\
    trace w' = [ StatusWrite "A" Executing; EmitUpdate "A" Executing mock;
                 Call MockRunMethod "A";
                 StatusWrite "A" Complete; EmitUpdate "A" Complete mock ].
Proof.
  assert (Ha : lookup "A" (graph choiceListening)
               = Some (with_listeners [OnAlternative "D" ["A"; "B"; "C"] "A"]
                         (plain "A" Pending [])))
    by reflexivity.
  split; [exact Ha|].
  pose proof (execute_performs_exact_sequence
                0 "A" _ mock choiceListening Ha) as [_ Hq].
  eexists. split; [|split].
  - apply Hq. repeat constructor; vm_compute; discriminate.
  - reflexivity.
  - reflexivity.
Defined.

(** [setGroups] on the node of [nested]. *)
Lemma setGroups_on_nested :
  lookup "n" (graph nested) = Some (vertexAt "n" CanvasText 12 12 5 5) /\
  vertex (vertexAt "n" CanvasText 12 12 5 5)
    = Some {| canvasData := Canvas.mk CanvasText 12 12 5 5;
              outgoingEdges := []; incomingEdges := []; groups := [] |} /\
  exists w' sorted,
    setGroups "n" nested = Returned tt w' /\
    groupsOf (graph w') "n" = Some (map id sorted) /\
    map id sorted = ["G1"; "G2"].
Proof.
  assert (Hn : lookup "n" (graph nested)
               = Some (vertexAt "n" CanvasText 12 12 5 5)) by reflexivity.
  assert (Hv : vertex (vertexAt "n" CanvasText 12 12 5 5)
               = Some {| canvasData := Canvas.mk CanvasText 12 12 5 5;
                         outgoingEdges := []; incomingEdges := [];
                         groups := [] |}) by reflexivity.
  split; [exact Hn|]. split; [exact Hv|].
  destruct (setGroups_records_enclosing_groups_by_area
              "n" _ _ nested Hn Hv)
    as [w' [sorted [Hrun [Hgs [_ [_ [_ Hpair]]]]]]].
  exists w', sorted. split; [exact Hrun|]. split; [exact Hgs|].
  apply (Hpair (vertexAt "G1" CanvasGroup 10 10 10 10)
               (vertexAt "G2" CanvasGroup 0 0 25 20)).
  - vm_compute. apply perm_swap.
  - vm_compute. reflexivity.
Defined.

(** The trace of the rejection that travels along [chain]. *)
Lemma pairing_on_chain :
  (endsIn (execute 2 "B" live chainListening) chainRejected \/
   endsIn (tryReject (emit 2) "B" live chainListening) chainRejected \/
   endsIn (reset 2 "B" live chainListening) chainRejected) /\
  exists t, trace chainRejected = trace chainListening ++ t /\ Paired t.
Proof.
  assert (H : endsIn (execute 2 "B" live chainListening) chainRejected \/
              endsIn (tryReject (emit 2) "B" live chainListening)
                     chainRejected \/
              endsIn (reset 2 "B" live chainListening) chainRejected)
    by (right; left; reflexivity).
  split; [exact H|].
  exact (status_writes_paired_with_events
           2 "B" live chainListening chainRejected H).
Defined.

(** The first of the [twins] is the first entry of its own [groups]. *)
Lemma first_twin_recorded_first :
  lookup "g1" (graph twins) = Some (vertexAt "g1" CanvasGroup 0 0 10 10) /\
  exists w' gs,
    setGroups "g1" twins = Returned tt w' /\
    groupsOf (graph w') "g1" = Some gs /\
    In "g1" gs /\
    hd_error gs = Some "g1".
Proof.
  assert (Hg : lookup "g1" (graph twins)
               = Some (vertexAt "g1" CanvasGroup 0 0 10 10)) by reflexivity.
  split; [exact Hg|].
  destruct (group_is_recorded_in_its_own_groups
              "g1" _ _ twins Hg eq_refl eq_refl)
    as [w' [gs [Hrun [Hgs [Hin Hfirst]]]]].
  exists w', gs. split; [exact Hrun|]. split; [exact Hgs|].
  split; [exact Hin|].
  assert (H0 : (0 <= 10)%Z) by lia.
  destruct (Hfirst H0 H0) as [_ Hhd].
  apply (Hhd [] [("g2", vertexAt "g2" CanvasGroup 0 0 10 10)]).
  - reflexivity.
  - intros o [].
Defined.

(** Hydration of [sampleCanvas]. *)
Lemma hydration_of_sampleCanvas :
  exists g c,
    Hydration.constructor sampleCanvas = Hydration.Hydrated g c /\
    In "Select node not implemented" c /\
    Hydration.entry "n2" g = None /\
    Hydration.entry "e1" g
      = Some (Hydration.new Hydration.LoggingEdge
                (Hydration.mkElement "e1" (Some "logging"))) /\
    Hydration.entry "e2" g
      = Some (Hydration.new Hydration.CannoliEdge
                (Hydration.mkElement "e2" (Some "chat"))).
Proof.
  destruct (hydrateGraph_unknown_unimplemented_and_edges sampleCanvas)
    as [_ [_ [_ H]]].
  eexists. eexists. split; [reflexivity|].
  destruct (H _ _ eq_refl) as [Hnodes Hedges].
  assert (Hnd : NoDup (map Hydration.element_id
                           (Hydration.nodes sampleCanvas ++
                            Hydration.edges sampleCanvas))).
  { simpl. repeat constructor; simpl; intuition discriminate. }
  assert (Hnd' : NoDup (map Hydration.element_id
                            (Hydration.edges sampleCanvas))).
  { simpl. repeat constructor; simpl; intuition discriminate. }
  destruct (Hnodes (Hydration.mkElement "n2" (Some "select")) "select"
                   "Select node not implemented"
                   (or_intror (or_introl eq_refl)) eq_refl
                   (or_intror (or_intror (or_introl eq_refl))))
    as [Hc Hn].
  split; [exact Hc|]. split; [exact (Hn Hnd)|]. split.
  - exact (proj2 (Hedges _ (or_introl eq_refl)) Hnd').
  - exact (proj2 (Hedges _ (or_intror (or_introl eq_refl))) Hnd').
Defined.

(* ===================================================================== *)
(** * Part IV. Further properties of the code                             *)
(* ===================================================================== *)

(** ** Rectangles and group assignment *)

Section MoreGroups.

Local Open Scope Z_scope.

(** X1. Enclosure orders the rectangles that [createRectangle] builds:
    every rectangle encloses itself, enclosure passes along a nesting, and
    two rectangles that enclose each other have the same position, width
    and height. *)
Theorem encloses_is_a_partial_order (x1 y1 w1 h1 x2 y2 w2 h2 : Z)
        (a b c : Rect.Rectangle) :
  encloses a a = true /\
  (encloses a b = true -> encloses b c = true -> encloses a c = true) /\
  (encloses (createRectangle x1 y1 w1 h1) (createRectangle x2 y2 w2 h2)
     = true ->
   encloses (createRectangle x2 y2 w2 h2) (createRectangle x1 y1 w1 h1)
     = true ->
   x1 = x2 /\ y1 = y2 /\ w1 = w2 /\ h1 = h2).
Proof.
  split; [apply encloses_refl|]. split; [apply encloses_trans|].
  rewrite !encloses_true_iff. simpl. lia.
Qed.

(** X2. For rectangles of positive width and height, [overlaps] is true
    exactly when some point of the plane lies strictly inside both and
    neither rectangle encloses the other. *)
Theorem overlaps_iff_common_interior_point (a b : Rect.Rectangle) :
  Rect.x a < Rect.x_right a -> Rect.y a < Rect.y_bottom a ->
  Rect.x b < Rect.x_right b -> Rect.y b < Rect.y_bottom b ->
  (overlaps a b = true <->
   (exists px py, strictlyInside a px py /\ strictlyInside b px py) /\
   encloses a b = false /\ encloses b a = false).
Proof.
  intros Hax Hay Hbx Hby.
  rewrite overlaps_true_iff. unfold spec_intersect, strictlyInside.
  rewrite (extents_overlap_common_point _ _ _ _ Hax Hbx).
  rewrite (extents_overlap_common_point _ _ _ _ Hay Hby).
  split.
  - intros [[[px [Hpa Hpb]] [py [Hqa Hqb]]] He]. split; [|exact He].
    exists px, py. tauto.
  - intros [[px [py [[Hpa Hqa] [Hpb Hqb]]]] He]. split; [|exact He].
    split; [exists px | exists py]; tauto.
Qed.


Lemma sameButGroups_refl (o : CannoliObject) : sameButGroups o o.
Proof. repeat split. Qed.

Lemma sameButGroups_with_groups (gs : list string) (o : CannoliObject) :
  sameButGroups o (with_groups gs o).
Proof.
  unfold sameButGroups, with_groups. simpl.
  destruct (vertex o); repeat split.
Qed.

Lemma sameButGroups_area (o o' : CannoliObject) :
  sameButGroups o o' -> area o' = area o.
Proof.
  intros [_ [_ [_ [_ [_ [_ [Hc _]]]]]]]. unfold area.
  destruct (vertex o), (vertex o'); simpl in Hc; try discriminate; auto.
  injection Hc as ->. reflexivity.
Qed.

Lemma sameButGroups_isEnclosingGroup (r : Rect.Rectangle)
      (o o' : CannoliObject) :
  sameButGroups o o' -> isEnclosingGroup r o' = isEnclosingGroup r o.
Proof.
  intros [_ [_ [_ [_ [_ [_ [Hc _]]]]]]]. unfold isEnclosingGroup.
  destruct (vertex o), (vertex o'); simpl in Hc; try discriminate; auto.
  injection Hc as ->. reflexivity.
Qed.

Lemma update_sameButGroups (k : string) (gs : list string) (g : Graph) :
  Forall2 sameButGroups (map snd g) (map snd (update k (with_groups gs) g)).
Proof.
  induction g as [|[k' o] g IH]; simpl; [constructor|].
  destruct (String.eqb k k'); simpl; constructor; auto.
  - apply sameButGroups_with_groups.
  - clear. induction g as [|[k0 o0] g IH]; simpl; constructor; auto.
    apply sameButGroups_refl.
  - apply sameButGroups_refl.
Qed.

Lemma filter_sameButGroups (r : Rect.Rectangle) (l l' : list CannoliObject) :
  Forall2 sameButGroups l l' ->
  Forall2 sameButGroups (filter (isEnclosingGroup r) l)
          (filter (isEnclosingGroup r) l').
Proof.
  induction 1 as [|o o' l l' Ho Hl IH]; simpl; [constructor|].
  rewrite (sameButGroups_isEnclosingGroup r o o' Ho).
  destruct (isEnclosingGroup r o); auto.
Qed.

Lemma insertSorted_sameButGroups (o o' : CannoliObject)
      (l l' : list CannoliObject) :
  sameButGroups o o' -> Forall2 sameButGroups l l' ->
  Forall2 sameButGroups (insertSorted byArea o l) (insertSorted byArea o' l').
Proof.
  intros Ho. induction 1 as [|b b' l l' Hb Hl IH]; simpl.
  - constructor; [exact Ho | constructor].
  - unfold byArea.
    rewrite (sameButGroups_area o o' Ho), (sameButGroups_area b b' Hb).
    destruct (area o - area b <=? 0).
    + constructor; [exact Ho|]. constructor; assumption.
    + constructor; assumption.
Qed.

Lemma sort_sameButGroups (l l' : list CannoliObject) :
  Forall2 sameButGroups l l' ->
  Forall2 sameButGroups (sort byArea l) (sort byArea l').
Proof.
  induction 1; simpl; [constructor|].
  now apply insertSorted_sameButGroups.
Qed.

Lemma map_id_sameButGroups (l l' : list CannoliObject) :
  Forall2 sameButGroups l l' -> map id l' = map id l.
Proof.
  induction 1 as [|o o' l l' Ho Hl IH]; simpl; [reflexivity|].
  destruct Ho as [-> _]. now rewrite IH.
Qed.

(** The ids [setGroups] computes do not depend on the [groups] fields the
    graph holds. *)
Lemma computed_groups_ignore_groups (r : Rect.Rectangle) (k : string)
      (gs : list string) (g : Graph) :
  map id (sort byArea (filter (isEnclosingGroup r)
                              (map snd (update k (with_groups gs) g))))
  = map id (sort byArea (filter (isEnclosingGroup r) (map snd g))).
Proof.
  apply map_id_sameButGroups, sort_sameButGroups, filter_sameButGroups.
  apply update_sameButGroups.
Qed.

Lemma update_commute (k1 k2 : string) (f1 f2 : CannoliObject -> CannoliObject)
      (g : Graph) :
  k1 <> k2 ->
  update k1 f1 (update k2 f2 g) = update k2 f2 (update k1 f1 g).
Proof.
  intros Hne. induction g as [|[k o] g IH]; simpl; [reflexivity|].
  destruct (String.eqb k2 k) eqn:E2, (String.eqb k1 k) eqn:E1; simpl;
    rewrite ?E1, ?E2; try reflexivity.
  - apply String.eqb_eq in E1, E2. congruence.
  - now rewrite IH.
Qed.

(** X3. [setGroups()] changes the [groups] field of its vertex and nothing
    else: the trace, the keys and every other object stay as they are, and
    the vertex keeps its id, status, dependencies, listeners, canvas data
    and edge references.  Calling it a second time changes nothing. *)
Theorem setGroups_changes_only_groups
        (self : string) (this : CannoliObject) (v : VertexFields)
        (w : World) :
  lookup self (graph w) = Some this ->
  vertex this = Some v ->
  exists w',
    setGroups self w = Returned tt w' /\
    trace w' = trace w /\
    map fst (graph w') = map fst (graph w) /\
    (forall k, k <> self -> lookup k (graph w') = lookup k (graph w)) /\
    (exists this', lookup self (graph w') = Some this' /\
                   sameButGroups this this') /\
    setGroups self w' = Returned tt w'.
Proof.
  intros Hself Hv.
  rewrite setGroups_unfold, Hself, Hv.
  eexists. split; [reflexivity|]. simpl.
  split; [reflexivity|]. split; [apply update_keys|].
  split; [intros k Hk; apply lookup_update_other; congruence|].
  split.
  - eexists. rewrite lookup_update_same, Hself. simpl.
    split; [reflexivity | apply sameButGroups_with_groups].
  - rewrite setGroups_unfold. simpl.
    rewrite lookup_update_same, Hself. simpl. rewrite Hv. simpl.
    rewrite computed_groups_ignore_groups, update_update.
    f_equal. f_equal. apply update_ext.
    intros o. unfold with_groups. simpl. destruct (vertex o); reflexivity.
Qed.

(** X4. The order in which [setGroups()] is called on two vertices of the
    graph does not matter: both orders return and end in the same world. *)
Theorem setGroups_calls_commute
        (a b : string) (oa ob : CannoliObject) (va vb : VertexFields)
        (w : World) :
  a <> b ->
  lookup a (graph w) = Some oa -> vertex oa = Some va ->
  lookup b (graph w) = Some ob -> vertex ob = Some vb ->
  exists w',
    (setGroups a ;; setGroups b) w = Returned tt w' /\
    (setGroups b ;; setGroups a) w = Returned tt w'.
Proof.
  intros Hne Ha Hva Hb Hvb.
  unfold bind. rewrite !setGroups_unfold, Ha, Hva, Hb, Hvb.
  rewrite !setGroups_unfold. simpl.
  rewrite !lookup_update_other by congruence.
  rewrite Ha, Hva, Hb, Hvb.
  rewrite !computed_groups_ignore_groups.
  eexists. split; [reflexivity|].
  rewrite update_commute by congruence. reflexivity.
Qed.

(** X5. Nesting carries over: when the rectangle of a group G encloses the
    rectangle of a vertex, [setGroups()] records for the vertex the id of G
    and every id it records for G. *)
Theorem setGroups_inherits_groups_of_enclosing_group
        (self grp : string) (this og : CannoliObject) (v : VertexFields)
        (w w1 w2 : World) (gs1 gs2 : list string) :
  lookup self (graph w) = Some this -> vertex this = Some v ->
  lookup grp (graph w) = Some og ->
  EnclosingGroup (canvasData v) og ->
  setGroups self w = Returned tt w1 -> groupsOf (graph w1) self = Some gs1 ->
  setGroups grp w = Returned tt w2 -> groupsOf (graph w2) grp = Some gs2 ->
  In (id og) gs1 /\ incl gs2 gs1.
Proof.
  intros Hself Hv Hgrp Henc.
  pose proof Henc as [vg [Hvg [Htg [Hx [Hy [Hr Hb]]]]]].
  rewrite !setGroups_unfold, Hself, Hv, Hgrp, Hvg.
  intros [= <-] H1 [= <-] H2. simpl in H1, H2.
  rewrite (groupsOf_update self this v _ _ Hself Hv) in H1.
  rewrite (groupsOf_update grp og vg _ _ Hgrp Hvg) in H2.
  injection H1 as <-. injection H2 as <-.
  assert (Hin : forall o, In o (map snd (graph w)) ->
                          EnclosingGroup (canvasData v) o ->
                          In (id o)
                             (map id
                                (sort byArea
                                   (filter (isEnclosingGroup
                                              (rectangleOf (canvasData v)))
                                           (map snd (graph w)))))).
  { intros o Ho He. apply in_map.
    apply (Permutation_in o (Permutation_sym (sort_perm byArea _))).
    apply filter_In. split; [exact Ho | now apply isEnclosingGroup_iff]. }
  split.
  - apply Hin; [|exact Henc].
    apply in_map_iff. exists (grp, og). split; [reflexivity|].
    now apply lookup_In.
  - intros i Hi. apply in_map_iff in Hi as [o [<- Ho]].
    apply (Permutation_in o (sort_perm byArea _)) in Ho.
    apply filter_In in Ho as [Ho He].
    apply isEnclosingGroup_iff in He.
    apply Hin; [exact Ho|].
    destruct He as [vo [Hvo [Hto [Hx' [Hy' [Hr' Hb']]]]]].
    exists vo. repeat split; auto; lia.
Qed.

Lemma insertSorted_filter_area (z : Z) (a : CannoliObject)
      (l : list CannoliObject) :
  filter (fun o => area o =? z) (insertSorted byArea a l)
  = filter (fun o => area o =? z) (a :: l).
Proof.
  induction l as [|b l IH]; simpl; [reflexivity|].
  unfold byArea at 1.
  destruct (area a - area b <=? 0) eqn:E; [reflexivity|].
  apply Z.leb_gt in E. simpl. rewrite IH. simpl.
  destruct (area a =? z) eqn:Ea, (area b =? z) eqn:Eb; try reflexivity.
  apply Z.eqb_eq in Ea, Eb. lia.
Qed.

Lemma sort_filter_area (z : Z) (l : list CannoliObject) :
  filter (fun o => area o =? z) (sort byArea l)
  = filter (fun o => area o =? z) l.
Proof.
  induction l as [|a l IH]; simpl; [reflexivity|].
  rewrite insertSorted_filter_area. simpl. now rewrite IH.
Qed.

(** X6. Ties keep the order of the graph: among the groups [setGroups()]
    records, those of one and the same area appear in the order in which
    the graph enumerates them. *)
Theorem setGroups_keeps_enumeration_order_among_equal_areas
        (self : string) (this : CannoliObject) (v : VertexFields)
        (w : World) :
  lookup self (graph w) = Some this ->
  vertex this = Some v ->
  exists w' sorted,
    setGroups self w = Returned tt w' /\
    groupsOf (graph w') self = Some (map id sorted) /\
    forall z,
      filter (fun o => area o =? z) sorted
      = filter (fun o => area o =? z)
               (filter (isEnclosingGroup (rectangleOf (canvasData v)))
                       (map snd (graph w))).
Proof.
  intros Hself Hv.
  rewrite setGroups_unfold, Hself, Hv.
  eexists. eexists. split; [reflexivity|]. simpl.
  split; [eapply groupsOf_update; eauto|].
  intros z. apply sort_filter_area.
Qed.

End MoreGroups.

(** ** Dependencies, polled and declared *)

Section MoreDependencies.






(** X8. A freshly constructed object is in nobody's debt: stored in the
    graph, it answers [false] to every [isDependency], its poll returns
    [true], [tryReject] leaves it alone and [setupListeners] registers
    nothing, all without changing the world. *)
Theorem fresh_object_has_nothing_to_wait_for
        (self id_ text_ : string) (isClone_ : bool) (w : World)
        (fuel : nat) (ctx : Run) :
  lookup self (graph w) = Some (newCannoliObject id_ text_ isClone_) ->
  (forall term, isDependency (newCannoliObject id_ text_ isClone_) term
                = false) /\
  allDependenciesComplete self w = Returned true w /\
  tryReject (emit fuel) self ctx w = Returned false w /\
  setupListeners self w = Returned tt w.
Proof.
  intros Hself. split; [|split; [|split]].
  - intros term. unfold isDependency. simpl.
    induction (term_ids term); simpl; auto.
  - unfold allDependenciesComplete, bind, getObject. now rewrite Hself.
  - rewrite tryReject_unfold, Hself. reflexivity.
  - unfold setupListeners, bind, getObject. now rewrite Hself.
Qed.


Lemma alreadyDependedOn_snoc (t t0 : Dependency) (ds : list Dependency) :
  alreadyDependedOn t (ds ++ [t0]) <->
  alreadyDependedOn t ds \/ ~ sharesNoId t0 t.
Proof.
  unfold alreadyDependedOn, appearsIn, sharesNoId. split.
  - intros [i [Hi [d [Hd Hid]]]].
    apply in_app_or in Hd as [Hd | [<- | []]].
    + left. eauto.
    + right. intros H. exact (H i Hid Hi).
  - intros [[i [Hi [d [Hd Hid]]]] | H].
    + exists i. split; [exact Hi|]. exists d. split; [|exact Hid].
      apply in_or_app. now left.
    + assert (Hex : exists i, In i (term_ids t0) /\ In i (term_ids t)).
      { clear - H. induction (term_ids t0) as [|a l IH].
        - exfalso. apply H. intros i [].
        - destruct (in_dec string_dec a (term_ids t)) as [Ha | Ha].
          + exists a. split; [now left | exact Ha].
          + destruct IH as [i [Hi Hit]].
            * intros H'. apply H. intros i [<- | Hi]; auto.
            * exists i. split; [now right | exact Hit]. }
      destruct Hex as [i [Hi0 Hi]].
      exists i. split; [exact Hi|]. exists t0. split; [|exact Hi0].
      apply in_or_app. right. now left.
Qed.

Lemma addDependency_sequence (self : string) (ts : list Dependency) :
  forall (this : CannoliObject) (w : World),
    lookup self (graph w) = Some this ->
    ((exists w', forEach (addDependency self) ts w = Returned tt w') <->
     Forall (fun t => ~ alreadyDependedOn t (dependencies this)) ts /\
     ForallOrdPairs sharesNoId ts) /\
    (forall w',
       forEach (addDependency self) ts w = Returned tt w' ->
       lookup self (graph w')
         = Some (with_dependencies (dependencies this ++ ts) this) /\
       (forall k, k <> self -> lookup k (graph w') = lookup k (graph w)) /\
       trace w' = trace w).
Proof.
  induction ts as [|t ts IH]; intros this w Hself.
  - simpl. split.
    + split; [intros _; split; constructor | eauto].
    + intros w' [= <-]. rewrite app_nil_r.
      split; [|split; auto]. rewrite Hself. f_equal.
      destruct this; reflexivity.
  - simpl. unfold bind. rewrite addDependency_unfold, Hself.
    destruct (isDependency this t) eqn:Ht.
    + apply isDependency_true_iff in Ht. split.
      * split; [intros [w' H]; discriminate|].
        intros [HF _]. inversion HF; subst. contradiction.
      * intros w' H. discriminate.
    + assert (Hnt : ~ alreadyDependedOn t (dependencies this)).
      { intros H. apply isDependency_true_iff in H. congruence. }
      set (w1 := {| graph := update self
                               (fun o => with_dependencies
                                           (dependencies o ++ [t]) o)
                               (graph w);
                    trace := trace w |}).
      assert (H1 : lookup self (graph w1)
                   = Some (with_dependencies (dependencies this ++ [t]) this)).
      { unfold w1. simpl. now rewrite lookup_update_same, Hself. }
      destruct (IH _ w1 H1) as [IHa IHb]. simpl in IHa. split.
      * rewrite IHa. split.
        -- intros [HF HP]. split.
           ++ constructor; [exact Hnt|].
              eapply Forall_impl; [|exact HF]. intros t' H' H''.
              apply H'. apply alreadyDependedOn_snoc. now left.
           ++ constructor; [|exact HP].
              rewrite Forall_forall. intros t' Hin.
              rewrite Forall_forall in HF. specialize (HF t' Hin).
              intros i Hi Hi'. apply HF. apply alreadyDependedOn_snoc.
              right. intros Hs. exact (Hs i Hi Hi').
        -- intros [HF HP]. inversion HF as [|? ? _ HF']; subst.
           inversion HP as [|? ? Ht0 HP']; subst. split; [|exact HP'].
           rewrite Forall_forall in *. intros t' Hin H'.
           apply alreadyDependedOn_snoc in H' as [H' | H'].
           ++ exact (HF' t' Hin H').
           ++ apply H'. exact (Ht0 t' Hin).
      * intros w' Hrun. destruct (IHb w' Hrun) as [Hl [Hk Htr]].
        split; [|split].
        -- rewrite Hl. simpl. rewrite <- app_assoc. reflexivity.
        -- intros k Hne. rewrite (Hk k Hne). unfold w1. simpl.
           apply lookup_update_other. congruence.
        -- exact Htr.
Qed.

(** X10. Declaring dependencies one after the other on an object that has
    none succeeds exactly when no two of the terms share an id; the object
    then holds the terms in the order given, and nothing else has changed.
    (Ids repeated inside one alternative set are not looked at.) *)
Theorem addDependency_accepts_exactly_disjoint_terms
        (self : string) (this : CannoliObject) (ts : list Dependency)
        (w : World) :
  lookup self (graph w) = Some this ->
  dependencies this = [] ->
  ((exists w', forEach (addDependency self) ts w = Returned tt w') <->
   ForallOrdPairs sharesNoId ts) /\
  (forall w',
     forEach (addDependency self) ts w = Returned tt w' ->
     lookup self (graph w') = Some (with_dependencies ts this) /\
     (forall k, k <> self -> lookup k (graph w') = lookup k (graph w)) /\
     trace w' = trace w).
Proof.
  intros Hself Hnone.
  destruct (addDependency_sequence self ts this w Hself) as [Hiff Hres].
  rewrite Hnone in *. simpl in Hres. split; [|exact Hres].
  rewrite Hiff. split; [tauto|]. intros HP. split; [|exact HP].
  rewrite Forall_forall. intros t _ [i [_ [d [[] _]]]].
Qed.

End MoreDependencies.

(** ** Listeners, events and rejection *)

Section MoreListeners.

Lemma ListenersAdded_none (w : World) : ListenersAdded (fun _ => []) w w.
Proof.
  repeat split; auto.
  - intros k. now rewrite app_nil_r.
  - intros k o Ho. exists o. repeat split; auto.
Qed.

Lemma ListenersAdded_then (f1 f2 : string -> list Listener)
      (w1 w2 w3 : World) :
  ListenersAdded f1 w1 w2 -> ListenersAdded f2 w2 w3 ->
  ListenersAdded (fun k => f1 k ++ f2 k) w1 w3.
Proof.
  intros [T1 [K1 [L1 O1]]] [T2 [K2 [L2 O2]]].
  split; [congruence|]. split; [congruence|]. split.
  - intros k. now rewrite L2, L1, app_assoc.
  - intros k o Ho. destruct (O1 k o Ho) as [o1 [Ho1 S1]].
    destruct (O2 k o1 Ho1) as [o2 [Ho2 S2]].
    exists o2. split; [exact Ho2|].
    unfold sameButListeners in *.
    destruct S1 as [? [? [? [? [? ?]]]]], S2 as [? [? [? [? [? ?]]]]].
    repeat split; congruence.
Qed.

Lemma ListenersAdded_ext (f f' : string -> list Listener) (w w' : World) :
  (forall k, f k = f' k) -> ListenersAdded f w w' -> ListenersAdded f' w w'.
Proof.
  intros E [T [K [L O]]]. repeat split; auto.
  intros k. now rewrite <- E.
Qed.

Lemma on_adds (k : string) (l : Listener) (w : World) :
  present k w ->
  exists w',
    on k l w = Returned tt w' /\
    ListenersAdded (fun k' => if String.eqb k k' then [l] else []) w w'.
Proof.
  unfold present. intros Hk. rewrite on_unfold.
  destruct (lookup k (graph w)) as [o|] eqn:Ho; [|contradiction].
  eexists. split; [reflexivity|]. unfold ListenersAdded. simpl.
  split; [reflexivity|]. split; [apply update_keys|]. split.
  - intros k'. unfold listenersOf.
    destruct (String.eqb k k') eqn:E.
    + apply String.eqb_eq in E. subst k'.
      now rewrite lookup_update_same, Ho.
    + apply String.eqb_neq in E. rewrite lookup_update_other by exact E.
      now rewrite app_nil_r.
  - intros k' o' Ho'. destruct (String.eqb k k') eqn:E.
    + apply String.eqb_eq in E. subst k'.
      rewrite lookup_update_same, Ho'. simpl. eexists.
      split; [reflexivity|]. repeat split.
    + apply String.eqb_neq in E. rewrite lookup_update_other by exact E.
      exists o'. split; [exact Ho'|]. repeat split.
Qed.

Lemma present_ListenersAdded (f : string -> list Listener) (k : string)
      (w w' : World) :
  ListenersAdded f w w' -> (present k w <-> present k w').
Proof.
  intros [_ [K _]]. unfold present. split; intros H.
  - eapply lookup_keys; eauto.
  - eapply lookup_keys; [symmetry|]; eauto.
Qed.

Lemma forEach_cons_unfold {A : Type} (body : A -> M unit) (a : A)
      (rest : list A) (w : World) :
  forEach body (a :: rest) w =
  match body a w with
  | Returned _ w' => forEach body rest w'
  | Thrown e w' => Thrown e w'
  | Exhausted => Exhausted
  end.
Proof. reflexivity. Qed.

(** A loop of registrations: it goes through when every target is in the
    graph and throws at the first one that is not. *)
Lemma registrations (targets : list string) (mk : string -> Listener) :
  forall w,
    (Forall (fun i => present i w) targets ->
     exists w',
       forEach (fun i => on i (mk i)) targets w = Returned tt w' /\
       ListenersAdded
         (fun k => flat_map
                     (fun i => if String.eqb i k then [mk i] else [])
                     targets) w w') /\
    (~ Forall (fun i => present i w) targets ->
     exists w',
       forEach (fun i => on i (mk i)) targets w = Thrown TypeError w').
Proof.
  induction targets as [|a l IH]; intros w.
  - split.
    + intros _. exists w. split; [reflexivity | apply ListenersAdded_none].
    + intros H. contradiction H. constructor.
  - rewrite forEach_cons_unfold. split.
    + intros HF. inversion HF as [|? ? Ha Hl]; subst.
      destruct (on_adds a (mk a) w Ha) as [w1 [E1 A1]]. rewrite E1.
      destruct (IH w1) as [IHok _].
      destruct IHok as [w' [E' A']].
      { eapply Forall_impl; [|exact Hl].
        intros i Hi. now apply (present_ListenersAdded _ i w w1 A1). }
      exists w'. split; [exact E'|].
      eapply ListenersAdded_then in A'; [|exact A1]. simpl.
      destruct A' as [T [K [L O]]]. repeat split; auto.
    + intros Hn.
      destruct (lookup a (graph w)) as [o|] eqn:Ho.
      * assert (Ha : present a w) by (unfold present; congruence).
        destruct (on_adds a (mk a) w Ha) as [w1 [E1 A1]]. rewrite E1.
        apply IH. intros HF. apply Hn. constructor; [exact Ha|].
        eapply Forall_impl; [|exact HF].
        intros i Hi. now apply (present_ListenersAdded _ i w w1 A1).
      * rewrite on_unfold, Ho. eauto.
Qed.

Lemma setupListeners_loop (self : string) (ds : list Dependency) :
  forall w,
    (Forall (fun i => present i w) (flat_map term_ids ds) ->
     exists w',
       forEach
         (fun dependency =>
            match dependency with
            | AnyOf l =>
                forEach
                  (fun element => on element (OnAlternative self l element)) l
            | Single d => on d (OnSingle self)
            end) ds w = Returned tt w' /\
       ListenersAdded (listenersFor self ds) w w') /\
    (~ Forall (fun i => present i w) (flat_map term_ids ds) ->
     exists w',
       forEach
         (fun dependency =>
            match dependency with
            | AnyOf l =>
                forEach
                  (fun element => on element (OnAlternative self l element)) l
            | Single d => on d (OnSingle self)
            end) ds w = Thrown TypeError w').
Proof.
  induction ds as [|d ds IH]; intros w.
  - split.
    + intros _. exists w. split; [reflexivity | apply ListenersAdded_none].
    + intros H. contradiction H. constructor.
  - rewrite forEach_cons_unfold. simpl flat_map.
    assert (Hd : (Forall (fun i => present i w) (term_ids d) ->
                  exists w1,
                    match d with
                    | AnyOf l =>
                        forEach
                          (fun element =>
                             on element (OnAlternative self l element)) l
                    | Single d0 => on d0 (OnSingle self)
                    end w = Returned tt w1 /\
                    ListenersAdded (listenersFor self [d]) w w1) /\
                 (~ Forall (fun i => present i w) (term_ids d) ->
                  exists w1,
                    match d with
                    | AnyOf l =>
                        forEach
                          (fun element =>
                             on element (OnAlternative self l element)) l
                    | Single d0 => on d0 (OnSingle self)
                    end w = Thrown TypeError w1)).
    { destruct d as [k | l].
      - destruct (registrations [k] (fun _ => OnSingle self) w) as [Ra Rb].
        simpl in Ra, Rb. unfold bind in Ra, Rb. split.
        + intros HF. destruct (Ra HF) as [w1 [E A]].
          destruct (on k (OnSingle self) w) as [[] w2 | |];
            try discriminate.
          exists w1. split; [exact E|].
          eapply ListenersAdded_ext; [|exact A].
          intros k0. unfold listenersFor. simpl. reflexivity.
        + intros HF. destruct (Rb HF) as [w1 E].
          destruct (on k (OnSingle self) w) as [[] w2 | e w2 |];
            try discriminate.
          injection E as -> <-. eauto.
      - destruct (registrations l (fun e => OnAlternative self l e) w)
          as [Ra Rb].
        split.
        + intros HF. destruct (Ra HF) as [w1 [E A]].
          exists w1. split; [exact E|].
          eapply ListenersAdded_ext; [|exact A].
          intros k0. unfold listenersFor. simpl. now rewrite app_nil_r.
        + exact Rb. }
    destruct Hd as [Hok Hfail]. split.
    + intros HF. apply Forall_app in HF as [HFd HFr].
      destruct (Hok HFd) as [w1 [E1 A1]]. rewrite E1.
      destruct (IH w1) as [IHok _].
      destruct IHok as [w' [E' A']].
      { eapply Forall_impl; [|exact HFr].
        intros i Hi. now apply (present_ListenersAdded _ i w w1 A1). }
      exists w'. split; [exact E'|].
      eapply ListenersAdded_then in A'; [|exact A1].
      eapply ListenersAdded_ext; [|exact A'].
      intros k0. unfold listenersFor. simpl. now rewrite app_nil_r.
    + intros Hn.
      destruct (Forall_dec (fun i => present i w)) with (l := term_ids d)
        as [HFd | HFd].
      { intros i. unfold present.
        destruct (lookup i (graph w)); [left | right]; congruence. }
      * destruct (Hok HFd) as [w1 [E1 A1]]. rewrite E1.
        apply IH. intros HF. apply Hn. apply Forall_app. split; [exact HFd|].
        eapply Forall_impl; [|exact HF].
        intros i Hi. now apply (present_ListenersAdded _ i w w1 A1).
      * destruct (Hfail HFd) as [w1 E1]. rewrite E1. eauto.
Qed.

(** X11. [setupListeners()] goes through exactly when every id the
    dependency terms refer to is in the graph.  It then registers on each
    object one closure per occurrence of its id in the terms, in order and
    after the listeners the object already has, and changes nothing else;
    otherwise the lookup of the first missing object throws. *)
Theorem setupListeners_registers_one_listener_per_reference
        (self : string) (this : CannoliObject) (w : World) :
  lookup self (graph w) = Some this ->
  (Forall (fun i => present i w) (referencedIds this) ->
   exists w',
     setupListeners self w = Returned tt w' /\
     ListenersAdded (listenersFor self (dependencies this)) w w') /\
  (~ Forall (fun i => present i w) (referencedIds this) ->
   exists w', setupListeners self w = Thrown TypeError w').
Proof.
  intros Hself. unfold setupListeners, bind, getObject. rewrite Hself.
  apply setupListeners_loop.
Qed.


(** X12. [reset()] on an object of the graph returns: the object is
    Pending, the write and its event are on the trace, and that is all.
    No listener reacts to a Pending notification, so no other object is
    touched, whatever depends on the object. *)
Theorem reset_returns_object_to_pending
        (n : nat) (self : string) (this : CannoliObject) (ctx : Run)
        (w : World) :
  lookup self (graph w) = Some this ->
  reset (S n) self ctx w =
  Returned tt
    {| graph := update self (with_status Pending) (graph w);
       trace := trace w ++
                [StatusWrite self Pending; EmitUpdate self Pending ctx] |}.
Proof.
  intros Hself. unfold reset, bind, getObject. rewrite Hself.
  rewrite setStatus_unfold.
  erewrite emit_idle;
    [|now left|simpl; rewrite lookup_update_same, Hself; reflexivity].
  simpl. now rewrite <- app_assoc.
Qed.

Lemma hasStatusb_update_other (self k : string)
      (f : CannoliObject -> CannoliObject) (s : CannoliObjectStatus)
      (g : Graph) :
  self <> k -> hasStatusb (update self f g) s k = hasStatusb g s k.
Proof.
  intros Hne. unfold hasStatusb. now rewrite lookup_update_other.
Qed.

Lemma every_statusIs_forallb (s : CannoliObjectStatus) (l : list string)
      (w : World) :
  Forall (fun i => present i w) l ->
  every (statusIs s) l w = Returned (forallb (hasStatusb (graph w) s) l) w.
Proof.
  induction l as [|k l IH]; intros HF; [reflexivity|].
  inversion HF as [|? ? Hk HF']; subst.
  rewrite every_cons, statusIs_unfold. simpl. unfold hasStatusb at 1.
  unfold present in Hk.
  destruct (lookup k (graph w)) as [o|]; [|contradiction].
  destruct (status_eqb (status o) s); simpl; auto.
Qed.

Lemma tryReject_callback_forallb
      (emit_ : string -> CannoliObjectStatus -> Run -> M unit)
      (self : string) (ctx : Run) (d : Dependency) (w : World) :
  Forall (fun i => present i w) (term_ids d) ->
  tryReject_callback emit_ self ctx d w =
  if forallb (hasStatusb (graph w) Rejected) (term_ids d)
  then (setStatus self Rejected ;; emit_ self Rejected ctx ;; ret true) w
  else Returned false w.
Proof.
  intros HF. pose proof (every_statusIs_forallb Rejected _ w HF) as E.
  destruct d as [k | l]; unfold tryReject_callback.
  - change (term_ids (Single k)) with [k] in *.
    rewrite every_cons in E. simpl forallb in *.
    rewrite andb_true_r in *. unfold bind at 1.
    destruct (statusIs Rejected k w) as [[|] w1 | |] eqn:Ek;
      try discriminate.
    + simpl in E. injection E as E <-. rewrite <- E. reflexivity.
    + injection E as E <-. rewrite <- E. reflexivity.
  - change (term_ids (AnyOf l)) with l in *.
    unfold bind at 1. rewrite E.
    destruct (forallb (hasStatusb (graph w) Rejected) l); reflexivity.
Qed.

Lemma leadingRejected_update_self (self : string)
      (f : CannoliObject -> CannoliObject) (g : Graph)
      (ds : list Dependency) :
  ~ In self (flat_map term_ids ds) ->
  leadingRejected (update self f g) ds = leadingRejected g ds.
Proof.
  induction ds as [|d ds IH]; intros Hn; simpl; [reflexivity|].
  simpl in Hn. rewrite in_app_iff in Hn.
  assert (E : forallb (hasStatusb (update self f g) Rejected) (term_ids d)
              = forallb (hasStatusb g Rejected) (term_ids d)).
  { assert (Hd : ~ In self (term_ids d)) by tauto. clear - Hd.
    induction (term_ids d) as [|k l IHl]; simpl; [reflexivity|].
    simpl in Hd.
    rewrite hasStatusb_update_other by (intros ->; apply Hd; now left).
    rewrite IHl by tauto. reflexivity. }
  rewrite E, IH by tauto. reflexivity.
Qed.

Lemma update_idem (k : string) (s : CannoliObjectStatus) (g : Graph) :
  update k (with_status s) (update k (with_status s) g)
  = update k (with_status s) g.
Proof.
  rewrite update_update. now apply update_ext.
Qed.

Lemma tryReject_scan (n : nat) (self : string) (ctx : Run)
      (ds : list Dependency) :
  forall (this : CannoliObject) (w : World),
    lookup self (graph w) = Some this ->
    listeners this = [] ->
    Forall (fun i => present i w) (flat_map term_ids ds) ->
    ~ In self (flat_map term_ids ds) ->
    exists b,
      every (tryReject_callback (emit (S n)) self ctx) ds w =
      Returned b
        {| graph := match leadingRejected (graph w) ds with
                    | O => graph w
                    | S _ => update self (with_status Rejected) (graph w)
                    end;
           trace := trace w ++
                    rejections self ctx (leadingRejected (graph w) ds) |}.
Proof.
  induction ds as [|d ds IH]; intros this w Hself Hls HF Hn.
  - exists true. simpl. unfold rejections. simpl. rewrite app_nil_r.
    destruct w; reflexivity.
  - simpl in HF, Hn. apply Forall_app in HF as [HFd HFr].
    rewrite in_app_iff in Hn.
    rewrite every_cons, (tryReject_callback_forallb _ self ctx d w HFd).
    set (later := every (tryReject_callback (emit (S n)) self ctx) ds).
    simpl leadingRejected.
    destruct (forallb (hasStatusb (graph w) Rejected) (term_ids d)).
    + unfold bind. rewrite setStatus_unfold, emit_S_unfold. simpl.
      rewrite lookup_update_same, Hself. simpl. rewrite Hls. simpl.
      set (w1 := {| graph := update self (with_status Rejected) (graph w);
                    trace := (trace w ++ [StatusWrite self Rejected]) ++
                             [EmitUpdate self Rejected ctx] |}).
      destruct (IH (with_status Rejected this) w1) as [b Hb].
      * unfold w1. simpl. now rewrite lookup_update_same, Hself.
      * exact Hls.
      * eapply Forall_impl; [|exact HFr]. unfold present, w1. simpl.
        intros i Hi.
        eapply lookup_keys; [|exact Hi]. apply update_keys.
      * tauto.
      * exists b. fold w1. unfold later. rewrite Hb. unfold w1. simpl.
        rewrite leadingRejected_update_self by tauto.
        f_equal. f_equal.
        -- destruct (leadingRejected (graph w) ds); [reflexivity|].
           apply update_idem.
        -- unfold rejections. simpl. rewrite <- !app_assoc. reflexivity.
    + exists false. unfold rejections. simpl. rewrite app_nil_r.
      destruct w; reflexivity.
Qed.

(** X13. What [tryReject] does, exactly, on an object nobody listens to
    whose dependency terms refer to objects of the graph other than
    itself: it counts the fully rejected terms at the head of the
    dependency sequence, writes Rejected and emits the event once for each
    of them, and returns [false] even when it has rejected. *)
Theorem tryReject_acts_once_per_leading_rejected_term
        (n : nat) (self : string) (this : CannoliObject) (ctx : Run)
        (w : World) :
  lookup self (graph w) = Some this ->
  listeners this = [] ->
  Forall (fun i => present i w) (referencedIds this) ->
  ~ In self (referencedIds this) ->
  tryReject (emit (S n)) self ctx w =
  Returned false
    {| graph := match leadingRejected (graph w) (dependencies this) with
                | O => graph w
                | S _ => update self (with_status Rejected) (graph w)
                end;
       trace := trace w ++
                rejections self ctx
                  (leadingRejected (graph w) (dependencies this)) |}.
Proof.
  intros Hself Hls HF Hn.
  rewrite tryReject_unfold, Hself. unfold bind.
  destruct (tryReject_scan n self ctx (dependencies this) this w
              Hself Hls HF Hn) as [b Hb].
  now rewrite Hb.
Qed.


Lemma isChain_update_outside (k : string)
      (f : CannoliObject -> CannoliObject) (g : Graph) (os : list string) :
  forall prev, ~ In k os -> isChain g prev os ->
               isChain (update k f g) prev os.
Proof.
  induction os as [|o rest IH]; intros prev Hn Hc; simpl in *; [exact I|].
  destruct Hc as [[obj [Ho [Hd Hl]]] Hrest]. split.
  - exists obj.
    rewrite lookup_update_other by (intros E; apply Hn; left; congruence).
    auto.
  - apply IH; tauto.
Qed.

Lemma rejectAll_cons (o : string) (os : list string) (g : Graph) :
  rejectAll (o :: os) g = rejectAll os (update o (with_status Rejected) g).
Proof. reflexivity. Qed.

(** X14. Rejection runs down a chain of any length.  When the object the
    chain hangs on is Rejected, one [tryReject] on the first object of the
    chain, with as much fuel as the chain is long, returns with every
    object of the chain Rejected; the trace grows by the write and the
    event of each object in chain order, so nothing is executed on the
    way. *)
Theorem rejection_runs_down_a_chain (os : list string) :
  forall (fuel : nat) (prev first : string) (rest : list string)
         (ctx : Run) (w : World),
    os = first :: rest ->
    isChain (graph w) prev os ->
    NoDup (prev :: os) ->
    hasStatus (graph w) Rejected prev ->
    (length os <= fuel)%nat ->
    tryReject (emit fuel) first ctx w =
    Returned false
      {| graph := rejectAll os (graph w);
         trace := trace w ++
                  flat_map
                    (fun o => [StatusWrite o Rejected;
                               EmitUpdate o Rejected ctx]) os |}.
Proof.
  induction os as [|o os IH];
    intros fuel prev first rest ctx w Hos Hc Hnd Hprev Hfuel;
    [discriminate|].
  injection Hos as -> ->.
  destruct fuel as [|n]; [simpl in Hfuel; lia|].
  simpl in Hc. destruct Hc as [[obj [Ho [Hd Hl]]] Hrest].
  assert (Hpp : Forall (fun i => present i w) (term_ids (Single prev))).
  { constructor; [|constructor]. destruct Hprev as [p [Hp _]].
    unfold present. congruence. }
  assert (Hrej : forallb (hasStatusb (graph w) Rejected)
                         (term_ids (Single prev)) = true).
  { simpl. unfold hasStatusb. destruct Hprev as [p [-> ->]]. reflexivity. }
  rewrite tryReject_unfold, Ho, Hd. unfold bind at 1.
  rewrite every_cons, (tryReject_callback_forallb _ first ctx _ w Hpp), Hrej.
  unfold bind at 1. rewrite setStatus_unfold.
  unfold bind at 1. rewrite emit_S_unfold.
  cbn [graph trace]. rewrite lookup_update_same, Ho.
  cbn [option_map with_status listeners]. rewrite Hl.
  set (w1 := {| graph := update first (with_status Rejected) (graph w);
                trace := (trace w ++ [StatusWrite first Rejected]) ++
                         [EmitUpdate first Rejected ctx] |}).
  inversion Hnd as [|? ? Hprev_notin Hnd']; subst.
  inversion Hnd' as [|? ? Hfirst_notin Hnd'']; subst.
  destruct rest as [|next rest'].
  - cbn. unfold w1, ret. rewrite <- app_assoc. reflexivity.
  - assert (E : tryReject (emit n) next ctx w1 =
                Returned false
                  {| graph := rejectAll (next :: rest') (graph w1);
                     trace := trace w1 ++
                              flat_map
                                (fun o => [StatusWrite o Rejected;
                                           EmitUpdate o Rejected ctx])
                                (next :: rest') |}).
    { apply (IH n first next rest' ctx w1 eq_refl).
      - unfold w1. cbn [graph].
        apply isChain_update_outside; assumption.
      - exact Hnd'.
      - unfold w1. cbn [graph]. unfold hasStatus.
        rewrite lookup_update_same, Ho. cbn. eauto.
      - simpl in Hfuel |- *. lia. }
    cbn [forEach listener dependencyUpdated].
    unfold dependencyRejected, bind. rewrite E. cbn [ret every].
    unfold w1. cbn [graph trace flat_map app].
    rewrite rejectAll_cons, <- !app_assoc. reflexivity.
Qed.

End MoreListeners.

(** ** Strings *)

Section MoreStrings.

Local Open Scope Z_scope.

Lemma string_length_append (s1 s2 : string) :
  String.length (s1 ++ s2) = (String.length s1 + String.length s2)%nat.
Proof. induction s1 as [|c s1 IH]; simpl; congruence. Qed.

Lemma substring_0_length (n : nat) (s : string) :
  String.length (String.substring 0 n s) = Nat.min n (String.length s).
Proof.
  revert n. induction s as [|c s IH]; intros [|n]; simpl; auto.
Qed.

Lemma substring_0_prefix (n : nat) (s : string) :
  String.prefix (String.substring 0 n s) s = true.
Proof.
  revert n. induction s as [|c s IH]; intros [|n]; simpl; auto.
  destruct (Ascii.ascii_dec c c); [apply IH | congruence].
Qed.

(** X15. [ensureStringLength] returns a string that fits: it leaves a
    string of at most [maxLength] code units alone, and for [maxLength] of
    3 or more it cuts a longer one down to exactly [maxLength] code units,
    a prefix of the string followed by three dots, so that applying it
    again changes nothing.  For [maxLength] below 3 a longer string comes
    out as the three dots alone, which is longer than asked for. *)
Theorem ensureStringLength_fits_from_three_up (str : string) (maxLength : Z) :
  (Z.of_nat (String.length str) <= maxLength ->
   ensureStringLength str maxLength = str) /\
  (3 <= maxLength ->
   Z.of_nat (String.length (ensureStringLength str maxLength)) <= maxLength /\
   ensureStringLength (ensureStringLength str maxLength) maxLength
     = ensureStringLength str maxLength) /\
  (3 <= maxLength -> maxLength < Z.of_nat (String.length str) ->
   Z.of_nat (String.length (ensureStringLength str maxLength)) = maxLength /\
   exists p, ensureStringLength str maxLength = (p ++ "...")%string /\
             String.prefix p str = true) /\
  (maxLength < 3 -> maxLength < Z.of_nat (String.length str) ->
   ensureStringLength str maxLength = "..."%string).
Proof.
  assert (Hcut : 3 <= maxLength -> maxLength < Z.of_nat (String.length str) ->
                 Z.of_nat (String.length
                             (substring0 str (maxLength - 3) ++ "..."))
                 = maxLength).
  { intros H3 Hlong. unfold substring0.
    rewrite string_length_append, substring_0_length. simpl. lia. }
  unfold ensureStringLength.
  split; [|split; [|split]].
  - intros Hshort.
    destruct (Z.of_nat (String.length str) >? maxLength) eqn:E;
      [|reflexivity].
    apply Z.gtb_lt in E. lia.
  - intros H3.
    destruct (Z.of_nat (String.length str) >? maxLength) eqn:E.
    + apply Z.gtb_lt in E. rewrite (Hcut H3 E). split; [lia|].
      destruct (maxLength >? maxLength) eqn:E'; [|reflexivity].
      apply Z.gtb_lt in E'. lia.
    + rewrite E. split; [|reflexivity].
      destruct (Z.gtb_spec (Z.of_nat (String.length str)) maxLength);
        [discriminate | lia].
  - intros H3 Hlong.
    destruct (Z.of_nat (String.length str) >? maxLength) eqn:E.
    + split; [now apply Hcut|].
      exists (substring0 str (maxLength - 3)). split; [reflexivity|].
      apply substring_0_prefix.
    + destruct (Z.gtb_spec (Z.of_nat (String.length str)) maxLength);
        [discriminate | lia].
  - intros Hsmall Hlong.
    destruct (Z.of_nat (String.length str) >? maxLength) eqn:E.
    + unfold substring0.
      replace (Z.to_nat (maxLength - 3)) with O by lia.
      destruct str; reflexivity.
    + destruct (Z.gtb_spec (Z.of_nat (String.length str)) maxLength);
        [discriminate | lia].
Qed.

End MoreStrings.

(** ** Edge references of a vertex *)

Section MoreVertices.






End MoreVertices.

(** ** More on hydration *)

Section MoreHydration.

Import Hydration.

Lemma hydrateNodes_app (pre rest : list CanvasElement) (g : HydratedGraph)
      (c : list string) :
  hydrateNodes (pre ++ rest) g c =
  match hydrateNodes pre g c with
  | Hydrated g' c' => hydrateNodes rest g' c'
  | Failed m g' c' => Failed m g' c'
  end.
Proof.
  revert g c. induction pre as [|n pre IH]; intros g c; simpl; [reflexivity|].
  destruct (nodeSwitch (cannoliType n)); auto.
Qed.

Lemma hydrateNodes_recognized (ns : list CanvasElement) (g : HydratedGraph)
      (c : list string) :
  Forall (fun n => recognized (cannoliType n) = true) ns ->
  exists g' c', hydrateNodes ns g c = Hydrated g' c'.
Proof.
  intros HF.
  destruct (hydrateNodes ns g c) as [g' c' | m g' c'] eqn:E; [eauto|].
  assert (H : exists m g' c', hydrateNodes ns g c = Failed m g' c') by eauto.
  apply hydrateNodes_fails_iff in H as [n [Hin Hr]].
  rewrite Forall_forall in HF. rewrite (HF n Hin) in Hr. discriminate.
Qed.

Lemma entry_assign_some (k k' : string) (v : Instance) (g : HydratedGraph) :
  entry k (assign k' v g) <> None <-> k = k' \/ entry k g <> None.
Proof.
  rewrite entry_assign. destruct (String.eqb k k') eqn:E.
  - apply String.eqb_eq in E. split; [auto | discriminate].
  - apply String.eqb_neq in E. tauto.
Qed.

Lemma hydrateNodes_domain (ns : list CanvasElement) :
  forall (g : HydratedGraph) (c : list string)
         (g' : HydratedGraph) (c' : list string),
    hydrateNodes ns g c = Hydrated g' c' ->
    (forall k,
       entry k g' <> None <->
       entry k g <> None \/
       exists n, In n ns /\ element_id n = k /\ constructs n = true) /\
    c' = c ++ flat_map consoleOf ns.
Proof.
  induction ns as [|n ns IH]; intros g c g' c'; simpl.
  - intros [= <- <-]. split; [|now rewrite app_nil_r].
    intros k. split; [auto|]. intros [H | [n [[] _]]]. exact H.
  - unfold consoleOf at 1.
    destruct (nodeSwitch (cannoliType n)) as [cl | msg | msg] eqn:Sw;
      intros H; try discriminate.
    + destruct (IH _ _ _ _ H) as [Hd Hc]. split; [|exact Hc].
      intros k. rewrite Hd, entry_assign_some. split.
      * intros [[Hk | Hk] | [n' [Hin Hn']]].
        -- right. exists n. unfold constructs. rewrite Sw. auto.
        -- left. exact Hk.
        -- right. exists n'. tauto.
      * intros [Hk | [n' [[Hn | Hin] [Hid Hcn]]]].
        -- left. right. exact Hk.
        -- left. left. subst. reflexivity.
        -- right. exists n'. auto.
    + destruct (IH _ _ _ _ H) as [Hd Hc]. split.
      * intros k. rewrite Hd. split.
        -- intros [Hk | [n' [Hin Hn']]].
           ++ left. exact Hk.
           ++ right. exists n'. tauto.
        -- intros [Hk | [n' [[Hn | Hin] [Hid Hcn]]]].
           ++ left. exact Hk.
           ++ subst n'. unfold constructs in Hcn. rewrite Sw in Hcn.
              discriminate.
           ++ right. exists n'. auto.
      * rewrite Hc, <- app_assoc. reflexivity.
Qed.

Lemma hydrateEdges_domain (es : list CanvasElement) :
  forall (g : HydratedGraph) (k : string),
    entry k (hydrateEdges es g) <> None <->
    entry k g <> None \/ In k (map element_id es).
Proof.
  induction es as [|e es IH]; intros g k; simpl; [tauto|].
  rewrite IH, entry_assign_some. split.
  - intros [[-> | H] | H]; auto.
  - intros [H | [<- | H]]; auto.
Qed.

(** X18. Of the type tags the graph module declares for nodes and groups,
    the node [switch] has no case for three: "while", "non-logic" and
    "variable".  A canvas that holds a node with one of them cannot be
    hydrated; every other declared tag passes the [switch]. *)
Theorem declared_types_without_a_case (t : string) :
  In t declaredNodeTypes ->
  (recognized (Some t) = false <->
   In t ["while"; "non-logic"; "variable"]) /\
  (In t ["while"; "non-logic"; "variable"] ->
   forall data n,
     In n (nodes data) -> cannoliType n = Some t ->
     exists m g c, constructor data = Failed m g c).
Proof.
  intros Hin. split.
  - unfold declaredNodeTypes, GroupType_values, CallNodeType_values,
      ContentNodeType_values, FloatingNodeType_values in Hin.
    simpl in Hin.
    repeat (destruct Hin as [<- | Hin];
            [vm_compute; split;
             [ intros H; try discriminate H; tauto
             | intros H; try reflexivity;
               repeat (destruct H as [H | H]; [discriminate H|]);
               contradiction ]|]).
    contradiction.
  - intros Hbad data n Hn Ht.
    assert (Hr : recognized (cannoliType n) = false).
    { rewrite Ht. destruct Hbad as [<- | [<- | [<- | []]]]; reflexivity. }
    unfold constructor, hydrateGraph.
    destruct (proj2 (hydrateNodes_fails_iff (nodes data) [] [])
                    (ex_intro _ n (conj Hn Hr))) as [m [g [c E]]].
    rewrite E. eauto.
Qed.

(** X19. When hydration goes through, the graph has an entry under
    exactly the ids of the nodes whose case builds an object and of the
    edges, and the console holds, in node order, one message for each
    node whose case only logs. *)
Theorem hydrated_graph_has_exactly_the_built_objects
        (data : VerifiedCannoliCanvasData) (g : HydratedGraph)
        (c : list string) :
  constructor data = Hydrated g c ->
  (forall k,
     entry k g <> None <->
     (exists n, In n (nodes data) /\ element_id n = k /\
                constructs n = true) \/
     In k (map element_id (edges data))) /\
  c = flat_map consoleOf (nodes data).
Proof.
  unfold constructor, hydrateGraph.
  destruct (hydrateNodes (nodes data) [] []) as [g' c' | m g' c'] eqn:E;
    [|discriminate].
  intros [= <- <-].
  destruct (hydrateNodes_domain _ _ _ _ _ E) as [Hd Hc].
  split; [|exact Hc].
  intros k. rewrite hydrateEdges_domain, Hd. simpl. tauto.
Qed.

Lemma hydrateNodes_entry_last (post : list CanvasElement) :
  forall (g : HydratedGraph) (c : list string)
         (g' : HydratedGraph) (c' : list string) (k : string),
    hydrateNodes post g c = Hydrated g' c' ->
    (forall n', In n' post -> element_id n' = k -> constructs n' = false) ->
    entry k g' = entry k g.
Proof.
  induction post as [|a post IH]; intros g c g' c' k; simpl.
  - intros [= <- <-] _. reflexivity.
  - intros H Hn.
    pose proof (Hn a (or_introl eq_refl)) as Ha. unfold constructs in Ha.
    destruct (nodeSwitch (cannoliType a)) as [cl | msg | msg];
      try discriminate.
    + rewrite (IH _ _ _ _ k H) by auto.
      rewrite entry_assign.
      destruct (String.eqb k (element_id a)) eqn:E; [|reflexivity].
      apply String.eqb_eq in E. symmetry in E.
      specialize (Ha E). discriminate.
    + apply (IH _ _ _ _ k H). auto.
Qed.

(** X20. The last write wins.  When hydration goes through, the entry
    under the id of an edge is the object built from the last edge with
    that id, whatever node has the same id; and the entry under the id of a
    node whose case builds an object is that object, provided no later
    node with the same id builds one and no edge has the id. *)
Theorem hydration_last_write_wins
        (data : VerifiedCannoliCanvasData) (g : HydratedGraph)
        (c : list string) :
  constructor data = Hydrated g c ->
  (forall pre e post,
     edges data = pre ++ e :: post ->
     ~ In (element_id e) (map element_id post) ->
     entry (element_id e) g = Some (new (edgeSwitch (cannoliType e)) e)) /\
  (forall pre n post inst,
     nodes data = pre ++ n :: post ->
     builtFrom n = Some inst ->
     (forall n', In n' post -> element_id n' = element_id n ->
                 constructs n' = false) ->
     ~ In (element_id n) (map element_id (edges data)) ->
     entry (element_id n) g = Some inst).
Proof.
  unfold constructor, hydrateGraph.
  destruct (hydrateNodes (nodes data) [] []) as [g' c' | m g' c'] eqn:E;
    [|discriminate].
  intros [= <- <-]. split.
  - intros pre e post He Hlast. rewrite He.
    clear He E. revert g'.
    induction pre as [|a pre IH]; intros g'; simpl.
    + rewrite hydrateEdges_entry_other by exact Hlast.
      now rewrite entry_assign, String.eqb_refl.
    + apply IH.
  - intros pre n post inst Hn Hb Hlater Hedge.
    rewrite hydrateEdges_entry_other by exact Hedge.
    rewrite Hn, hydrateNodes_app in E.
    destruct (hydrateNodes pre [] []) as [g1 c1 | m1 g1 c1]; [|discriminate].
    simpl in E. unfold builtFrom in Hb.
    destruct (nodeSwitch (cannoliType n)) as [cl | msg | msg];
      try discriminate.
    injection Hb as <-.
    rewrite (hydrateNodes_entry_last post _ _ _ _ (element_id n) E Hlater).
    now rewrite entry_assign, String.eqb_refl.
Qed.

(** X21. A failed hydration stops half way: when the first node without a
    case comes after nodes that all have one, the constructor throws the
    unknown-type error for that node with the graph and the console as
    the nodes before it left them; no later node and no edge has been
    looked at. *)
Theorem failed_hydration_keeps_earlier_nodes
        (data : VerifiedCannoliCanvasData)
        (pre post : list CanvasElement) (n : CanvasElement) :
  nodes data = pre ++ n :: post ->
  Forall (fun n' => recognized (cannoliType n') = true) pre ->
  recognized (cannoliType n) = false ->
  exists g c,
    hydrateNodes pre [] [] = Hydrated g c /\
    constructor data
      = Failed ("Unknown node type: " ++ show (cannoliType n)) g c /\
    (forall k,
       entry k g <> None <->
       exists n', In n' pre /\ element_id n' = k /\ constructs n' = true) /\
    c = flat_map consoleOf pre.
Proof.
  intros Hn Hpre Hbad.
  destruct (hydrateNodes_recognized pre [] [] Hpre) as [g [c E]].
  exists g, c. split; [exact E|].
  destruct (hydrateNodes_domain _ _ _ _ _ E) as [Hd Hc].
  split; [|split; [|exact Hc]].
  - unfold constructor, hydrateGraph.
    rewrite Hn, hydrateNodes_app, E. simpl.
    apply nodeSwitch_throws_iff in Hbad as [m Hm].
    rewrite Hm. now rewrite (nodeSwitch_message _ _ Hm).
  - intros k. rewrite Hd. simpl. split; [|auto].
    intros [H | H]; [contradiction | exact H].
Qed.

End MoreHydration.

(** ** Rejection in a cycle *)

Section MoreCycles.

Lemma dependsAndListens_update (k : string) (s : CannoliObjectStatus)
      (g : Graph) (a b : string) :
  dependsAndListens g a b ->
  dependsAndListens (update k (with_status s) g) a b.
Proof.
  intros [o [Ho [Hd Hl]]]. unfold dependsAndListens.
  destruct (String.eqb k a) eqn:E.
  - apply String.eqb_eq in E. subst k.
    rewrite lookup_update_same, Ho. simpl. eauto.
  - apply String.eqb_neq in E. rewrite lookup_update_other by exact E.
    eauto.
Qed.

(** X22. Rejection never settles in a cycle.  When two objects depend
    solely on each other and listen to each other, and one of them is
    Rejected, [tryReject] on the other one recurses through [emit] without
    end: no amount of fuel lets it return or throw. *)
Theorem rejection_in_a_cycle_never_settles (fuel : nat) :
  forall (a b : string) (ctx : Run) (w : World),
    inCycle (graph w) a b ->
    hasStatus (graph w) Rejected b ->
    tryReject (emit fuel) a ctx w = Exhausted.
Proof.
  induction fuel as [|n IH]; intros a b ctx w [Hab Hba] Hb;
    pose proof Hab as [oa [Hoa [Hda Hla]]].
  - rewrite tryReject_unfold, Hoa, Hda. unfold bind at 1.
    rewrite every_cons.
    rewrite (tryReject_callback_rejected_term _ a ctx (Single b) w)
      by (constructor; [exact Hb | constructor]).
    reflexivity.
  - rewrite tryReject_unfold, Hoa, Hda. unfold bind at 1.
    rewrite every_cons.
    rewrite (tryReject_callback_rejected_term _ a ctx (Single b) w)
      by (constructor; [exact Hb | constructor]).
    unfold bind at 1. rewrite setStatus_unfold.
    unfold bind at 1. rewrite emit_S_unfold.
    cbn [graph trace]. rewrite lookup_update_same, Hoa.
    cbn [option_map with_status listeners]. rewrite Hla.
    cbn [forEach listener dependencyUpdated].
    unfold dependencyRejected, bind.
    rewrite (IH b a ctx).
    + reflexivity.
    + cbn [graph]. split; apply dependsAndListens_update; assumption.
    + cbn [graph]. unfold hasStatus.
      rewrite lookup_update_same, Hoa. cbn. eauto.
Qed.

End MoreCycles.

(** ** Names of a canvas file *)

Section MoreNames.

Lemma substring_0_append (x y : string) :
  String.substring 0 (String.length x) (x ++ y) = x.
Proof.
  induction x as [|c x IH]; simpl.
  - destruct y; reflexivity.
  - now rewrite IH.
Qed.

Lemma substring_skip_append (x y : string) :
  String.substring (String.length x) (String.length y) (x ++ y) = y.
Proof.
  induction x as [|c x IH]; simpl; [|exact IH].
  rewrite <- (substring_0_append y "") at 2.
  clear. induction y as [|c y IH]; simpl; [reflexivity|].
  now rewrite IH.
Qed.

Lemma endsWith_append (x suffix : string) :
  endsWith (x ++ suffix) suffix = true.
Proof.
  unfold endsWith. rewrite string_length_append.
  replace (String.length x + String.length suffix - String.length suffix)%nat
    with (String.length x) by lia.
  rewrite substring_skip_append, String.eqb_refl, andb_true_r.
  apply Nat.leb_le. lia.
Qed.

Lemma sliceOffFour_append (x suffix : string) :
  String.length suffix = 4%nat -> sliceOffFour (x ++ suffix) = x.
Proof.
  intros H4. unfold sliceOffFour. rewrite string_length_append, H4.
  replace (String.length x + 4 - 4)%nat with (String.length x) by lia.
  apply substring_0_append.
Qed.

(** X23. The names shown for a canvas file.  The notice name of a file
    whose base name ends in ".cno" is the base name without that ending,
    and any other base name is shown as it is; the command name is "Run "
    followed by the base name without its last four code units, which is
    the notice name exactly when the base name ends in ".cno" or is
    empty. *)
Theorem names_of_a_canvas_file (basename x : string) :
  noticeName (x ++ ".cno") = x /\
  commandName (x ++ ".cno") = ("Run " ++ x)%string /\
  (endsWith basename ".cno" = false -> noticeName basename = basename) /\
  (commandName basename = ("Run " ++ noticeName basename)%string <->
   endsWith basename ".cno" = true \/ basename = ""%string).
Proof.
  split; [|split; [|split]].
  - unfold noticeName. rewrite endsWith_append.
    now apply sliceOffFour_append.
  - unfold commandName. now rewrite sliceOffFour_append.
  - intros H. unfold noticeName. now rewrite H.
  - unfold commandName, noticeName.
    destruct (endsWith basename ".cno") eqn:E.
    + split; [now left | reflexivity].
    + split.
      * intros H. right. injection H as H.
        assert (L : String.length (sliceOffFour basename)
                    = String.length basename) by now rewrite H.
        unfold sliceOffFour in L. rewrite substring_0_length in L.
        destruct basename as [|c s]; [reflexivity|].
        simpl in L. lia.
      * intros [H | ->]; [discriminate | reflexivity].
Qed.

End MoreNames.

(** ** Executing a second alternative *)

Section MoreExecution.

Lemma execute_then_notify (n : nat) (self : string) (this : CannoliObject)
      (ctx : Run) (w : World) :
  lookup self (graph w) = Some this ->
  execute (S n) self ctx w =
  forEach (fun l => listener (emit n) l self Complete ctx) (listeners this)
    {| graph := update self (with_status Complete) (graph w);
       trace := trace w ++
                [ StatusWrite self Executing;
                  EmitUpdate self Executing ctx;
                  Call (if isMock ctx then MockRunMethod else RunMethod) self;
                  StatusWrite self Complete;
                  EmitUpdate self Complete ctx ] |}.
Proof.
  intros Hself. unfold execute, bind, getObject. rewrite Hself.
  rewrite setStatus_unfold.
  erewrite emit_idle;
    [|now right|simpl; rewrite lookup_update_same, Hself; reflexivity].
  assert (Hu : (if isMock ctx then mockRun self else run self)
                 {| graph := update self (with_status Executing) (graph w);
                    trace := (trace w ++ [StatusWrite self Executing]) ++
                             [EmitUpdate self Executing ctx] |}
               = Returned tt
                   {| graph := update self (with_status Executing) (graph w);
                      trace := ((trace w ++ [StatusWrite self Executing]) ++
                                [EmitUpdate self Executing ctx]) ++
                               [Call (if isMock ctx
                                      then MockRunMethod else RunMethod)
                                     self] |}).
  { destruct (isMock ctx); reflexivity. }
  simpl. simpl in Hu. rewrite Hu.
  unfold bind, getObject, record. simpl.
  rewrite lookup_update_same, lookup_update_same, Hself. simpl.
  rewrite update_update.
  rewrite (update_ext self _ (with_status Complete)) by reflexivity.
  rewrite <- !app_assoc. reflexivity.
Qed.

Lemma two_complete_members (g : Graph) (l : list string) (a b : string) :
  a <> b -> In a l -> In b l ->
  hasStatusb g Complete a = true -> hasStatusb g Complete b = true ->
  (1 < completeCount g l)%nat.
Proof.
  intros Hne Ha Hb Ca Cb. unfold completeCount.
  change (fun d => match lookup d g with
                   | Some o => status_eqb (status o) Complete
                   | None => false
                   end) with (hasStatusb g Complete).
  assert (Hincl : incl [a; b] (filter (hasStatusb g Complete) l)).
  { intros i [<- | [<- | []]]; apply filter_In; auto. }
  assert (Hnd : NoDup [a; b]).
  { constructor; [intros [H | []]; congruence|].
    constructor; [intros [] | constructor]. }
  pose proof (NoDup_incl_length Hnd Hincl) as Hlen. simpl in Hlen. lia.
Qed.

(** X24. Alternatives exclude each other.  Let [a] and [b] be two members
    of one alternative set of an object [d] whose members are all in the
    graph, let [d]'s closure be the only listener of [b], and let [a] be
    Complete.  Then [execute] on [b] throws the conflicting-alternatives
    error of [d]; by then [b] has been written Complete and both of its
    events have been emitted, and nothing else has changed. *)
Theorem executing_a_second_alternative_throws
        (n : nat) (a b d : string) (l : list string) (ob : CannoliObject)
        (ctx : Run) (w : World) :
  a <> b -> In a l -> In b l ->
  Forall (fun i => present i w) l ->
  hasStatus (graph w) Complete a ->
  lookup b (graph w) = Some ob ->
  listeners ob = [OnAlternative d l b] ->
  execute (S n) b ctx w =
  Thrown (ConflictingAlternativesError d)
    {| graph := update b (with_status Complete) (graph w);
       trace := trace w ++
                [ StatusWrite b Executing;
                  EmitUpdate b Executing ctx;
                  Call (if isMock ctx then MockRunMethod else RunMethod) b;
                  StatusWrite b Complete;
                  EmitUpdate b Complete ctx ] |}.
Proof.
  intros Hne Ha Hb HF [oa [Hoa Hsa]] Hob Hls.
  rewrite (execute_then_notify n b ob ctx w Hob), Hls.
  rewrite forEach_cons_unfold.
  rewrite alternative_listener_cases.
  - cbn [graph status_eqb andb].
    assert (Hc : (1 < completeCount
                        (update b (with_status Complete) (graph w)) l)%nat).
    { apply (two_complete_members _ l a b Hne Ha Hb).
      - unfold hasStatusb. rewrite lookup_update_other by congruence.
        rewrite Hoa, Hsa. reflexivity.
      - unfold hasStatusb. rewrite lookup_update_same, Hob. reflexivity. }
    apply Nat.ltb_lt in Hc. rewrite Hc. reflexivity.
  - cbn [graph]. eapply Forall_impl; [|exact HF].
    intros i Hi. eapply lookup_keys; [|exact Hi]. apply update_keys.
Qed.

End MoreExecution.

(* ===================================================================== *)
(** * Part V. The further properties at work on sample graphs             *)
(* ===================================================================== *)

Section Showcase.

Local Open Scope Z_scope.

(** The rectangles of [nested] are nested, and enclosure passes along. *)
Lemma enclosure_along_nested :
  encloses (createRectangle 0 0 25 20) (createRectangle 10 10 10 10) = true /\
  encloses (createRectangle 10 10 10 10) (createRectangle 12 12 5 5) = true /\
  encloses (createRectangle 0 0 25 20) (createRectangle 12 12 5 5) = true.
Proof.
  assert (H1 : encloses (createRectangle 0 0 25 20)
                        (createRectangle 10 10 10 10) = true) by reflexivity.
  assert (H2 : encloses (createRectangle 10 10 10 10)
                        (createRectangle 12 12 5 5) = true) by reflexivity.
  split; [exact H1|]. split; [exact H2|].
  exact (proj1 (proj2 (encloses_is_a_partial_order
                         0 0 0 0 0 0 0 0
                         (createRectangle 0 0 25 20)
                         (createRectangle 10 10 10 10)
                         (createRectangle 12 12 5 5))) H1 H2).
Defined.

(** Two squares that overlap share a point. *)
Lemma overlapping_squares_share_a_point :
  overlaps (createRectangle 0 0 10 10) (createRectangle 5 5 10 10) = true /\
  exists px py,
    strictlyInside (createRectangle 0 0 10 10) px py /\
    strictlyInside (createRectangle 5 5 10 10) px py.
Proof.
  assert (H : overlaps (createRectangle 0 0 10 10)
                       (createRectangle 5 5 10 10) = true) by reflexivity.
  split; [exact H|].
  assert (L1 : 0 < 0 + 10) by lia.
  assert (L2 : 5 < 5 + 10) by lia.
  exact (proj1 (proj1 (overlaps_iff_common_interior_point
                         (createRectangle 0 0 10 10)
                         (createRectangle 5 5 10 10) L1 L1 L2 L2) H)).
Defined.

(** [setGroups] on the node of [nested] touches the node only. *)
Lemma setGroups_on_nested_changes_only_groups :
  lookup "n" (graph nested) = Some (vertexAt "n" CanvasText 12 12 5 5) /\
  exists w',
    setGroups "n" nested = Returned tt w' /\
    trace w' = trace nested /\
    lookup "G1" (graph w') = lookup "G1" (graph nested) /\
    setGroups "n" w' = Returned tt w'.
Proof.
  assert (Hn : lookup "n" (graph nested)
               = Some (vertexAt "n" CanvasText 12 12 5 5)) by reflexivity.
  split; [exact Hn|].
  destruct (setGroups_changes_only_groups "n" _ _ nested Hn eq_refl)
    as [w' [Hrun [Htr [_ [Hk [_ Hidem]]]]]].
  exists w'. split; [exact Hrun|]. split; [exact Htr|].
  split; [|exact Hidem].
  apply Hk. discriminate.
Defined.

(** The node and the inner group of [nested], in either order. *)
Lemma setGroups_on_nested_commute :
  exists w',
    (setGroups "n" ;; setGroups "G1") nested = Returned tt w' /\
    (setGroups "G1" ;; setGroups "n") nested = Returned tt w'.
Proof.
  assert (Hne : "n"%string <> "G1"%string) by discriminate.
  assert (Hn : lookup "n" (graph nested)
               = Some (vertexAt "n" CanvasText 12 12 5 5)) by reflexivity.
  assert (Hg : lookup "G1" (graph nested)
               = Some (vertexAt "G1" CanvasGroup 10 10 10 10))
    by reflexivity.
  exact (setGroups_calls_commute "n" "G1" _ _ _ _ nested Hne
           Hn eq_refl Hg eq_refl).
Defined.

(** The node of [nested] inherits the groups of G1. *)
Lemma node_inherits_groups_of_G1 :
  groupsOf (graph (worldAfter (setGroups "n") nested)) "n"
    = Some ["G1"; "G2"]%string /\
  groupsOf (graph (worldAfter (setGroups "G1") nested)) "G1"
    = Some ["G1"; "G2"]%string /\
  In "G1"%string ["G1"; "G2"]%string /\
  incl ["G1"; "G2"]%string ["G1"; "G2"]%string.
Proof.
  split; [reflexivity|]. split; [reflexivity|].
  assert (Hn : lookup "n" (graph nested)
               = Some (vertexAt "n" CanvasText 12 12 5 5)) by reflexivity.
  assert (Hg : lookup "G1" (graph nested)
               = Some (vertexAt "G1" CanvasGroup 10 10 10 10))
    by reflexivity.
  assert (He : EnclosingGroup
                 (Canvas.mk CanvasText 12 12 5 5)
                 (vertexAt "G1" CanvasGroup 10 10 10 10)).
  { eexists. split; [reflexivity|]. simpl. repeat split; lia. }
  exact (setGroups_inherits_groups_of_enclosing_group
           "n" "G1" _ _ _ nested
           (worldAfter (setGroups "n") nested)
           (worldAfter (setGroups "G1") nested)
           ["G1"; "G2"]%string ["G1"; "G2"]%string
           Hn eq_refl Hg He eq_refl eq_refl eq_refl eq_refl).
Defined.

(** The second of the [twins] keeps its twin ahead of it. *)
Lemma twins_keep_enumeration_order :
  exists w' sorted,
    setGroups "g2" twins = Returned tt w' /\
    groupsOf (graph w') "g2" = Some (map id sorted) /\
    filter (fun o => area o =? 100) sorted
    = [vertexAt "g1" CanvasGroup 0 0 10 10;
       vertexAt "g2" CanvasGroup 0 0 10 10].
Proof.
  assert (Hg : lookup "g2" (graph twins)
               = Some (vertexAt "g2" CanvasGroup 0 0 10 10)) by reflexivity.
  destruct (setGroups_keeps_enumeration_order_among_equal_areas
              "g2" _ _ twins Hg eq_refl)
    as [w' [sorted [Hrun [Hgs Hz]]]].
  exists w', sorted. split; [exact Hrun|]. split; [exact Hgs|].
  rewrite (Hz 100). reflexivity.
Defined.



(** The object of [lonely]. *)
Lemma lonely_object_waits_for_nothing :
  lookup "x" (graph lonely) = Some (newCannoliObject "x" "hello" false) /\
  allDependenciesComplete "x" lonely = Returned true lonely /\
  tryReject (emit 3) "x" live lonely = Returned false lonely /\
  setupListeners "x" lonely = Returned tt lonely.
Proof.
  assert (Hx : lookup "x" (graph lonely)
               = Some (newCannoliObject "x" "hello" false)) by reflexivity.
  split; [exact Hx|].
  exact (proj2 (fresh_object_has_nothing_to_wait_for
                  "x" "x" "hello" false lonely 3 live Hx)).
Defined.


(** Two disjoint terms are accepted on D of [fresh4]. *)
Lemma disjoint_terms_accepted_on_fresh4 :
  lookup "D" (graph fresh4) = Some (newCannoliObject "D" "" false) /\
  ForallOrdPairs sharesNoId [Single "A"; AnyOf ["B"; "C"]] /\
  exists w',
    forEach (addDependency "D") [Single "A"; AnyOf ["B"; "C"]] fresh4
      = Returned tt w' /\
    lookup "D" (graph w')
      = Some (with_dependencies [Single "A"; AnyOf ["B"; "C"]]
                (newCannoliObject "D" "" false)).
Proof.
  assert (Hd : lookup "D" (graph fresh4)
               = Some (newCannoliObject "D" "" false)) by reflexivity.
  assert (Hp : ForallOrdPairs sharesNoId [Single "A"; AnyOf ["B"; "C"]]).
  { constructor; [|constructor; [constructor | constructor]].
    constructor; [|constructor].
    intros i [<- | []] [H | [H | []]]; discriminate. }
  split; [exact Hd|]. split; [exact Hp|].
  destruct (addDependency_accepts_exactly_disjoint_terms
              "D" _ [Single "A"; AnyOf ["B"; "C"]] fresh4 Hd eq_refl)
    as [Hiff Hres].
  destruct (proj2 Hiff Hp) as [w' Hrun].
  exists w'. split; [exact Hrun|].
  exact (proj1 (Hres w' Hrun)).
Defined.

(** [setupListeners] of D in [choice]. *)
Lemma setupListeners_on_choice :
  lookup "D" (graph choice)
    = Some (plain "D" Pending [AnyOf ["A"; "B"; "C"]]) /\
  Forall (fun i => present i choice) ["A"; "B"; "C"]%string /\
  exists w',
    setupListeners "D" choice = Returned tt w' /\
    listenersOf (graph w') "B"
      = [OnAlternative "D" ["A"; "B"; "C"] "B"] /\
    trace w' = trace choice.
Proof.
  assert (Hd : lookup "D" (graph choice)
               = Some (plain "D" Pending [AnyOf ["A"; "B"; "C"]]))
    by reflexivity.
  assert (Hp : Forall (fun i => present i choice) ["A"; "B"; "C"]%string)
    by (repeat constructor; discriminate).
  split; [exact Hd|]. split; [exact Hp|].
  destruct (proj1 (setupListeners_registers_one_listener_per_reference
                     "D" _ choice Hd) Hp)
    as [w' [Hrun [Htr [_ [Hl _]]]]].
  exists w'. split; [exact Hrun|]. split; [|exact Htr].
  rewrite (Hl "B"%string). reflexivity.
Defined.

(** [reset] of B in [chainListening]; C, which listens to B, is not
    touched. *)
Lemma reset_on_chain :
  lookup "B" (graph chainListening)
    = Some (with_listeners [OnSingle "C"] (plain "B" Pending [Single "A"])) /\
  exists w',
    reset 1 "B" live chainListening = Returned tt w' /\
    lookup "C" (graph w') = lookup "C" (graph chainListening) /\
    trace w' = [StatusWrite "B" Pending; EmitUpdate "B" Pending live].
Proof.
  assert (Hb : lookup "B" (graph chainListening)
               = Some (with_listeners [OnSingle "C"]
                         (plain "B" Pending [Single "A"]))) by reflexivity.
  split; [exact Hb|].
  eexists. split.
  - exact (reset_returns_object_to_pending 0 "B" _ live chainListening Hb).
  - split; reflexivity.
Defined.

(** Both terms of [c] in [bothRejected] are fully rejected: two writes,
    two events. *)
Lemma tryReject_on_bothRejected :
  lookup "c" (graph bothRejected)
    = Some (plain "c" Pending [Single "a"; Single "b"]) /\
  exists w',
    tryReject (emit 1) "c" live bothRejected = Returned false w' /\
    trace w'
      = [ StatusWrite "c" Rejected; EmitUpdate "c" Rejected live;
          StatusWrite "c" Rejected; EmitUpdate "c" Rejected live ].
Proof.
  assert (Hc : lookup "c" (graph bothRejected)
               = Some (plain "c" Pending [Single "a"; Single "b"]))
    by reflexivity.
  split; [exact Hc|].
  eexists. split.
  - apply (tryReject_acts_once_per_leading_rejected_term
             0 "c" _ live bothRejected Hc eq_refl).
    + repeat constructor; discriminate.
    + simpl. intros [H | [H | []]]; discriminate.
  - reflexivity.
Defined.

(** The chain B, C hanging on A, with fuel 2. *)
Lemma rejection_runs_down_chainListening :
  isChain (graph chainListening) "A" ["B"; "C"] /\
  hasStatus (graph chainListening) Rejected "A" /\
  exists w',
    tryReject (emit 2) "B" live chainListening = Returned false w' /\
    option_map status (lookup "C" (graph w')) = Some Rejected /\
    trace w' = [ StatusWrite "B" Rejected; EmitUpdate "B" Rejected live;
                 StatusWrite "C" Rejected; EmitUpdate "C" Rejected live ].
Proof.
  assert (Hc : isChain (graph chainListening) "A" ["B"; "C"]).
  { simpl. repeat split; eexists; repeat split; reflexivity. }
  assert (Ha : hasStatus (graph chainListening) Rejected "A").
  { eexists. split; reflexivity. }
  assert (Hnd : NoDup ["A"; "B"; "C"]%string).
  { repeat constructor; simpl; intuition discriminate. }
  assert (Hf : (length ["B"; "C"]%string <= 2)%nat) by (simpl; lia).
  split; [exact Hc|]. split; [exact Ha|].
  eexists. split.
  - exact (rejection_runs_down_a_chain
             ["B"; "C"]%string 2 "A" "B" ["C"]%string live chainListening
             eq_refl Hc Hnd Ha Hf).
  - split; reflexivity.
Defined.

(** Eleven code units cut down to eight. *)
Lemma ensureStringLength_hello :
  ensureStringLength "hello world" 8 = "hello..."%string /\
  Z.of_nat (String.length (ensureStringLength "hello world" 8)) = 8.
Proof.
  split; [reflexivity|].
  assert (H3 : 3 <= 8) by lia.
  assert (Hl : 8 < Z.of_nat (String.length "hello world"))
    by (simpl; lia).
  exact (proj1 (proj1 (proj2 (proj2 (ensureStringLength_fits_from_three_up
                                       "hello world" 8))) H3 Hl)).
Defined.



(** The while group of [whileCanvas] stops hydration. *)
Lemma whileCanvas_cannot_be_hydrated :
  In "while"%string declaredNodeTypes /\
  exists m g c, Hydration.constructor whileCanvas = Hydration.Failed m g c.
Proof.
  assert (Hd : In "while"%string declaredNodeTypes)
    by (right; right; right; left; reflexivity).
  split; [exact Hd|].
  exact (proj2 (declared_types_without_a_case "while" Hd)
               (or_introl eq_refl) whileCanvas
               (Hydration.mkElement "n2" (Some "while"))
               (or_intror (or_introl eq_refl)) eq_refl).
Defined.

(** The entries and the console of the hydrated [sampleCanvas]. *)
Lemma sampleCanvas_has_exactly_the_built_objects :
  exists g c,
    Hydration.constructor sampleCanvas = Hydration.Hydrated g c /\
    Hydration.entry "n1" g <> None /\
    c = ["Select node not implemented"]%string.
Proof.
  eexists. eexists. split; [reflexivity|].
  destruct (hydrated_graph_has_exactly_the_built_objects
              sampleCanvas _ _ eq_refl) as [Hdom Hc].
  split; [|exact Hc].
  apply (proj2 (Hdom "n1"%string)). left.
  exists (Hydration.mkElement "n1" (Some "input")).
  split; [now left|]. split; reflexivity.
Defined.

(** The chat edge of [sampleCanvas] is the last edge with its id. *)
Lemma sampleCanvas_last_write_wins :
  exists g c,
    Hydration.constructor sampleCanvas = Hydration.Hydrated g c /\
    Hydration.entry "e2" g
      = Some (Hydration.new Hydration.CannoliEdge
                (Hydration.mkElement "e2" (Some "chat"))).
Proof.
  eexists. eexists. split; [reflexivity|].
  destruct (hydration_last_write_wins sampleCanvas _ _ eq_refl)
    as [Hedges _].
  apply (Hedges [Hydration.mkElement "e1" (Some "logging")]
                (Hydration.mkElement "e2" (Some "chat")) []).
  - reflexivity.
  - intros [].
Defined.

(** [whileCanvas] fails with the input node hydrated and nothing else. *)
Lemma whileCanvas_fails_half_way :
  exists g c,
    Hydration.constructor whileCanvas
      = Hydration.Failed "Unknown node type: while" g c /\
    Hydration.entry "n1" g <> None /\
    c = [].
Proof.
  assert (Hpre : Forall
                   (fun n' => Hydration.recognized (Hydration.cannoliType n')
                              = true)
                   [Hydration.mkElement "n1" (Some "input")])
    by (constructor; [reflexivity | constructor]).
  destruct (failed_hydration_keeps_earlier_nodes
              whileCanvas
              [Hydration.mkElement "n1" (Some "input")]
              [Hydration.mkElement "n3" (Some "display")]
              (Hydration.mkElement "n2" (Some "while"))
              eq_refl Hpre eq_refl)
    as [g [c [_ [Hfail [Hdom Hc]]]]].
  exists g, c. split; [exact Hfail|]. split; [|exact Hc].
  apply (proj2 (Hdom "n1"%string)).
  exists (Hydration.mkElement "n1" (Some "input")).
  split; [now left|]. split; reflexivity.
Defined.

(** [p] of [cycle], with fuel 5. *)
Lemma cycle_never_settles :
  inCycle (graph cycle) "p" "q" /\
  hasStatus (graph cycle) Rejected "q" /\
  tryReject (emit 5) "p" live cycle = Exhausted.
Proof.
  assert (Hc : inCycle (graph cycle) "p" "q").
  { split; eexists; repeat split; reflexivity. }
  assert (Hq : hasStatus (graph cycle) Rejected "q").
  { eexists. split; reflexivity. }
  split; [exact Hc|]. split; [exact Hq|].
  exact (rejection_in_a_cycle_never_settles 5 "p" "q" live cycle Hc Hq).
Defined.

(** A base name without the ending is shown as it is. *)
Lemma names_of_notes :
  endsWith "notes" ".cno" = false /\
  noticeName "notes" = "notes"%string /\
  noticeName "plan.cno" = "plan"%string.
Proof.
  assert (H : endsWith "notes" ".cno" = false) by reflexivity.
  split; [exact H|]. split.
  - exact (proj1 (proj2 (proj2 (names_of_a_canvas_file "notes" "plan"))) H).
  - exact (proj1 (names_of_a_canvas_file "notes" "plan")).
Defined.


(** B of [choiceListening] executed after A. *)
Lemma executing_B_after_A_throws :
  hasStatus (graph (worldAfter (execute 1 "A" live) choiceListening))
            Complete "A" /\
  exists w',
    execute 1 "B" live (worldAfter (execute 1 "A" live) choiceListening)
      = Thrown (ConflictingAlternativesError "D") w' /\
    option_map status (lookup "B" (graph w')) = Some Complete /\
    option_map status (lookup "D" (graph w')) = Some Pending.
Proof.
  assert (Ha : hasStatus
                 (graph (worldAfter (execute 1 "A" live) choiceListening))
                 Complete "A").
  { eexists. split; reflexivity. }
  split; [exact Ha|].
  eexists. split.
  - eapply (executing_a_second_alternative_throws
              0 "A" "B" "D" ["A"; "B"; "C"]%string _ live
              (worldAfter (execute 1 "A" live) choiceListening)).
    + discriminate.
    + now left.
    + right. now left.
    + repeat constructor; discriminate.
    + exact Ha.
    + reflexivity.
    + reflexivity.
  - split; reflexivity.
Defined.

End Showcase.
